(** * jmap-js: the Connection's patch codec, request pipeline and failure
    classifier, with the calendar event's start-date enumeration.

    A shallow embedding of the functions of [source/api/Connection.js],
    [source/mail/Message.js], [source/mail/Thread.js] and [CalendarEvent.js]
    that the specification speaks about, and of the functions around them:
    the queues of the next request and the pending fetches of the
    Connection, what it tells the store, the overrides of a calendar event,
    the body parts of a message and the aggregates of a thread; followed by
    the properties they satisfy.

    Conventions of the embedding.
    - A JavaScript string is a [string]; [indexOf] answers in [Z] because the
      source tests its result against [-1].
    - A JSON value is a [json]; a plain object is a [gmap string json] of its
      own properties, and reading a member, listing the members and testing
      for a member look at those alone.  The names every object inherits from
      [Object.prototype] are listed in [Object_prototype]: a property of code
      that reads [object[ key ]] or tests [key in object] is stated for names
      that are not among them, and an assignment under the name [__proto__],
      which adds no member, is [put].  Values are immutable here, so a deep
      copy of a value is the value.
    - [undefined] is [None] in an [option json].
    - Code that mutates an object in place returns the new value of that
      object; effects on collaborators (auth, store, run loop) are recorded as
      a list of events in program order. *)

From Stdlib Require Import ZArith Ascii String List Permutation Sorted Lia.
From stdpp Require Import gmap strings pretty list fin_maps sorting.

(** ** JavaScript string primitives used by the sources *)

Module JS.

(** [s.indexOf( c )] for a one-character needle: position of the first
    occurrence, [-1] when there is none. *)
Fixpoint indexOf (c : ascii) (s : string) : Z :=
  match s with
  | EmptyString => (-1)%Z
  | String a r =>
      if Ascii.eqb a c then 0%Z
      else let i := indexOf c r in if (i <? 0)%Z then (-1)%Z else (i + 1)%Z
  end.

Fixpoint take (n : nat) (s : string) : string :=
  match n, s with
  | S n', String a r => String a (take n' r)
  | _, _ => EmptyString
  end.

Fixpoint drop (n : nat) (s : string) : string :=
  match n, s with
  | S n', String _ r => drop n' r
  | _, _ => s
  end.

(** The clamping of a relative index done by [String.prototype.slice]. *)
Definition clamp (len : nat) (i : Z) : nat :=
  if (i <? 0)%Z then Z.to_nat (Z.max (Z.of_nat len + i) 0)
  else Nat.min (Z.to_nat i) len.

(** [s.slice( from )] *)
Definition slice_from (s : string) (from : Z) : string :=
  drop (clamp (String.length s) from) s.

(** [s.slice( from, to )] *)
Definition slice (s : string) (from to : Z) : string :=
  let len := String.length s in
  let a := clamp len from in
  let b := clamp len to in
  take (b - a) (drop a s).

(** [s.charAt( 0 )]: the empty string when [s] is empty. *)
Definition charAt0 (s : string) : string :=
  match s with
  | EmptyString => EmptyString
  | String a _ => String a EmptyString
  end.

(** [s.replace( /c/g, by )] for a one-character pattern. *)
Fixpoint replace_char (c : ascii) (by_ : string) (s : string) : string :=
  match s with
  | EmptyString => EmptyString
  | String a r =>
      if Ascii.eqb a c then by_ +:+ replace_char c by_ r
      else String a (replace_char c by_ r)
  end.

(** [s.replace( /c1c2/g, by )] for a two-character pattern: matches are
    found left to right and do not overlap. *)
Fixpoint replace_pair (c1 c2 : ascii) (by_ : ascii) (s : string) : string :=
  match s with
  | EmptyString => EmptyString
  | String a r =>
      match r with
      | String b r' =>
          if Ascii.eqb a c1 && Ascii.eqb b c2
          then String by_ (replace_pair c1 c2 by_ r')
          else String a (replace_pair c1 c2 by_ r)
      | EmptyString => String a EmptyString
      end
  end.

End JS.

(** ** Patch codec: path components *)

(** [key.replace( /~/g, '~0' ).replace( /\//g, '~1' )], the encoding of a
    member name inside [makePatches]. *)
Definition escape (key : string) : string :=
  JS.replace_char "/" "~1" (JS.replace_char "~" "~0" key).

(** [key.replace( /~1/g, '/' ).replace( /~0/g, '~' )], the decoding of a
    path component inside [applyPatch] and [isValidPatch]. *)
Definition unescape (key : string) : string :=
  JS.replace_pair "~" "0" "~" (JS.replace_pair "~" "1" "/" key).

(** ** JSON values *)

(** Numbers are integers here: the sources below only test a number for
    being zero and compare numbers for equality. *)
#[warnings="-register-all"]
Inductive json :=
  | JNull
  | JBool (b : bool)
  | JNum (n : Z)
  | JStr (s : string)
  | JArr (l : list json)
  | JObj (m : gmap string json).

Global Instance json_eq_dec : EqDecision json.
Proof.
  refine (fix go (x y : json) {struct x} : Decision (x = y) :=
    match x, y with
    | JNull, JNull => left _
    | JBool a, JBool b => cast_if (decide (a = b))
    | JNum a, JNum b => cast_if (decide (a = b))
    | JStr a, JStr b => cast_if (decide (a = b))
    | JArr a, JArr b => cast_if (@decide (a = b) (@list_eq_dec _ go a b))
    | JObj a, JObj b => cast_if (@decide (a = b) (@gmap_eq_dec _ _ _ _ go a b))
    | _, _ => right _
    end); clear go; abstract congruence.
Defined.

Global Instance json_inhabited : Inhabited json := populate JNull.

(** JavaScript truthiness of a JSON value ([!value] is its negation). *)
Definition truthy (v : json) : bool :=
  match v with
  | JNull => false
  | JBool b => b
  | JNum n => negb (n =? 0)%Z
  | JStr s => negb (bool_decide (s = ""))
  | JArr _ | JObj _ => true
  end.

Definition truthy_opt (v : option json) : bool :=
  match v with Some j => truthy j | None => false end.

Definition is_null (v : json) : bool :=
  match v with JNull => true | _ => false end.

(** The index named by a property key of an array or string of length
    [len]: keys are the decimal numerals of the positions. *)
Definition array_index (len : nat) (key : string) : option nat :=
  fst <$> list_find (λ i : nat, pretty i = key) (seq 0 len).

(** [object[ key ]] where [object] is neither [null] nor [undefined], for a
    [key] that is not the name of a member [object] inherits: own members of
    a plain object, elements and [length] of an array, characters and
    [length] of a string, nothing on numbers and booleans.  The members
    inherited from [Object.prototype] and from the prototypes of arrays,
    strings, numbers and booleans are outside the embedding. *)
Definition get (object : json) (key : string) : option json :=
  match object with
  | JObj m => m !! key
  | JArr l =>
      if decide (key = "length") then Some (JNum (Z.of_nat (length l)))
      else i ← array_index (length l) key; l !! i
  | JStr s =>
      if decide (key = "length") then Some (JNum (Z.of_nat (String.length s)))
      else i ← array_index (String.length s) key;
           c ← String.get i s; Some (JStr (String c EmptyString))
  | _ => None
  end.

(** The keys visited by [for ( key in object )]. *)
Definition own_keys (object : json) : list string :=
  match object with
  | JObj m => (map_to_list m).*1
  | JArr l => pretty <$> seq 0 (length l)
  | JStr s => pretty <$> seq 0 (String.length s)
  | _ => []
  end.

(** The names of the members every object inherits from [Object.prototype].
    On an object without a member of that name of its own, [object[ key ]]
    and [key in object] find the inherited one. *)
Definition Object_prototype : list string :=
  [ "constructor"; "hasOwnProperty"; "isPrototypeOf"; "propertyIsEnumerable";
    "toLocaleString"; "toString"; "valueOf"; "__proto__"; "__defineGetter__";
    "__defineSetter__"; "__lookupGetter__"; "__lookupSetter__" ].

Definition inherited (key : string) : bool :=
  bool_decide (key ∈ Object_prototype).

(** [object[ key ] = value] on an object made by [{}] that is only written
    to, enumerated and serialised: under the name [__proto__] the assignment
    runs the setter inherited from [Object.prototype], which changes the
    prototype, or nothing, and adds no member. *)
Definition put {A} (key : string) (value : A) (object : gmap string A)
    : gmap string A :=
  if bool_decide (key = "__proto__") then object else <[key := value]> object.

(** Modelled from the spec: [O.isEqual] belongs to the Overture library and
    is not among the sources; the specification calls it structural
    equality.  On this representation of JSON (objects are maps, so the
    order of members is not represented) it is equality of values, with
    [undefined] equal to itself only. *)
Definition isEqual (a b : option json) : bool := bool_decide (a = b).

(** ** Patch codec: [makePatches] and [applyPatch] *)

(** The [else] branch of [makePatches]:
    [if ( !isEqual( original, current ) ) { patches[ path ] = current !==
    undefined ? current : null; didPatch = true; }]. *)
Definition leafPatch (path : string) (patches : gmap string json)
    (original current : option json) : gmap string json * bool :=
  if isEqual original current then (patches, false)
  else (put path (default JNull current) patches, true).

(** [makePatches( path, patches, original, current )] for a defined
    [current]; the result pairs the new contents of [patches] with
    [didPatch].  The recursion is entered when [original] is truthy and
    [current] is an object that is not an array.  The second loop calls
    [makePatches( ..., original[ key ], null )], which takes the [else]
    branch at once.  [original[ key ]] and [key in current] are read from
    the own members: the embedding is of values whose member names are not
    inherited ones, see [plain_names]. *)
Fixpoint makePatchesJ (path : string) (patches : gmap string json)
    (original : option json) (current : json) {struct current}
    : gmap string json * bool :=
  match current with
  | JObj mc =>
      match original with
      | Some o =>
          if truthy o then
            let st1 :=
              map_fold (λ key v (st : gmap string json * bool),
                  let r := makePatchesJ (path +:+ "/" +:+ escape key) st.1
                             (get o key) v in
                  (r.1, r.2 || st.2))
                (patches, false) mc in
            foldl (λ (st : gmap string json * bool) key,
                if decide (is_Some (mc !! key)) then st
                else
                  let r := leafPatch (path +:+ "/" +:+ escape key) st.1
                             (get o key) (Some JNull) in
                  (r.1, r.2 || st.2))
              st1 (own_keys o)
          else leafPatch path patches original (Some current)
      | None => leafPatch path patches original (Some current)
      end
  | _ => leafPatch path patches original (Some current)
  end.

(** [makePatches] proper: [current] may be [undefined], which is falsy. *)
Definition makePatches (path : string) (patches : gmap string json)
    (original current : option json) : gmap string json * bool :=
  match current with
  | Some c => makePatchesJ path patches original c
  | None => leafPatch path patches original None
  end.

(** How a call of [applyPatch] can end without returning, or leave the
    embedding. *)
Inductive failure :=
  | TypeError   (* thrown by strict-mode code that assigns to a member of a
                   number or a boolean *)
  | Indexed     (* not an outcome of the code: the walk reached an array or
                   a string, which the code goes on to index or to change;
                   the embedding, which has arrays replaced as a whole, stops
                   there and tells nothing of what the code does next *)
  | OutOfFuel.  (* never the case for [applyPatch], see
                   [applyPatch_terminates] *)

(** What a call of [applyPatch] leaves behind: the patched value when it
    returns. *)
Inductive outcome (A : Type) :=
  | Done (object : A)
  | Failed (why : failure).
Global Arguments Done {A} object.
Global Arguments Failed {A} why.

Definition outcome_map {A B} (f : A → B) (r : outcome A) : outcome B :=
  match r with
  | Done a => Done (f a)
  | Failed why => Failed why
  end.


(** One iteration of the [while ( true )] loop of [applyPatch] per unit of
    [fuel]; [object] is the value the loop variable refers to, and the result
    is that value after the mutation.  The components of [path] are not
    names of inherited members.  A number or a boolean then has no members:
    reading one gives [undefined], with which the next iteration returns;
    deleting one does nothing; assigning one throws.  At an array or a
    string the embedding ends with [Failed Indexed]. *)
Fixpoint applyPatch_loop (fuel : nat) (object : json) (path : string)
    (patch : json) : outcome json :=
  match fuel with
  | O => Failed OutOfFuel
  | S fuel' =>
      if negb (truthy object) then Done object
      else
        let slash := JS.indexOf "/" path in
        if (slash >? -1)%Z then
          let key := unescape (JS.slice path 0 slash) in
          let path' := JS.slice_from path (slash + 1) in
          match object with
          | JObj m =>
              match m !! key with
              | None => Done object
              | Some child =>
                  outcome_map (λ child', JObj (<[key := child']> m))
                    (applyPatch_loop fuel' child path' patch)
              end
          | JArr _ | JStr _ => Failed Indexed
          | _ => Done object
          end
        else
          let key := unescape path in
          match object with
          | JObj m =>
              Done (JObj (if is_null patch then delete key m
                          else <[key := patch]> m))
          | JArr _ | JStr _ => Failed Indexed
          | _ => if is_null patch then Done object else Failed TypeError
          end
  end.

Definition applyPatch (object : json) (path : string) (patch : json)
    : outcome json :=
  applyPatch_loop (S (String.length path)) object path patch.


(** The walk of [applyPatch] and [isValidPatch] along [path] stays on own
    members of plain objects: every value it reads a member of is a plain
    object, and no name it reads is one that objects inherit.  The last
    component of the path, which [isValidPatch] does not read, is free. *)
Fixpoint plainWalk_loop (fuel : nat) (object : json) (path : string) : bool :=
  match fuel with
  | O => true
  | S fuel' =>
      if negb (truthy object) then true
      else
        let slash := JS.indexOf "/" path in
        if (slash =? -1)%Z then true
        else
          let key := unescape (JS.slice path 0 slash) in
          let path' := JS.slice_from path (slash + 1) in
          match object with
          | JObj m =>
              negb (inherited key) &&
              from_option (λ child, plainWalk_loop fuel' child path') true
                (m !! key)
          | _ => false
          end
  end.

Definition plainWalk (object : json) (path : string) : bool :=
  plainWalk_loop (S (String.length path)) object path.


Example makePatches_scenario :
  map_to_list (makePatches "keywords" ∅
      (Some (JObj {[ "$seen" := JBool true ]})) (Some (JObj ∅))).1
  = [("keywords/$seen", JNull)].
Proof. vm_compute. reflexivity. Qed.

Example applyPatch_scenario :
  applyPatch (JObj {[ "subject" := JStr "a";
                      "keywords" := JObj {[ "$seen" := JBool true ]} ]})
    "keywords/$seen" JNull
  = Done (JObj {[ "subject" := JStr "a"; "keywords" := JObj ∅ ]}).
Proof. vm_compute. reflexivity. Qed.

(** ** Set-request builder: [makeUpdate] and [makeSetRequest] *)

(** The string a value turns into when it is used as a property key
    ([updates[ record[ primaryKey ] ]]). *)
Fixpoint to_property_key (v : json) : string :=
  match v with
  | JNull => "null"
  | JBool true => "true"
  | JBool false => "false"
  | JNum n => pretty n
  | JStr s => s
  | JArr l =>
      String.concat ","
        (map (λ x, match x with JNull => "" | _ => to_property_key x end) l)
  | JObj _ => "[object Object]"
  end.

Definition property_key (v : option json) : string :=
  match v with Some j => to_property_key j | None => "undefined" end.

(** [change.update]: parallel arrays, one position per updated record.  A
    record and its committed copy are plain objects; a change map lists its
    attribute names in the order [for ( key in change )] visits them. *)
Record update_t := {
  storeKeys : list string;
  records : list (gmap string json);
  changes : list (list (string * bool));
  committed : list (gmap string json);
  copyFromIds : list string;
}.

(** [patches[ key ] = value] as the request serialises it: a member set to
    [undefined] is left out of the JSON text, and none is set under the name
    [__proto__]. *)
Definition assign (key : string) (value : option json)
    (patches : gmap string json) : gmap string json :=
  match value with
  | Some v => put key v patches
  | None => if bool_decide (key = "__proto__") then patches else delete key patches
  end.

(** The body of [for ( key in change )] in [makeUpdate].  [None] stands for
    the [TypeError] of reading [previous[ key ]] when [committed[i]] is
    missing. *)
Definition patchAttribute (noPatch : bool) (record : gmap string json)
    (previous : option (gmap string json))
    (patches : option (gmap string json)) (entry : string * bool)
    : option (gmap string json) :=
  ps ← patches;
  let '(key, changed) := entry in
  if changed && negb (bool_decide (key = "accountId")) then
    if noPatch then Some (assign key (record !! key) ps)
    else
      prev ← previous;
      Some (makePatches key ps (prev !! key) (record !! key)).1
  else Some ps.

(** One turn of the loop over [records] in [makeUpdate]. *)
Definition updateRecord (primaryKey : string) (update : update_t)
    (noPatch isCopy : bool) (i : nat) (record : gmap string json)
    (updates : gmap string (gmap string json))
    : option (gmap string (gmap string json)) :=
  let change := default [] (changes update !! i) in
  let previous := if noPatch then None else committed update !! i in
  patches ← foldl (patchAttribute noPatch record previous) (Some ∅) change;
  let patches :=
    if isCopy then assign primaryKey (JStr <$> copyFromIds update !! i) patches
    else patches in
  let id :=
    if isCopy then default "undefined" (storeKeys update !! i)
    else property_key (record !! primaryKey) in
  Some (put id patches updates).

(** [makeUpdate( primaryKey, update, noPatch, isCopy )].  The outer [None]
    is a thrown [TypeError]; the inner [None] is the [undefined] returned
    when no record was updated. *)
Definition makeUpdate (primaryKey : string) (update : update_t)
    (noPatch isCopy : bool) : option (option (gmap string (gmap string json))) :=
  updates ←
    foldl (λ acc ir, acc ≫= updateRecord primaryKey update noPatch isCopy ir.1 ir.2)
      (Some ∅) (imap pair (records update));
  Some (if decide (updates = ∅) then None else Some updates).

Record create_t := { c_storeKeys : list string; c_records : list json }.
Record destroy_t := { d_storeKeys : list string; d_ids : list string }.

Record change_t := {
  accountId : string;
  primaryKey : string;
  create : create_t;
  update : update_t;
  destroy : destroy_t;
}.

Record setArgs := {
  sa_accountId : string;
  sa_create : option (gmap string json);
  sa_update : option (gmap string (gmap string json));
  sa_destroy : option (list string);
}.

(** Truthiness of a value that is an object, an array or [undefined]. *)
Definition defined {A} (v : option A) : bool :=
  match v with Some _ => true | None => false end.

(** Modelled from the spec: [Object.zip] belongs to the Overture library and
    is not among the sources; the specification has [create] be the map
    [storeKey -> record]. *)
Definition Object_zip (keys : list string) (values : list json) : gmap string json :=
  list_to_map (zip keys values).

(** [makeSetRequest( change, noPatch )]; the inner [None] is the [null]
    returned when there is nothing to create, update or destroy. *)
Definition makeSetRequest (change : change_t) (noPatch : bool)
    : option (option setArgs) :=
  let toCreate :=
    match c_storeKeys (create change) with
    | [] => None
    | _ => Some (Object_zip (c_storeKeys (create change)) (c_records (create change)))
    end in
  toUpdate ← makeUpdate (primaryKey change) (update change) noPatch false;
  let toDestroy :=
    match d_ids (destroy change) with
    | [] => None
    | ids => Some ids
    end in
  Some (if defined toCreate || defined toUpdate || defined toDestroy
        then Some {| sa_accountId := accountId change; sa_create := toCreate;
                     sa_update := toUpdate; sa_destroy := toDestroy |}
        else None).

(** Scenario "diff-based commit" of the specification. *)
Definition commit_m7 : change_t := {|
  accountId := "A1";
  primaryKey := "id";
  create := {| c_storeKeys := []; c_records := [] |};
  update := {|
    storeKeys := ["sk7"];
    records := [ {[ "id" := JStr "m7"; "subject" := JStr "b";
                    "keywords" := JObj ∅ ]} ];
    changes := [ [("subject", true); ("keywords", true)] ];
    committed := [ {[ "id" := JStr "m7"; "subject" := JStr "a";
                      "keywords" := JObj {[ "$seen" := JBool true ]} ]} ];
    copyFromIds := [];
  |};
  destroy := {| d_storeKeys := []; d_ids := [] |};
|}.

Example makeSetRequest_commit_m7 :
  makeSetRequest commit_m7 false =
  Some (Some {| sa_accountId := "A1"; sa_create := None;
                sa_update := Some {[ "m7" := {[ "subject" := JStr "b";
                                              "keywords/$seen" := JNull ]} ]};
                sa_destroy := None |}).
Proof. vm_compute. reflexivity. Qed.

(** ** Arrays *)

(** [array.slice( from, to )] for non-negative indices. *)
Definition Array_slice {A} (l : list A) (from to : nat) : list A :=
  take (to - from) (drop from l).

(** [array.sort( compare )]: the sort is stable (ECMAScript 2019), so an
    element moves in front of the elements it does not compare greater
    than.  Written as a straight insertion sort. *)
Fixpoint Array_insert {A} (compare : A → A → Z) (x : A) (l : list A) : list A :=
  match l with
  | [] => [x]
  | y :: r =>
      if (compare x y <=? 0)%Z then x :: y :: r
      else y :: Array_insert compare x r
  end.

Definition Array_sort {A} (compare : A → A → Z) (l : list A) : list A :=
  foldr (Array_insert compare) [] l.

(** ** Connection: calls, responses and the collaborators' events *)

(** A method call or a method response: [[ name, arguments, clientTag ]]. *)
Record methodCall := {
  mc_name : string;
  mc_args : gmap string json;
  mc_tag : string;
}.

(** [NO_RESPONSE = [ 'error', {}, '' ]] *)
Definition NO_RESPONSE : methodCall :=
  {| mc_name := "error"; mc_args := ∅; mc_tag := "" |}.

(** An entry [[ id, callback ]] of the callback queue.  [id] is [''] ([None]
    here) or the decimal index of a call in the send queue, which is how
    [callMethod] makes it; the function is known by a number. *)
Definition callbackEntry : Type := option nat * nat.

(** [{ createdIds, doneCount, sentCount }] *)
Record context := {
  createdIds : option (gmap string json);
  doneCount : nat;
  sentCount : nat;
}.

(** The part of a Connection's state that the functions below read or
    write; [None] is [null]. *)
Record connection := {
  willRetry : bool;
  inFlightRemoteCalls : option (list methodCall);
  inFlightCallbacks : option (list callbackEntry);
  inFlightContext : option context;
}.

(** Calls on the collaborators, in program order. *)
Inductive event :=
  | AuthConnectionFailed (seconds : option Z)
  | AuthConnectionSucceeded
  | AuthFetchSession
  | AuthDidLoseAuthentication
  | AuthConnectionWillSend
  | RunLoopDidError (message : string)
  | Alert (message : string)
  | HandleResponses (responses : list methodCall)
      (remoteCalls : option (list methodCall))
  | QueueMiddle (callback : nat)
      (bound : option (gmap string json * string * gmap string json))
  | ThrowTypeError.

Global Instance methodCall_eq_dec : EqDecision methodCall.
Proof. solve_decision. Defined.
Global Instance context_eq_dec : EqDecision context.
Proof. solve_decision. Defined.
Global Instance event_eq_dec : EqDecision event.
Proof. solve_decision. Defined.

(** [serverUnavailable( methodResponse )] *)
Definition serverUnavailable (methodResponse : methodCall) : bool :=
  bool_decide (mc_name methodResponse = "error") &&
  bool_decide (mc_args methodResponse !! "type" = Some (JStr "serverUnavailable")).

(** [hasResultReference( methodCall )] *)
Definition hasResultReference (call : methodCall) : bool :=
  existsb (λ key, bool_decide (JS.charAt0 key = "#"))
    (map_to_list (mc_args call)).*1.

(** [processCallbacks( callbacks, methodResponses, methodCalls )]: the
    events, and whether the function ran to its end.  It does not when
    [callbacks] is [null] or when a tagged callback has no request at its
    index, for then [request[1]] throws. *)
Fixpoint queueCallbacks (callbacks : list callbackEntry)
    (methodResponses : list methodCall)
    (methodCalls : option (list methodCall)) : list event * bool :=
  match callbacks with
  | [] => ([], true)
  | (id, callback) :: rest =>
      match id with
      | Some n =>
          match methodCalls ≫= (λ calls, calls !! n) with
          | Some request =>
              let response :=
                default NO_RESPONSE
                  (find (λ call, bool_decide (mc_tag call = pretty n))
                     methodResponses) in
              let '(evs, ok) := queueCallbacks rest methodResponses methodCalls in
              (QueueMiddle callback
                 (Some (mc_args response, mc_name response, mc_args request))
                 :: evs, ok)
          | None => ([ThrowTypeError], false)
          end
      | None =>
          let '(evs, ok) := queueCallbacks rest methodResponses methodCalls in
          (QueueMiddle callback None :: evs, ok)
      end
  end.

Definition processCallbacks (callbacks : option (list callbackEntry))
    (methodResponses : list methodCall)
    (methodCalls : option (list methodCall)) : list event * bool :=
  match callbacks with
  | Some cbs => queueCallbacks cbs methodResponses methodCalls
  | None => ([ThrowTypeError], false)
  end.

(** [event.data] of a successful request. *)
Record responseData := {
  methodResponses : option (list methodCall);
  sessionState : option string;
  rd_createdIds : option (gmap string json);
}.

Definition clearInFlight (conn : connection) (clearContext : bool) : connection :=
  {| willRetry := willRetry conn;
     inFlightRemoteCalls := None;
     inFlightCallbacks := None;
     inFlightContext := if clearContext then None else inFlightContext conn |}.

(** [ioDidSucceed( event )]; [authState] is [auth.get( 'state' )]. *)
Definition ioDidSucceed (conn : connection) (authState : string)
    (data : option responseData) : connection * list event :=
  let responses := data ≫= methodResponses in
  let state := data ≫= sessionState in
  let remoteCalls := inFlightRemoteCalls conn in
  let suspect :=
    match responses with
    | None => true
    | Some rs => existsb serverUnavailable rs
    end in
  if suspect && willRetry conn then (conn, [AuthConnectionFailed None])
  else
    let responses := default [] responses in
    let evs :=
      ([AuthConnectionSucceeded] ++
       match state with
       | Some s =>
           if negb (bool_decide (s = "")) && negb (bool_decide (s = authState))
           then [AuthFetchSession] else []
       | None => []
       end ++
       [HandleResponses responses remoteCalls]) in
    let finish :=
      let '(cbs, ok) :=
        processCallbacks (inFlightCallbacks conn) responses remoteCalls in
      if ok then (clearInFlight conn true, evs ++ cbs)
      else (conn, evs ++ cbs) in
    match inFlightContext conn with
    | Some ctx =>
        match remoteCalls with
        | Some calls =>
            if doneCount ctx + sentCount ctx <? length calls then
              match data with
              | Some d =>
                  ({| willRetry := willRetry conn;
                      inFlightRemoteCalls := inFlightRemoteCalls conn;
                      inFlightCallbacks := inFlightCallbacks conn;
                      inFlightContext :=
                        Some {| createdIds := rd_createdIds d;
                                doneCount := doneCount ctx + sentCount ctx;
                                sentCount := sentCount ctx |} |}, evs)
              | None =>
                  ({| willRetry := willRetry conn;
                      inFlightRemoteCalls := inFlightRemoteCalls conn;
                      inFlightCallbacks := inFlightCallbacks conn;
                      inFlightContext :=
                        Some {| createdIds := createdIds ctx;
                                doneCount := doneCount ctx + sentCount ctx;
                                sentCount := sentCount ctx |} |},
                   evs ++ [ThrowTypeError])
              end
            else finish
        | None => (conn, evs ++ [ThrowTypeError])
        end
    | None => finish
    end.


(** ** Connection: pagination in [send] *)

(** The [while ( end > start + 1 )] loop of [send]: [end] steps down while
    the call at [end] has a result reference.  [None] is the [TypeError] of
    [hasResultReference( undefined )]. *)
Fixpoint shrinkEnd (remoteCalls : list methodCall) (start end_ : nat)
    {struct end_} : option nat :=
  if start + 1 <? end_ then
    match end_ with
    | S end' =>
        call ← remoteCalls !! end_;
        if hasResultReference call then shrinkEnd remoteCalls start end'
        else Some end_
    | O => Some end_
    end
  else Some end_.

(** [end] as [send] computes it from [start = inFlightContext.doneCount]. *)
Definition pageEnd (remoteCalls : list methodCall) (start maxCallsInRequest : nat)
    : option nat :=
  let end_ := start + maxCallsInRequest in
  if end_ <? length remoteCalls then shrinkEnd remoteCalls start end_
  else Some end_.

(** The part of [send] between reading [maxCallsInRequest] and building the
    request: the context after the call, the method calls of the request and
    its [createdIds]. *)
Definition sendPage (remoteCalls : list methodCall) (ctx : option context)
    (maxCallsInRequest : nat)
    : option (option context * list methodCall * option (gmap string json)) :=
  let ctx :=
    match ctx with
    | None =>
        if maxCallsInRequest <? length remoteCalls
        then Some {| createdIds := Some ∅; doneCount := 0; sentCount := 0 |}
        else None
    | Some c => Some c
    end in
  match ctx with
  | Some c =>
      end_ ← pageEnd remoteCalls (doneCount c) maxCallsInRequest;
      let page := Array_slice remoteCalls (doneCount c) end_ in
      Some (Some {| createdIds := createdIds c; doneCount := doneCount c;
                    sentCount := length page |},
            page, createdIds c)
  | None => Some (None, remoteCalls, None)
  end.

(** The pages of a whole batch: [send], then [ioDidSucceed] advancing
    [doneCount] by [sentCount], until no call is left; [fuel] bounds the
    number of requests. *)
Fixpoint pagesFrom (fuel : nat) (remoteCalls : list methodCall)
    (start maxCallsInRequest : nat) : option (list (list methodCall)) :=
  match fuel with
  | O => None
  | S fuel' =>
      end_ ← pageEnd remoteCalls start maxCallsInRequest;
      let page := Array_slice remoteCalls start end_ in
      if start + length page <? length remoteCalls then
        rest ← pagesFrom fuel' remoteCalls (start + length page) maxCallsInRequest;
        Some (page :: rest)
      else Some [page]
  end.

(** ** Connection: the [error] response handler *)

(** The four handler names [response.error] builds for an error of type
    [type] answering the request [requestName]. *)
Definition error_method_type (requestName type : string) : string :=
  "error_" +:+ requestName +:+ "_" +:+ type.
Definition error_method (requestName : string) : string :=
  "error_" +:+ requestName.
Definition error_verb (requestName : string) : string :=
  "error_" +:+ JS.slice_from requestName (JS.indexOf "/" requestName).
Definition error_type (type : string) : string :=
  "error_" +:+ type.

(** What [response.error] does: the handlers it calls, in order, or the
    line it logs. *)
Inductive errorAction :=
  | CallHandler (method : string)
  | LogUnhandled (type : string).

Global Instance errorAction_eq_dec : EqDecision errorAction.
Proof. solve_decision. Defined.

(** [response.error( args, requestName, requestArgs )] with
    [type = args.type]; [response] is the set of names that have a handler
    in the registry. *)
Definition response_error (response : gset string) (type requestName : string)
    : list errorAction :=
  let called :=
    if decide (error_method_type requestName type ∈ response) then
      [CallHandler (error_method_type requestName type)]
    else
      (if decide (error_method requestName ∈ response) then
         [CallHandler (error_method requestName)]
       else if decide (error_verb requestName ∈ response) then
         [CallHandler (error_verb requestName)]
       else []) ++
      (if decide (error_type type ∈ response) then
         [CallHandler (error_type type)]
       else []) in
  match called with
  | [] => [LogUnhandled type]
  | _ => called
  end.

(** The response handlers every Connection starts with. *)
Definition default_response : gset string :=
  list_to_set
    [ "error"; "error_/get"; "error_/set"; "error_/copy";
      "error_accountNotFound"; "error_accountReadOnly";
      "error_accountNotSupportedByMethod"; "error_serverFail";
      "error_unknownMethod"; "error_invalidArguments";
      "error_requestTooLarge" ].

(** ** Connection: [commitChanges] *)

(** A change-set for one record type, as [commitChanges] and [commitType]
    read it. *)
Record typeChange := {
  typeId : string;
  change : change_t;
}.

(** A registered commit handler: the name of a type for [commitType], or a
    function (known by a number). *)
Inductive committer :=
  | CommitWithType (handler : string)
  | CommitWithFunction (handler : nat).

(** A call made by the loop of [commitChanges]: the handler and the key of
    the change it is given. *)
Inductive commitCall :=
  | CommitType (handler : string) (id : string)
  | CallCommitter (handler : nat) (id : string).

Global Instance commitCall_eq_dec : EqDecision commitCall.
Proof. solve_decision. Defined.

(** [precedence[ typeId ] || -1] *)
Definition precedenceOf (precedence : gmap string Z) (typeId : string) : Z :=
  match precedence !! typeId with
  | Some n => if (n =? 0)%Z then (-1)%Z else n
  | None => (-1)%Z
  end.

(** The comparator given to [ids.sort]. *)
Definition byPrecedence (precedence : gmap string Z)
    (a b : string * typeChange) : Z :=
  (precedenceOf precedence (typeId b.2) - precedenceOf precedence (typeId a.2))%Z.

(** The [while ( l-- )] loop of [commitChanges] over [ids], last to first. *)
Definition commitCalls (recordCommitters : gmap string committer)
    (ids : list (string * typeChange)) : list commitCall :=
  omap (λ entry : string * typeChange,
      match recordCommitters !! typeId entry.2 with
      | Some (CommitWithType handler) => Some (CommitType handler entry.1)
      | Some (CommitWithFunction handler) => Some (CallCommitter handler entry.1)
      | None => None
      end) (reverse ids).

(** [commitChanges( changes, callback )].  [changes] lists the members of
    the object in the order of [Object.keys]; the comparator reads
    [changes[ id ]], so the entries are sorted in place of their keys.  The
    result has the handler calls in order, the callback queue afterwards and
    the returned [handledAny]. *)
Definition commitChanges (commitPrecedence : option (gmap string Z))
    (recordCommitters : gmap string committer)
    (callbackQueue : list callbackEntry)
    (changes : list (string * typeChange)) (callback : option nat)
    : list commitCall * list callbackEntry * bool :=
  let ids :=
    match commitPrecedence with
    | Some precedence => Array_sort (byPrecedence precedence) changes
    | None => changes
    end in
  let calls := commitCalls recordCommitters ids in
  let handledAny := match calls with [] => false | _ => true end in
  let queue :=
    match callback with
    | Some fn => if handledAny then callbackQueue ++ [(None, fn)] else callbackQueue
    | None => callbackQueue
    end in
  (calls, queue, handledAny).

(** ** Mail: adaptive paging of [Email/changes] and [getThreadUpdates] *)

Module Mail.

(** What the two response handlers ask of the Connection and the store. *)
Inductive action :=
  | DidFetchUpdates
  | RecalculateAllFetchedWindows
  | FetchMoreChanges            (* [this.fetchMoreChanges( accountId, Message )] *)
  | StoreFetchAll               (* [store.fetchAll( Thread, true )] *)
  | CannotCalculateChanges (handler : string).

Global Instance action_eq_dec : EqDecision action.
Proof. solve_decision. Defined.

(** [mail.messageChangesMaxChanges = 50] *)
Definition initialMessageChangesMaxChanges : Z := 50.

(** The ['Email/changes'] response handler: [maxChanges] is
    [this.messageChangesMaxChanges] before and after the call;
    [hasUpdated] is [args.updated && args.updated.length]. *)
Definition Email_changes (maxChanges : Z) (hasUpdated hasMoreChanges : bool)
    : Z * list action :=
  let acts :=
    DidFetchUpdates ::
    (if hasUpdated then [RecalculateAllFetchedWindows] else []) in
  if hasMoreChanges then
    if (maxChanges <? 150)%Z then
      (if (maxChanges =? 50)%Z then 100%Z else 150%Z, acts ++ [FetchMoreChanges])
    else
      (50%Z,
       acts ++ [CannotCalculateChanges "error_Email/changes_cannotCalculateChanges"])
  else (50%Z, acts).

(** [threadUpdateFetchRecords] and [threadUpdateMaxChanges] of the mail
    Connection. *)
Record threadPaging := {
  threadUpdateFetchRecords : bool;
  threadUpdateMaxChanges : Z;
}.

(** [JMAP.mail.threadUpdateFetchRecords = true;
     JMAP.mail.threadUpdateMaxChanges = 30;] *)
Definition initialThreadPaging : threadPaging :=
  {| threadUpdateFetchRecords := true; threadUpdateMaxChanges := 30 |}.

(** The [threadUpdates] response handler; [fetchRecords] is
    [reqArgs.fetchRecords]. *)
Definition threadUpdates (paging : threadPaging)
    (fetchRecords hasMoreUpdates : bool) : threadPaging * list action :=
  let acts :=
    DidFetchUpdates ::
    (if fetchRecords then [] else [RecalculateAllFetchedWindows]) in
  if hasMoreUpdates then
    if (threadUpdateMaxChanges paging <? 120)%Z then
      (if (threadUpdateMaxChanges paging =? 30)%Z then
         {| threadUpdateFetchRecords := false; threadUpdateMaxChanges := 100 |}
       else
         {| threadUpdateFetchRecords := threadUpdateFetchRecords paging;
            threadUpdateMaxChanges := 120 |},
       acts ++ [StoreFetchAll])
    else
      (initialThreadPaging,
       acts ++ [CannotCalculateChanges "error_getThreadUpdates_cannotCalculateChanges"])
  else (initialThreadPaging, acts).

(** A run of replies that all report more changes: the values of
    [maxChanges] after each reply and the last action of each. *)
Fixpoint emailSchedule (n : nat) (maxChanges : Z) : list (Z * option action) :=
  match n with
  | O => []
  | S n' =>
      let '(next, acts) := Email_changes maxChanges false true in
      (next, last acts) :: emailSchedule n' next
  end.

Fixpoint threadSchedule (n : nat) (paging : threadPaging)
    : list (Z * option action) :=
  match n with
  | O => []
  | S n' =>
      let '(next, acts) :=
        threadUpdates paging (threadUpdateFetchRecords paging) true in
      (threadUpdateMaxChanges next, last acts) :: threadSchedule n' next
  end.

End Mail.

(** ** Calendar: [allStartDates] *)

Module Calendar.

(** The fields of a recurrence rule that [allStartDates] tests; a date is
    its time value, and [count] is a number. *)
Record recurrenceRule := {
  frequency : string;
  until : option Z;
  count : option Z;
}.

(** [!rule.count]: a missing count and a count of zero are both falsy. *)
Definition hasCount (rule : recurrenceRule) : bool :=
  match count rule with
  | Some n => negb (n =? 0)%Z
  | None => false
  end.

(** [recurrenceOverrides[ id ].excluded], as a condition. *)
Definition excluded (patch : gmap string json) : bool :=
  truthy_opt (patch !! "excluded").

(** [numerically] *)
Definition numerically (a b : Z) : Z := (a - b)%Z.

Section AllStartDates.

(** The recurrence-rule expansion kernel [rule.getOccurrences( start, null,
    null )] and the two date conversions of the Overture library are not
    among the sources: they are parameters here.  Override ids are ISO date
    strings, so [Date.fromJSON] answers a date. *)
Variable getOccurrences : recurrenceRule → Z → list Z.
Variable toJSON : Z → string.
Variable fromJSON : string → Z.

(** The loop [for ( id in recurrenceOverrides )]: an excluded id leaves the
    set, any other id joins it. *)
Definition applyOverrides (recurrenceOverrides : gmap string (gmap string json))
    (occurrencesSet : gset string) : gset string :=
  map_fold (λ id patch set,
      if excluded patch then set ∖ {[ id ]} else {[ id ]} ∪ set)
    occurrencesSet recurrenceOverrides.

(** [allStartDates]: the value of the property for an event with the given
    [start], [recurrenceRule] and [recurrenceOverrides]. *)
Definition allStartDates (start : Z) (rule : option recurrenceRule)
    (recurrenceOverrides : option (gmap string (gmap string json))) : list Z :=
  let unbounded :=
    match rule with
    | Some r => negb (bool_decide (is_Some (until r))) && negb (hasCount r)
    | None => false
    end in
  if unbounded then [start]
  else
    let dates :=
      match rule with
      | Some r => getOccurrences r start
      | None => [start]
      end in
    match recurrenceOverrides with
    | Some overrides =>
        let occurrencesSet : gset string := list_to_set (toJSON <$> dates) in
        let occurrencesSet := applyOverrides overrides occurrencesSet in
        Array_sort numerically (fromJSON <$> elements occurrencesSet)
    | None => dates
    end.

End AllStartDates.

End Calendar.

(** ** Calendar event: [isValidPatch] and [_removeInvalidPatches] *)

Module CalendarEvent.

(** One iteration of the [while ( true )] loop of [isValidPatch] per unit of
    [fuel]; [object] is [None] when the last member read was [undefined].
    [None] as a result is running out of fuel. *)
Fixpoint isValidPatch_loop (fuel : nat) (object : option json) (path : string)
    : option bool :=
  match fuel with
  | O => None
  | S fuel' =>
      match object with
      | Some o =>
          if negb (truthy o) then Some false
          else
            let slash := JS.indexOf "/" path in
            if (slash =? -1)%Z then Some true
            else
              let key := unescape (JS.slice path 0 slash) in
              let path' := JS.slice_from path (slash + 1) in
              isValidPatch_loop fuel' (get o key) path'
      | None => Some false
      end
  end.

(** [isValidPatch( object, path )]; the loop never runs out of this fuel,
    see [isValidPatch_terminates]. *)
Definition isValidPatch (object : option json) (path : string) : bool :=
  default false (isValidPatch_loop (S (String.length path)) object path).


End CalendarEvent.

(** ** Connection: the queues of the next request *)

(** An object literal whose member values may be [undefined]: such a member
    is read as [undefined] and is not serialised, like a missing one, and its
    name does not begin with ['#'] in any literal below, so it is left out. *)
Definition object (members : list (string * option json)) : gmap string json :=
  list_to_map (omap (λ member : string * option json, pair member.1 <$> member.2)
                 members).

(** The queues and pending requests of a Connection: [_sendQueue],
    [_callbackQueue], [_queriesToFetch] (query id to the guid of the query's
    type), [_typesToRefresh] (account id to type id to state),
    [_recordsToRefresh], [_typesToFetch] and [_recordsToFetch] (account id to
    type id to ids), and whether [send] has been asked for: [send] is queued
    for the end of the run loop. *)
Record queues := {
  sendQueue : list methodCall;
  callbackQueue : list callbackEntry;
  queriesToFetch : gmap string string;
  typesToRefresh : gmap string (gmap string string);
  recordsToRefresh : gmap string (gmap string (gset string));
  typesToFetch : gmap string (gset string);
  recordsToFetch : gmap string (gmap string (gset string));
  sendAsked : bool;
}.

(** The state [init] leaves. *)
Definition init : queues :=
  {| sendQueue := []; callbackQueue := []; queriesToFetch := ∅;
     typesToRefresh := ∅; recordsToRefresh := ∅; typesToFetch := ∅;
     recordsToFetch := ∅; sendAsked := false |}.

Definition withQueues (sendQueue' : list methodCall)
    (callbackQueue' : list callbackEntry) (q : queues) : queues :=
  {| sendQueue := sendQueue'; callbackQueue := callbackQueue';
     queriesToFetch := queriesToFetch q; typesToRefresh := typesToRefresh q;
     recordsToRefresh := recordsToRefresh q; typesToFetch := typesToFetch q;
     recordsToFetch := recordsToFetch q; sendAsked := sendAsked q |}.

(** [this.send()] *)
Definition askSend (q : queues) : queues :=
  {| sendQueue := sendQueue q; callbackQueue := callbackQueue q;
     queriesToFetch := queriesToFetch q; typesToRefresh := typesToRefresh q;
     recordsToRefresh := recordsToRefresh q; typesToFetch := typesToFetch q;
     recordsToFetch := recordsToFetch q; sendAsked := true |}.

(** [callMethod( name, args, callback )] *)
Definition callMethod (name : string) (args : option (gmap string json))
    (callback : option nat) (q : queues) : queues :=
  let id := length (sendQueue q) in
  askSend
    (withQueues
       (sendQueue q ++
          [{| mc_name := name; mc_args := default ∅ args; mc_tag := pretty id |}])
       (match callback with
        | Some fn => callbackQueue q ++ [(Some id, fn)]
        | None => callbackQueue q
        end) q).

(** [getPreviousMethodId()] *)
Definition getPreviousMethodId (q : queues) : string :=
  pretty (Z.of_nat (length (sendQueue q)) - 1)%Z.

(** [addCallback( callback )] *)
Definition addCallback (callback : nat) (q : queues) : queues :=
  withQueues (sendQueue q) (callbackQueue q ++ [(None, callback)]) q.

(** An [ids] argument: an array of ids, or [null]. *)
Definition idsArgument (ids : option (list string)) : json :=
  match ids with
  | Some l => JArr (JStr <$> l)
  | None => JNull
  end.

(** [fetchType( typeId, accountId, ids )] *)
Definition fetchType (typeName : string) (account : option string)
    (ids : option (list string)) (q : queues) : queues :=
  callMethod (typeName +:+ "/get")
    (Some (object [("accountId", JStr <$> account);
                   ("ids", Some (idsArgument ids))])) None q.

(** A result reference [{ resultOf, name, path }]. *)
Definition resultReference (resultOf name path : string) : json :=
  JObj {[ "resultOf" := JStr resultOf; "name" := JStr name; "path" := JStr path ]}.

(** [refreshType( typeId, accountId, ids, state )] *)
Definition refreshType (typeName : string) (account : option string)
    (ids : option (list string)) (state : option string) (q : queues) : queues :=
  let get_ := typeName +:+ "/get" in
  match ids with
  | Some _ =>
      callMethod get_
        (Some (object [("accountId", JStr <$> account);
                       ("ids", Some (idsArgument ids))])) None q
  | None =>
      let changes_ := typeName +:+ "/changes" in
      let q1 :=
        callMethod changes_
          (Some (object [("accountId", JStr <$> account);
                         ("sinceState", JStr <$> state);
                         ("maxChanges", Some (JNum 100))])) None q in
      let methodId := getPreviousMethodId q1 in
      let q2 :=
        callMethod get_
          (Some (object [("accountId", JStr <$> account);
                         ("#ids", Some (resultReference methodId changes_ "/created"))]))
          None q1 in
      callMethod get_
        (Some (object [("accountId", JStr <$> account);
                       ("#ids", Some (resultReference methodId changes_ "/updated"))]))
        None q2
  end.

(** The arguments of a [/set] call as the object [makeSetRequest] returns. *)
Definition setArguments (request : setArgs) : gmap string json :=
  object [("accountId", Some (JStr (sa_accountId request)));
          ("create", JObj <$> sa_create request);
          ("update", (λ updates : gmap string (gmap string json),
                        JObj (JObj <$> updates)) <$> sa_update request);
          ("destroy", (λ ids : list string, JArr (JStr <$> ids)) <$>
                        sa_destroy request)].

(** [commitType( typeId, changes )]; [moveFromAccount] is the member of that
    name of [changes], visited in the order of [map_to_list].  [None] is the
    [TypeError] of [makeSetRequest]. *)
Definition commitType (typeName : string) (changes : change_t)
    (moveFromAccount : option (gmap string update_t)) (q : queues)
    : option queues :=
  setRequest ← makeSetRequest changes false;
  let q1 :=
    match setRequest with
    | Some request =>
        callMethod (typeName +:+ "/set") (Some (setArguments request)) None q
    | None => q
    end in
  match moveFromAccount with
  | Some moves =>
      foldl (λ (acc : option queues) (move : string * update_t),
          q ← acc;
          toCreate ← makeUpdate (primaryKey changes) move.2 true true;
          Some (callMethod (typeName +:+ "/copy")
                  (Some (object
                     [("fromAccountId", Some (JStr move.1));
                      ("accountId", Some (JStr (accountId changes)));
                      ("create", (λ updates : gmap string (gmap string json),
                                    JObj (JObj <$> updates)) <$> toCreate);
                      ("onSuccessDestroyOriginal", Some (JBool true))]))
                  None q))
        (Some q1) (map_to_list moves)
  | None => Some q1
  end.

(** ** connections.js: [hasInFlightChanges] *)

(** The test on one in-flight call: [method.slice( method.indexOf( '/' ) +
    1 )] is ['set'] or ['copy']. *)
Definition isChange (req : methodCall) : bool :=
  let method := mc_name req in
  let type := JS.slice_from method (JS.indexOf "/" method + 1) in
  bool_decide (type = "set") || bool_decide (type = "copy").

(** [source.hasInFlightChanges()]; [activeConnections] is that property of
    the upload queue. *)
Definition hasInFlightChanges (sources : list connection) (activeConnections : Z)
    : bool :=
  existsb (λ source,
      match inFlightRemoteCalls source with
      | Some calls => existsb isChange calls
      | None => false
      end) sources
  || negb (activeConnections =? 0)%Z.

(** ** Message.js: the fetchers of message threads *)

Module Message.

Definition headerProperties : list string :=
  [ "threadId"; "mailboxIds"; "keywords"; "hasAttachment"; "from"; "to";
    "subject"; "receivedAt"; "size"; "preview" ].

(** The [fetch] handler registered for [MessageThread]. *)
Definition MessageThread_fetch (account : option string)
    (ids : option (list string)) (q : queues) : queues :=
  let q1 :=
    callMethod "Email/get"
      (Some (object [("accountId", JStr <$> account);
                     ("ids", Some (idsArgument ids));
                     ("properties", Some (JArr [JStr "threadId"]))])) None q in
  let q2 :=
    callMethod "Thread/get"
      (Some (object [("accountId", JStr <$> account);
                     ("#ids", Some (resultReference (getPreviousMethodId q1)
                                      "Email/get" "/list/*/threadId"))]))
      None q1 in
  callMethod "Email/get"
    (Some (object [("accountId", JStr <$> account);
                   ("#ids", Some (resultReference (getPreviousMethodId q2)
                                    "Thread/get" "/list/*/emailIds"));
                   ("properties", Some (JArr (JStr <$> headerProperties)))]))
    None q2.

End Message.

(** ** Connection: pending fetches and [makeRequest] *)

(** A registered fetcher or refresher: the name of a JMAP type, or a
    function, which is given here by what it does to the queues when called
    with [( accountId, ids, state )]; [None] is an exception. *)
Inductive handler :=
  | Named (typeName : string)
  | Function (fn : option string → option (list string) → option string →
                   queues → option queues).

(** [recordFetchers], [recordRefreshers] and [queryFetchers], by type guid;
    a query fetcher is a function of the query, known by its id. *)
Record handlers := {
  recordFetchers : gmap string handler;
  recordRefreshers : gmap string handler;
  queryFetchers : gmap string (string → queues → option queues);
}.

(** Truthiness of [handlers[ typeId ]]. *)
Definition usable (h : option handler) : bool :=
  match h with
  | Some (Named typeName) => negb (bool_decide (typeName = ""))
  | Some (Function _) => true
  | None => false
  end.

Definition withQueriesToFetch (queries : gmap string string) (q : queues) : queues :=
  {| sendQueue := sendQueue q; callbackQueue := callbackQueue q;
     queriesToFetch := queries; typesToRefresh := typesToRefresh q;
     recordsToRefresh := recordsToRefresh q; typesToFetch := typesToFetch q;
     recordsToFetch := recordsToFetch q; sendAsked := sendAsked q |}.

Definition withTypesToRefresh (types : gmap string (gmap string string))
    (q : queues) : queues :=
  {| sendQueue := sendQueue q; callbackQueue := callbackQueue q;
     queriesToFetch := queriesToFetch q; typesToRefresh := types;
     recordsToRefresh := recordsToRefresh q; typesToFetch := typesToFetch q;
     recordsToFetch := recordsToFetch q; sendAsked := sendAsked q |}.

Definition withRecordsToRefresh (recs : gmap string (gmap string (gset string)))
    (q : queues) : queues :=
  {| sendQueue := sendQueue q; callbackQueue := callbackQueue q;
     queriesToFetch := queriesToFetch q; typesToRefresh := typesToRefresh q;
     recordsToRefresh := recs; typesToFetch := typesToFetch q;
     recordsToFetch := recordsToFetch q; sendAsked := sendAsked q |}.

Definition withTypesToFetch (types : gmap string (gset string)) (q : queues)
    : queues :=
  {| sendQueue := sendQueue q; callbackQueue := callbackQueue q;
     queriesToFetch := queriesToFetch q; typesToRefresh := typesToRefresh q;
     recordsToRefresh := recordsToRefresh q; typesToFetch := types;
     recordsToFetch := recordsToFetch q; sendAsked := sendAsked q |}.

Definition withRecordsToFetch (recs : gmap string (gmap string (gset string)))
    (q : queues) : queues :=
  {| sendQueue := sendQueue q; callbackQueue := callbackQueue q;
     queriesToFetch := queriesToFetch q; typesToRefresh := typesToRefresh q;
     recordsToRefresh := recordsToRefresh q; typesToFetch := typesToFetch q;
     recordsToFetch := recs; sendAsked := sendAsked q |}.

(** [account = reqs[ accountId ] || ( reqs[ accountId ] = {} ); set =
    account[ typeId ] || ( account[ typeId ] = {} ); while ( l-- ) { set[
    ids[l] ] = true; }], for an [account] and a [typeId] that are not names
    objects inherit, so that the two reads find own members or nothing.  An
    id [__proto__] adds no member to the set. *)
Definition addIds (account typeId : string) (ids : list string)
    (reqs : gmap string (gmap string (gset string)))
    : gmap string (gmap string (gset string)) :=
  let byType := default ∅ (reqs !! account) in
  let set := default ∅ (byType !! typeId) in
  <[account := <[typeId := set ∪ list_to_set (filter (.≠ "__proto__") ids)]>
                 byType]> reqs.

(** [_fetchRecords( accountId, Type, ids, callback, state, refresh )] with
    [typeId = guid( Type )]; [account] is the property name [accountId]
    turns into.  As in [addIds], [account] and [typeId] are not names that
    objects inherit. *)
Definition _fetchRecords (registry : handlers) (account typeId : string)
    (ids : option (list string)) (callback : option nat) (state : string)
    (refresh : bool) (q : queues) : queues * bool :=
  let handler :=
    if refresh then recordRefreshers registry !! typeId
    else recordFetchers registry !! typeId in
  let fallBack := refresh && negb (usable handler) in
  let refresh := refresh && usable handler in
  let handler := if fallBack then recordFetchers registry !! typeId else handler in
  if negb (usable handler) then (q, false)
  else
    let q1 :=
      match ids with
      | Some ids =>
          if refresh
          then withRecordsToRefresh
                 (addIds account typeId ids (recordsToRefresh q)) q
          else withRecordsToFetch
                 (addIds account typeId ids (recordsToFetch q)) q
      | None =>
          if refresh
          then withTypesToRefresh
                 (<[account := <[typeId := state]>
                                 (default ∅ (typesToRefresh q !! account))]>
                    (typesToRefresh q)) q
          else withTypesToFetch
                 (<[account := {[ typeId ]} ∪
                                 default ∅ (typesToFetch q !! account)]>
                    (typesToFetch q)) q
      end in
    let q2 :=
      match callback with
      | Some fn => withQueues (sendQueue q1) (callbackQueue q1 ++ [(None, fn)]) q1
      | None => q1
      end in
    (askSend q2, true).

(** [fetchRecord( accountId, Type, id, callback )] *)
Definition fetchRecord registry (account typeId id : string)
    (callback : option nat) : queues → queues * bool :=
  _fetchRecords registry account typeId (Some [id]) callback "" false.

(** [fetchAllRecords( accountId, Type, state, callback )] *)
Definition fetchAllRecords registry (account typeId : string)
    (state : option string) (callback : option nat) : queues → queues * bool :=
  _fetchRecords registry account typeId None callback (default "" state)
    (negb (bool_decide (default "" state = ""))).

(** [refreshRecord( accountId, Type, id, callback )] *)
Definition refreshRecord registry (account typeId id : string)
    (callback : option nat) : queues → queues * bool :=
  _fetchRecords registry account typeId (Some [id]) callback "" true.

(** [fetchQuery( query, callback )]; [guid] is [guid( query.constructor )]
    and [id] is [query.get( 'id' )]. *)
Definition fetchQuery (registry : handlers) (guid id : string)
    (callback : option nat) (q : queues) : queues * bool :=
  match queryFetchers registry !! guid with
  | None => (q, false)
  | Some _ =>
      let q1 := withQueriesToFetch (<[id := guid]> (queriesToFetch q)) q in
      let q2 :=
        match callback with
        | Some fn => withQueues (sendQueue q1) (callbackQueue q1 ++ [(None, fn)]) q1
        | None => q1
        end in
      (askSend q2, true)
  end.

(** [hasRequests()] *)
Definition hasRequests (conn : connection) (q : queues) : bool :=
  defined (inFlightRemoteCalls conn) || negb (bool_decide (sendQueue q = []))
  || negb (bool_decide (queriesToFetch q = ∅))
  || negb (bool_decide (recordsToFetch q = ∅))
  || negb (bool_decide (recordsToRefresh q = ∅)).

(** [for ( key in object ) { ... }] with a body that may throw; the members
    are visited in the order of [map_to_list]. *)
Definition forEach {A} (body : string → A → queues → option queues)
    (object : gmap string A) (q : option queues) : option queues :=
  foldl (λ acc member, q ← acc; body member.1 member.2 q) q (map_to_list object).

(** [if ( !accountId ) { accountId = undefined; }] *)
Definition accountOf (key : string) : option string :=
  if decide (key = "") then None else Some key.

(** [typeof handler === 'string' ? this.fetchType( handler, accountId, ids )
    : handler.call( this, accountId, ids )]; calling a missing handler
    throws. *)
Definition fetchWith (h : option handler) (account : option string)
    (ids : option (list string)) (q : queues) : option queues :=
  match h with
  | Some (Named typeName) => Some (fetchType typeName account ids q)
  | Some (Function fn) => fn account ids None q
  | None => None
  end.

(** [typeof handler === 'string' ? this.refreshType( handler, accountId,
    null, state ) : handler.call( this, accountId, null, state )] *)
Definition refreshWith (h : option handler) (account : option string)
    (state : string) (q : queues) : option queues :=
  match h with
  | Some (Named typeName) => Some (refreshType typeName account None (Some state) q)
  | Some (Function fn) => fn account None (Some state) q
  | None => None
  end.

(** The loops of [makeRequest].  Each pending map is read when its loop
    begins, after the handlers run so far may have added to it, and is
    replaced by an empty one first.  The members of a map and the ids of a
    set come in the order of [map_to_list] and of [elements], which stand in
    for the order of [for ( ... in ... )] and of [Object.keys]: the order in
    which the members were added, whole numbers first.  What is proved of
    the calls and of their ids is proved whatever that order. *)

(** [// Query Fetches] *)
Definition fetchQueries (registry : handlers) (q : queues) : option queues :=
  forEach (λ id guid q,
      match queryFetchers registry !! guid with
      | Some fn => fn id q
      | None => Some q
      end) (queriesToFetch q) (Some (withQueriesToFetch ∅ q)).

(** [// Record Refreshers], the loop over [_typesToRefresh] *)
Definition refreshTypes (registry : handlers) (q : queues) : option queues :=
  forEach (λ account byType q,
      forEach (λ typeId state q,
          refreshWith (recordRefreshers registry !! typeId)
            (accountOf account) state q) byType (Some q))
    (typesToRefresh q) (Some (withTypesToRefresh ∅ q)).

(** The loop over [_recordsToRefresh] *)
Definition refreshRecords (registry : handlers) (q : queues) : option queues :=
  forEach (λ account byType q,
      forEach (λ typeId (ids : gset string) q,
          fetchWith (recordRefreshers registry !! typeId)
            (accountOf account) (Some (elements ids)) q) byType (Some q))
    (recordsToRefresh q) (Some (withRecordsToRefresh ∅ q)).

(** [// Record fetches], the loop over [_typesToFetch] *)
Definition fetchTypes (registry : handlers) (q : queues) : option queues :=
  forEach (λ account (byType : gset string) q,
      foldl (λ acc typeId,
          q ← acc;
          fetchWith (recordFetchers registry !! typeId)
            (accountOf account) None q) (Some q) (elements byType))
    (typesToFetch q) (Some (withTypesToFetch ∅ q)).

(** The loop over [_recordsToFetch] *)
Definition fetchRecords (registry : handlers) (q : queues) : option queues :=
  forEach (λ account byType q,
      forEach (λ typeId (ids : gset string) q,
          fetchWith (recordFetchers registry !! typeId)
            (accountOf account) (Some (elements ids)) q) byType (Some q))
    (recordsToFetch q) (Some (withRecordsToFetch ∅ q)).

(** [makeRequest()]: the tuple it returns and the queues it leaves. *)
Definition makeRequest (registry : handlers) (q : queues)
    : option (list methodCall * list callbackEntry * queues) :=
  q ← fetchQueries registry q;
  q ← refreshTypes registry q;
  q ← refreshRecords registry q;
  q ← fetchTypes registry q;
  q ← fetchRecords registry q;
  Some (sendQueue q, callbackQueue q, withQueues [] [] q).

(** ** Connection: telling the store *)

(** A call on the store, with the arguments the Connection gives it (the
    record type, which is the same throughout one handler, is left out). *)
Inductive storeCall :=
  | SourceDidCommitCreate (created : gmap string json)
  | SourceDidNotCreate (storeKeys : list string) (isPermanent : bool)
      (errors : list json)
  | SourceDidCommitUpdate (storeKeys : list string)
  | SourceDidFetchPartialRecords (account : option string)
      (updates : gmap string json)
  | SourceDidNotUpdate (storeKeys : list string) (isPermanent : bool)
      (errors : list json)
  | SourceDidCommitDestroy (storeKeys : list string)
  | SourceDidNotDestroy (storeKeys : list string) (isPermanent : bool)
      (errors : option (list json))
  | SourceCommitDidChangeState (account : option string)
      (oldState : option string) (newState : string).

(** The members of the arguments of a [/set] or [/copy] response that
    [didCommit] and [didCopy] read, with the types JMAP gives them; [null]
    and [undefined] are [None]. *)
Record setResponse := {
  r_accountId : option string;
  r_fromAccountId : option string;
  created : option (gmap string json);
  notCreated : option (gmap string json);
  updated : option (gmap string json);
  notUpdated : option (gmap string json);
  destroyed : option (list string);
  notDestroyed : option (gmap string json);
  oldState : option string;
  newState : option string;
}.

(** [Object.keys( object )] and [Object.values( object )], in the order of
    [map_to_list], which stands in for the order in which the members were
    added. *)
Definition Object_keys {A} (object : gmap string A) : list string :=
  (map_to_list object).*1.
Definition Object_values {A} (object : gmap string A) : list A :=
  (map_to_list object).*2.

Section Store.

(** [store.getStoreKey( accountId, Type, id )] for the record type at hand. *)
Variable getStoreKey : option string → string → string.

(** [didCommit( Type, args )] *)
Definition didCommit (args : setResponse) : list storeCall :=
  let toStoreKey := getStoreKey (r_accountId args) in
  match created args with
  | Some object =>
      if bool_decide (Object_keys object = []) then []
      else [SourceDidCommitCreate object]
  | None => []
  end ++
  match notCreated args with
  | Some object =>
      match Object_keys object with
      | [] => []
      | list => [SourceDidNotCreate list true (Object_values object)]
      end
  | None => []
  end ++
  match updated args with
  | Some object =>
      match Object_keys object with
      | [] => []
      | list => [SourceDidCommitUpdate (toStoreKey <$> list);
                 SourceDidFetchPartialRecords (r_accountId args) object]
      end
  | None => []
  end ++
  match notUpdated args with
  | Some object =>
      match Object_keys object with
      | [] => []
      | list => [SourceDidNotUpdate (toStoreKey <$> list) true
                   (Object_values object)]
      end
  | None => []
  end ++
  match destroyed args with
  | Some [] | None => []
  | Some list => [SourceDidCommitDestroy (toStoreKey <$> list)]
  end ++
  match notDestroyed args with
  | Some object =>
      match Object_keys object with
      | [] => []
      | list => [SourceDidNotDestroy (toStoreKey <$> list) true
                   (Some (Object_values object))]
      end
  | None => []
  end ++
  match newState args with
  | Some state =>
      if bool_decide (state = "") then []
      else [SourceCommitDidChangeState (r_accountId args) (oldState args) state]
  | None => []
  end.

(** [keys.reduce( function ( object, key ) { object[ key ] = args; return
    object; }, {} )] *)
Definition allFailed (args : json) (keys : list string) : gmap string json :=
  foldl (λ object key, put key args object) ∅ keys.

(** The arguments [error_/set] makes up for the response handler of the
    request that failed with the error [args]. *)
Definition error_set_fakeArgs (args : json) (requestArgs : setArgs)
    : setResponse :=
  {| r_accountId := Some (sa_accountId requestArgs);
     r_fromAccountId := None;
     created := None;
     notCreated := (λ create : gmap string json,
                      allFailed args (Object_keys create)) <$> sa_create requestArgs;
     updated := None;
     notUpdated := (λ update : gmap string (gmap string json),
                      allFailed args (Object_keys update)) <$> sa_update requestArgs;
     destroyed := None;
     notDestroyed := allFailed args <$> sa_destroy requestArgs;
     oldState := None;
     newState := None |}.

(** [error_/set] on a Connection whose handler for [requestName] is the
    usual [function ( args ) { this.didCommit( Type, args ); }], as for
    [Email/set] and [CalendarEvent/set]; [handler] tells whether there is
    one. *)
Definition error_set (handler : bool) (args : json) (requestArgs : setArgs)
    : list storeCall :=
  if handler then didCommit (error_set_fakeArgs args requestArgs) else [].

End Store.

(** *** [error_/get] *)

(** The 32-bit integers of JavaScript's bit operators. *)
Definition toInt32 (n : Z) : Z := ((n + 2 ^ 31) mod 2 ^ 32 - 2 ^ 31)%Z.

(** [~a] and [a & b] *)
Definition bitNot (a : Z) : Z := toInt32 (Z.lnot (toInt32 a)).
Definition bitAnd (a b : Z) : Z := toInt32 (Z.land (toInt32 a) (toInt32 b)).

Section ErrorGet.

(** [O.Status.LOADING], and [store.getStoreKey( accountId, Type, id )] where
    [Type] is what [_typeIdToType] has for the type of the request, if
    anything. *)
Variable LOADING : Z.
Variable getStoreKey : option string → option string → string → string.

(** [error_/get]: the statuses of the store after the call, from those
    before; [ids] and [account] are [requestArgs.ids] and
    [requestArgs.accountId]. *)
Definition error_get (typeIdToType : gmap string string) (requestName : string)
    (ids : option (list string)) (account : option string)
    (status : string → Z) : string → Z :=
  match ids with
  | Some ids =>
      let typeId := JS.slice requestName 0 (JS.indexOf "/" requestName) in
      let type := typeIdToType !! typeId in
      foldl (λ (status : string → Z) id,
          let storeKey := getStoreKey account type id in
          let cleared := bitAnd (status storeKey) (bitNot LOADING) in
          λ key, if decide (key = storeKey) then cleared else status key)
        status ids
  | None => status
  end.

End ErrorGet.

(** ** Calendar event: occurrences and overrides *)

Module Occurrences.

(** A number of occurrences: a count, or [Number.MAX_VALUE]. *)
Inductive total :=
  | Finite (n : nat)
  | MAX_VALUE.

Section Overrides.

(** As for [allStartDates]: the expansion of a recurrence rule and the two
    date conversions are parameters. *)
Variable getOccurrences : Calendar.recurrenceRule → Z → list Z.
Variable toJSON : Z → string.
Variable fromJSON : string → Z.

(** [totalOccurrences] *)
Definition totalOccurrences (start : Z) (rule : option Calendar.recurrenceRule)
    (recurrenceOverrides : option (gmap string (gmap string json))) : total :=
  match rule, recurrenceOverrides with
  | None, None => Finite 1
  | _, _ =>
      let unbounded :=
        match rule with
        | Some r => negb (Calendar.hasCount r) &&
                    negb (bool_decide (is_Some (Calendar.until r)))
        | None => false
        end in
      if unbounded then MAX_VALUE
      else Finite (length (Calendar.allStartDates getOccurrences toJSON fromJSON
                             start rule recurrenceOverrides))
  end.

(** [removedDates]; the overrides are visited in the order of
    [map_to_list]. *)
Definition removedDates
    (recurrenceOverrides : option (gmap string (gmap string json)))
    : option (list Z) :=
  match recurrenceOverrides with
  | Some overrides =>
      let dates :=
        foldl (λ (dates : option (list Z)) (override : string * gmap string json),
            if Calendar.excluded override.2
            then Some (default [] dates ++ [fromJSON override.1])
            else dates)
          None (map_to_list overrides) in
      Array_sort Calendar.numerically <$> dates
  | None => None
  end.

(** [_updateRecurrenceOverrides( oldStart, newStart )]: the value it sets
    [recurrenceOverrides] to; [None] when it sets nothing. *)
Definition updateRecurrenceOverrides (oldStart newStart : Z)
    (recurrenceOverrides : option (gmap string (gmap string json)))
    : option (gmap string (gmap string json)) :=
  match recurrenceOverrides with
  | Some overrides =>
      let delta := (newStart - oldStart)%Z in
      Some (foldl (λ (newRecurrenceOverrides : gmap string (gmap string json))
                     (override : string * gmap string json),
                <[toJSON (fromJSON override.1 + delta) := override.2]>
                  newRecurrenceOverrides)
              ∅ (map_to_list overrides))
  | None => None
  end.

End Overrides.

End Occurrences.

(** ** Message: the body parts of a MIME structure *)

Module BodyParts.

(** A part of a body structure, with the members [parseStructure] reads and
    the one it writes: [type], [disposition], [name], [isInline] and
    [subParts]; [partId] tells parts apart.  [None] is [null] or a missing
    member. *)
#[warnings="-register-all"]
Inductive bodyPart :=
  BodyPart (partId : option string) (type : string)
    (disposition name : option string) (isInline : bool)
    (subParts : list bodyPart).

Definition partId (part : bodyPart) : option string :=
  let 'BodyPart partId _ _ _ _ _ := part in partId.
Definition type (part : bodyPart) : string :=
  let 'BodyPart _ type _ _ _ _ := part in type.
Definition disposition (part : bodyPart) : option string :=
  let 'BodyPart _ _ disposition _ _ _ := part in disposition.
Definition name (part : bodyPart) : option string :=
  let 'BodyPart _ _ _ name _ _ := part in name.
Definition isInline (part : bodyPart) : bool :=
  let 'BodyPart _ _ _ _ isInline _ := part in isInline.
Definition subParts (part : bodyPart) : list bodyPart :=
  let 'BodyPart _ _ _ _ _ subParts := part in subParts.

(** [part.isInline = true] *)
Definition setInline (part : bodyPart) : bodyPart :=
  let 'BodyPart partId type disposition name _ subParts := part in
  BodyPart partId type disposition name true subParts.

(** [type.split( '/' )[1]] *)
Definition secondPiece (type : string) : option string :=
  let slash := JS.indexOf "/" type in
  if (slash <? 0)%Z then None
  else
    let rest := JS.slice_from type (slash + 1) in
    let next := JS.indexOf "/" rest in
    Some (if (next <? 0)%Z then rest else JS.slice rest 0 next).

(** The three arrays [parseStructure] fills.  An entry of [fileParts] is
    [None] if [undefined] was pushed. *)
Record arrays := {
  htmlParts : list bodyPart;
  textParts : list bodyPart;
  fileParts : list (option bodyPart);
}.

(** The local variables [htmlParts] and [textParts] of a call: whether each
    still refers to its array, or is [null]. *)
Record locals := {
  hasHtml : bool;
  hasText : bool;
}.

Definition isText (part : bodyPart) : bool := String.prefix "text/" (type part).
Definition isMultipart (part : bodyPart) : bool :=
  negb (isText part) && String.prefix "multipart/" (type part).
Definition isImage (part : bodyPart) : bool :=
  negb (isText part) && negb (isMultipart part) &&
  String.prefix "image/" (type part).

(** [isInline] of the loop body, for the part at index [i]. *)
Definition inlineAt (i : nat) (multipartType : option string) (part : bodyPart)
    : bool :=
  (isText part || isImage part) &&
  negb (bool_decide (type part = "text/calendar")) &&
  negb (bool_decide (disposition part = Some "attachment")) &&
  (bool_decide (i = 0) ||
   (negb (bool_decide (multipartType = Some "related")) &&
    (isImage part ||
     negb (bool_decide (name part ≠ None ∧ name part ≠ Some ""))))).

(** The loop of [parseStructure] and what follows it, given what the loop
    body does with one part; [None] is a [TypeError].  A local that is
    [null] when the call begins is [null] when the loop ends, so the two
    lengths are there when the arrays are merged. *)
Definition parseParts
    (body : bodyPart → nat → option string → bool → option nat → option nat →
            locals * arrays → option (locals * arrays))
    (parts : list bodyPart) (multipartType : option string)
    (inAlternative : bool) (vars : locals) (lists : arrays) : option arrays :=
  let textLength := if hasText vars then Some (length (textParts lists)) else None in
  let htmlLength := if hasHtml vars then Some (length (htmlParts lists)) else None in
  '(_, (vars, lists)) ←
    foldl (λ acc part,
        '(i, state) ← acc;
        state ← body part i multipartType inAlternative textLength htmlLength state;
        Some (S i, state))
      (Some (0, (vars, lists))) parts;
  match
    if bool_decide (multipartType = Some "alternative") && hasText vars &&
       hasHtml vars
    then (textLength, htmlLength) else (None, None)
  with
  | (Some textLength, Some htmlLength) =>
    let lists :=
      if bool_decide (textLength = length (textParts lists)) &&
         negb (bool_decide (htmlLength = length (htmlParts lists)))
      then {| htmlParts := htmlParts lists;
              textParts := textParts lists ++ drop htmlLength (htmlParts lists);
              fileParts := fileParts lists |}
      else lists in
    let lists :=
      if bool_decide (htmlLength = length (htmlParts lists)) &&
         negb (bool_decide (textLength = length (textParts lists)))
      then {| htmlParts := htmlParts lists ++ drop textLength (textParts lists);
              textParts := textParts lists;
              fileParts := fileParts lists |}
      else lists in
    Some lists
  | _ => Some lists
  end.

(** The body of the loop of [parseStructure] for a part [parts[i]] that is
    not a container. *)
Definition leafStep (part : bodyPart) (i : nat) (multipartType : option string)
    (inAlternative : bool) (textLength : option nat) (vars : locals)
    (lists : arrays) : option (locals * arrays) :=
  if inlineAt i multipartType part then
    if bool_decide (multipartType = Some "alternative") then
      if bool_decide (type part = "text/html") then
        if hasHtml vars then
          Some (vars, {| htmlParts := htmlParts lists ++ [part];
                         textParts := textParts lists;
                         fileParts := fileParts lists |})
        else None
      else if isText part then
        if hasText vars then
          if bool_decide (Some (length (textParts lists)) = textLength) then
            Some (vars, {| htmlParts := htmlParts lists;
                           textParts := textParts lists ++ [part];
                           fileParts := fileParts lists |})
          else if bool_decide (type part = "text/plain") then
            Some (vars, {| htmlParts := htmlParts lists;
                           textParts := removelast (textParts lists) ++ [part];
                           fileParts := fileParts lists ++ [last (textParts lists)] |})
          else
            Some (vars, {| htmlParts := htmlParts lists;
                           textParts := textParts lists;
                           fileParts := fileParts lists ++ [Some part] |})
        else None
      else
        Some (vars, {| htmlParts := htmlParts lists;
                       textParts := textParts lists;
                       fileParts := fileParts lists ++ [Some part] |})
    else
      let vars :=
        if inAlternative && isText part then
          if bool_decide (type part = "text/html")
          then {| hasHtml := hasHtml vars; hasText := false |}
          else {| hasHtml := false; hasText := hasText vars |}
        else vars in
      let part := if isImage part then setInline part else part in
      Some (vars,
            {| htmlParts := if hasHtml vars then htmlParts lists ++ [part]
                            else htmlParts lists;
               textParts := if hasText vars then textParts lists ++ [part]
                            else textParts lists;
               fileParts := if isImage part then fileParts lists ++ [Some part]
                            else fileParts lists |})
  else
    Some (vars, {| htmlParts := htmlParts lists;
                   textParts := textParts lists;
                   fileParts := fileParts lists ++ [Some part] |}).

(** The body of the loop of [parseStructure] for [part = parts[i]]: a
    container is parsed in turn, with the locals as they are now. *)
Fixpoint parsePart (part : bodyPart) (i : nat) (multipartType : option string)
    (inAlternative : bool) (textLength htmlLength : option nat)
    (state : locals * arrays) {struct part} : option (locals * arrays) :=
  if isMultipart part then
    let subMultiType := secondPiece (type part) in
    lists ←
      match part with
      | BodyPart _ _ _ _ _ subParts =>
          parseParts parsePart subParts subMultiType
            (inAlternative || bool_decide (subMultiType = Some "alternative"))
            state.1 state.2
      end;
    Some (state.1, lists)
  else leafStep part i multipartType inAlternative textLength state.1 state.2.

(** [parseStructure( parts, multipartType, inAlternative, htmlParts,
    textParts, fileParts )] *)
Definition parseStructure (parts : list bodyPart) (multipartType : option string)
    (inAlternative : bool) (vars : locals) (lists : arrays) : option arrays :=
  parseParts parsePart parts multipartType inAlternative vars lists.

(** The [bodyParts] property of a message. *)
Definition bodyParts (bodyStructure : option bodyPart) : option arrays :=
  let empty := {| htmlParts := []; textParts := []; fileParts := [] |} in
  match bodyStructure with
  | Some structure =>
      parseStructure [structure] (Some "mixed") false
        {| hasHtml := true; hasText := true |} empty
  | None => Some empty
  end.

(** [hasHTMLBody] and [hasTextBody] *)
Definition hasHTMLBody (parts : arrays) : bool :=
  existsb (λ part, bool_decide (type part = "text/html")) (htmlParts parts).
Definition hasTextBody (parts : arrays) : bool :=
  existsb (λ part, String.prefix "text/" (type part) &&
                   negb (bool_decide (type part = "text/html")))
    (textParts parts).

End BodyParts.

(** ** Thread.js: what a thread tells of its messages *)

Module Thread.

(** What a thread reads of a mailbox and of a message: [flag name] tells
    whether the boolean property [name] of the message is set, and [size] is
    a whole number of bytes. *)
Record mailbox := { mb_id : string; role : option string }.

Record message := {
  mailboxes : list mailbox;
  size : Z;
  flag : string → bool;
}.

(** The boolean properties of a message that a thread aggregates. *)
Definition flagNames : list string :=
  [ "isUnread"; "isFlagged"; "isDraft"; "hasAttachment" ].

(** Whether [message.get( key )] is truthy: Message.js has the properties of
    [flagNames], and none by the names with [InTrash] that a thread also
    asks for, for which [get] answers [undefined]. *)
Definition message_get (m : message) (key : string) : bool :=
  bool_decide (key ∈ flagNames) && flag m key.

(** [message.isIn( role )] and the [isInTrash] property of Message.js *)
Definition isIn (wanted : string) (m : message) : bool :=
  existsb (λ mb, bool_decide (role mb = Some wanted)) (mailboxes m).

Definition isInTrash (m : message) : bool := isIn "trash" m.

Definition messagesNotInTrash (messages : list message) : list message :=
  List.filter (λ m, negb (isIn "trash" m)) messages.

Definition messagesInTrash (messages : list message) : list message :=
  List.filter (λ m, isIn "trash" m) messages.

(** [aggregateBoolean] and [aggregateBooleanInTrash]; a result that is
    [undefined] counts as [false].  [key] is the second argument of the
    getter. *)
Definition aggregateBoolean (key : string) (messages : list message) : bool :=
  foldl (λ isProperty m, isProperty || message_get m key) false
    (messagesNotInTrash messages).

Definition aggregateBooleanInTrash (key : string) (messages : list message)
    : bool :=
  foldl (λ isProperty m, isProperty || message_get m key) false
    (messagesInTrash messages).

(** [thread.get( name )] for the eight aggregates of the class: [isUnread:
    aggregateBoolean] to [hasAttachmentInTrash: aggregateBooleanInTrash].
    A getter is called with the name of the property it is read under for
    its [key]; [None] is any other property. *)
Definition aggregate (name : string) (messages : list message) : option bool :=
  if bool_decide (name ∈ flagNames)
  then Some (aggregateBoolean name messages)
  else if bool_decide (name ∈ (λ flag, flag +:+ "InTrash") <$> flagNames)
  then Some (aggregateBooleanInTrash name messages)
  else None.

Definition sumSize (total : Z) (m : message) : Z := (total + size m)%Z.

Definition total (messages : list message) : nat :=
  length (messagesNotInTrash messages).
Definition totalInTrash (messages : list message) : nat :=
  length (messagesInTrash messages).
(** The [size] of a thread, beside that of a message. *)
Definition size_ (messages : list message) : Z :=
  foldl sumSize 0%Z (messagesNotInTrash messages).
Definition sizeInTrash (messages : list message) : Z :=
  foldl sumSize 0%Z (messagesInTrash messages).

(** [mailboxCounts]: [counts[ id ] || 0] is [0] for a mailbox not counted
    yet, when its id is not a name that [counts], a plain object, inherits;
    such ids are outside the embedding. *)
Definition countMailbox (m : message) (counts : gmap string nat) (mb : mailbox)
    : gmap string nat :=
  let id := mb_id mb in
  if isInTrash m && negb (bool_decide (role mb = Some "trash"))
  then counts
  else <[id := default 0 (counts !! id) + 1]> counts.

Definition mailboxCounts (messages : list message) : gmap string nat :=
  foldl (λ counts m, foldl (countMailbox m) counts (mailboxes m)) ∅ messages.

End Thread.

(** * Properties *)

(** ** Path components *)

Section Escaping.

Lemma replace_pair_cons_ne c1 c2 by_ a r :
  a ≠ c1 →
  JS.replace_pair c1 c2 by_ (String a r) = String a (JS.replace_pair c1 c2 by_ r).
Proof.
  intros Hne. simpl. destruct r as [|b r'].
  - reflexivity.
  - destruct (Ascii.eqb_spec a c1) as [->|_]; [contradiction|]. reflexivity.
Qed.

Lemma replace_pair_cons_snd_ne c1 c2 by_ b r :
  b ≠ c2 →
  JS.replace_pair c1 c2 by_ (String c1 (String b r)) =
  String c1 (JS.replace_pair c1 c2 by_ (String b r)).
Proof.
  intros Hne. cbn [JS.replace_pair].
  destruct (Ascii.eqb_spec b c2) as [->|_]; [contradiction|].
  rewrite andb_false_r. reflexivity.
Qed.

(** The encoder, one character at a time. *)
Definition escape_char (a : ascii) : string :=
  if Ascii.eqb a "~" then "~0"
  else if Ascii.eqb a "/" then "~1"
  else String a EmptyString.

Lemma escape_cons a r : escape (String a r) = escape_char a +:+ escape r.
Proof.
  unfold escape, escape_char. cbn [JS.replace_char].
  destruct (Ascii.eqb_spec a "~") as [->|Ht]; [reflexivity|].
  cbn [JS.replace_char]. destruct (Ascii.eqb_spec a "/"); reflexivity.
Qed.

(** After the first decoding pass only the ['~' -> '~0'] substitution is
    left. *)
Lemma unescape_slash_pass k :
  JS.replace_pair "~" "1" "/" (escape k) = JS.replace_char "~" "~0" k.
Proof.
  induction k as [|a r IH]; [reflexivity|].
  rewrite escape_cons. unfold escape_char. cbn [JS.replace_char].
  destruct (Ascii.eqb_spec a "~") as [->|Ht].
  - change ("~0" +:+ escape r) with (String "~" (String "0" (escape r))).
    rewrite replace_pair_cons_snd_ne by discriminate.
    rewrite replace_pair_cons_ne by discriminate. by rewrite IH.
  - destruct (Ascii.eqb_spec a "/") as [->|Hs].
    + change ("~1" +:+ escape r) with (String "~" (String "1" (escape r))).
      cbn [JS.replace_pair Ascii.eqb Bool.eqb andb]. by rewrite IH.
    + change (String a "" +:+ escape r) with (String a (escape r)).
      rewrite replace_pair_cons_ne by done. by rewrite IH.
Qed.

Lemma unescape_tilde_pass k :
  JS.replace_pair "~" "0" "~" (JS.replace_char "~" "~0" k) = k.
Proof.
  induction k as [|a r IH]; [reflexivity|].
  cbn [JS.replace_char]. destruct (Ascii.eqb_spec a "~") as [->|Ht].
  - change ("~0" +:+ JS.replace_char "~" "~0" r)
      with (String "~" (String "0" (JS.replace_char "~" "~0" r))).
    cbn [JS.replace_pair Ascii.eqb Bool.eqb andb]. by rewrite IH.
  - rewrite replace_pair_cons_ne by done. by rewrite IH.
Qed.

Lemma unescape_escape k : unescape (escape k) = k.
Proof. unfold unescape. by rewrite unescape_slash_pass, unescape_tilde_pass. Qed.

Lemma escape_inj k1 k2 : escape k1 = escape k2 → k1 = k2.
Proof.
  intros H. rewrite <- (unescape_escape k1), <- (unescape_escape k2).
  by rewrite H.
Qed.

End Escaping.

(** C9. Patch path escaping round-trips: the encoder replaces ['~'] by
    ['~0'] and then ['/'] by ['~1'], the decoder replaces ['~1'] by ['/']
    and then ['~0'] by ['~'], and decoding the encoded component of any key
    gives the key back. *)
Theorem patch_path_escaping_round_trip (k : string) :
  escape k = JS.replace_char "/" "~1" (JS.replace_char "~" "~0" k) ∧
  (∀ s, unescape s = JS.replace_pair "~" "0" "~" (JS.replace_pair "~" "1" "/" s)) ∧
  unescape (escape k) = k.
Proof. split; [reflexivity|]. split; [reflexivity|]. apply unescape_escape. Qed.

(** ** Adaptive paging *)

(** C7. While more changes are reported, [maxChanges] goes 50, 100, 150 for
    messages and 30, 100, 120 for threads, each step ending in a refetch;
    a reply that still reports more changes at the ceiling calls the
    [cannotCalculateChanges] recovery and puts the schedule back to its
    initial value. *)
Theorem adaptive_paging_schedule :
  Mail.emailSchedule 3 Mail.initialMessageChangesMaxChanges =
    [ (100%Z, Some Mail.FetchMoreChanges);
      (150%Z, Some Mail.FetchMoreChanges);
      (Mail.initialMessageChangesMaxChanges,
       Some (Mail.CannotCalculateChanges
               "error_Email/changes_cannotCalculateChanges")) ] ∧
  Mail.threadSchedule 3 Mail.initialThreadPaging =
    [ (100%Z, Some Mail.StoreFetchAll);
      (120%Z, Some Mail.StoreFetchAll);
      (Mail.threadUpdateMaxChanges Mail.initialThreadPaging,
       Some (Mail.CannotCalculateChanges
               "error_getThreadUpdates_cannotCalculateChanges")) ] ∧
  (∀ hasUpdated,
     (Mail.Email_changes 150 hasUpdated true).1 =
       Mail.initialMessageChangesMaxChanges ∧
     last (Mail.Email_changes 150 hasUpdated true).2 =
       Some (Mail.CannotCalculateChanges
               "error_Email/changes_cannotCalculateChanges")) ∧
  (∀ fetchRecords keep,
     (Mail.threadUpdates
        {| Mail.threadUpdateFetchRecords := keep;
           Mail.threadUpdateMaxChanges := 120 |} fetchRecords true).1 =
       Mail.initialThreadPaging ∧
     last (Mail.threadUpdates
        {| Mail.threadUpdateFetchRecords := keep;
           Mail.threadUpdateMaxChanges := 120 |} fetchRecords true).2 =
       Some (Mail.CannotCalculateChanges
               "error_getThreadUpdates_cannotCalculateChanges")) ∧
  (∀ maxChanges hasUpdated,
     (Mail.Email_changes maxChanges hasUpdated false).1 =
       Mail.initialMessageChangesMaxChanges) ∧
  (∀ paging fetchRecords,
     (Mail.threadUpdates paging fetchRecords false).1 = Mail.initialThreadPaging).
Proof.
  split; [reflexivity|]. split; [reflexivity|].
  split; [by intros []|]. split; [by intros [] []|].
  split.
  - intros maxChanges hasUpdated. unfold Mail.Email_changes. done.
  - intros paging fetchRecords. unfold Mail.threadUpdates. done.
Qed.

(** ** Response dispatch: when a successful reply is retried *)

(** The reply of [ioDidSucceed] that hands the request to auth's retry
    scheduler and leaves the Connection as it was. *)
Definition retried (conn : connection) (result : connection * list event) : Prop :=
  result = (conn, [AuthConnectionFailed None]).

Lemma existsb_serverUnavailable (rs : list methodCall) :
  existsb serverUnavailable rs = true ↔
  ∃ r, r ∈ rs ∧ mc_name r = "error" ∧
       mc_args r !! "type" = Some (JStr "serverUnavailable").
Proof.
  rewrite existsb_exists. split.
  - intros (r & Hin & Hr). exists r. apply list_elem_of_In in Hin.
    unfold serverUnavailable in Hr. apply andb_true_iff in Hr as [H1 H2].
    apply bool_decide_eq_true in H1, H2. done.
  - intros (r & Hin & H1 & H2). exists r. split; [by apply list_elem_of_In|].
    unfold serverUnavailable. by rewrite !bool_decide_eq_true_2.
Qed.

Lemma ioDidSucceed_not_retried conn authState data :
  (willRetry conn &&
   match data ≫= methodResponses with
   | None => true
   | Some rs => existsb serverUnavailable rs
   end) = false →
  ∃ conn' evs,
    ioDidSucceed conn authState data = (conn', AuthConnectionSucceeded :: evs) ∧
    HandleResponses (default [] (data ≫= methodResponses))
      (inFlightRemoteCalls conn) ∈ evs.
Proof.
  intros Hc. unfold ioDidSucceed. rewrite andb_comm, Hc.
  set (rs := default [] (data ≫= methodResponses)).
  set (st := match data ≫= sessionState with
             | Some s => _ | None => _ end).
  destruct (processCallbacks _ _ _) as [cbs ok].
  destruct (inFlightContext conn) as [ctx|];
    [destruct (inFlightRemoteCalls conn) as [calls|];
      [destruct (_ <? _); [destruct data|]|]|];
    repeat match goal with |- context [if ok then _ else _] => destruct ok end;
    eexists _, _; (split; [reflexivity|]);
    rewrite ?elem_of_app, ?list_elem_of_singleton; auto.
Qed.

(** C2, as the code has it.  On a 2xx reply the request is handed to auth's
    retry scheduler exactly when [willRetry] is set and [methodResponses] is
    absent or at least one method response is an error of type
    [serverUnavailable]; in every other case the Connection reports success
    and dispatches the responses. *)
Theorem success_reply_retried_iff conn authState data :
  (retried conn (ioDidSucceed conn authState data) ↔
   willRetry conn = true ∧
   (data ≫= methodResponses = None ∨
    ∃ rs r, data ≫= methodResponses = Some rs ∧ r ∈ rs ∧
            mc_name r = "error" ∧
            mc_args r !! "type" = Some (JStr "serverUnavailable"))) ∧
  (retried conn (ioDidSucceed conn authState data) ∨
   ∃ conn' evs,
     ioDidSucceed conn authState data = (conn', AuthConnectionSucceeded :: evs) ∧
     HandleResponses (default [] (data ≫= methodResponses))
       (inFlightRemoteCalls conn) ∈ evs).
Proof.
  destruct (willRetry conn &&
            match data ≫= methodResponses with
            | None => true
            | Some rs => existsb serverUnavailable rs
            end) eqn:Hc.
  - assert (Hr : retried conn (ioDidSucceed conn authState data)).
    { unfold retried, ioDidSucceed. by rewrite andb_comm, Hc. }
    split; [|by left]. split; [intros _|done].
    apply andb_true_iff in Hc as [Hw Hs]. split; [done|].
    destruct (data ≫= methodResponses) as [rs|]; [right|by left].
    apply existsb_serverUnavailable in Hs as (r & ? & ? & ?). by exists rs, r.
  - destruct (ioDidSucceed_not_retried conn authState data Hc)
      as (conn' & evs & Heq & Hin).
    split; [|right; by exists conn', evs]. split.
    + unfold retried. rewrite Heq. intros [=].
    + intros [Hw Hs]. rewrite Hw in Hc. cbn in Hc.
      destruct Hs as [Hs|(rs & r & Hs & Hr)]; rewrite Hs in Hc; [done|].
      assert (existsb serverUnavailable rs = true) as Ht
        by (apply existsb_serverUnavailable; by exists r).
      congruence.
Qed.

(** C2, as the specification words it, fails: with [willRetry] set and a
    reply of one good response and one [serverUnavailable] error, not every
    response is [serverUnavailable], yet the request is retried and nothing
    is dispatched. *)
Lemma success_reply_every_counterexample :
  let ok := {| mc_name := "Email/get"; mc_args := ∅; mc_tag := "0" |} in
  let unavailable :=
    {| mc_name := "error";
       mc_args := {[ "type" := JStr "serverUnavailable" ]}; mc_tag := "1" |} in
  let conn := {| willRetry := true; inFlightRemoteCalls := Some [ok; ok];
                 inFlightCallbacks := Some []; inFlightContext := None |} in
  let data := {| methodResponses := Some [ok; unavailable];
                 sessionState := None; rd_createdIds := None |} in
  forallb serverUnavailable [ok; unavailable] = false ∧
  ioDidSucceed conn "s1" (Some data) = (conn, [AuthConnectionFailed None]).
Proof. vm_compute. done. Qed.

(** ** Failure classifier *)

(** Every tagged callback has its request: [callMethod] tags a callback with
    the index its call gets in the same queue. *)
Definition tagsInRange (callbacks : list callbackEntry) (calls : list methodCall)
    : Prop :=
  Forall (λ entry : callbackEntry,
      match entry.1 with Some n => n < length calls | None => True end)
    callbacks.








(** ** Method-level errors *)

(** C4, as the code has it.  [error_<Method>_<type>], when registered, is
    the only handler called.  Otherwise the first registered one of
    [error_<Method>] and [error_/<verb>] is called, and [error_<type>] is
    called as well when it is registered; with none of the four registered
    the error is logged as unhandled and nothing else happens. *)
Theorem error_dispatch (response : gset string) (type requestName : string) :
  let run := response_error response type requestName in
  let specific := error_method_type requestName type in
  let generic :=
    if decide (error_type type ∈ response)
    then [CallHandler (error_type type)] else [] in
  (specific ∈ response → run = [CallHandler specific]) ∧
  (specific ∉ response → error_method requestName ∈ response →
     run = CallHandler (error_method requestName) :: generic) ∧
  (specific ∉ response → error_method requestName ∉ response →
   error_verb requestName ∈ response →
     run = CallHandler (error_verb requestName) :: generic) ∧
  (specific ∉ response → error_method requestName ∉ response →
   error_verb requestName ∉ response → error_type type ∈ response →
     run = [CallHandler (error_type type)]) ∧
  (specific ∉ response → error_method requestName ∉ response →
   error_verb requestName ∉ response → error_type type ∉ response →
     run = [LogUnhandled type]).
Proof.
  unfold response_error. repeat apply conj; intros;
    repeat case_decide; try done.
Qed.

(** C4, as the specification words it, fails: an [accountNotFound] error
    answering [Email/get] on a Connection with its default handlers calls
    two handlers, [error_/get] and then [error_accountNotFound]. *)
Lemma error_dispatch_counterexample :
  response_error default_response "accountNotFound" "Email/get" =
    [CallHandler "error_/get"; CallHandler "error_accountNotFound"].
Proof. vm_compute. reflexivity. Qed.

(** ** Pagination *)

Lemma shrinkEnd_spec remoteCalls start end_ :
  end_ < length remoteCalls →
  ∃ e, shrinkEnd remoteCalls start end_ = Some e ∧
       e ≤ end_ ∧ (end_ ≤ start + 1 → e = end_) ∧ (start + 1 < end_ → start + 1 ≤ e) ∧
       (∀ j, e < j ≤ end_ →
          ∃ call, remoteCalls !! j = Some call ∧ hasResultReference call = true) ∧
       (∀ call, remoteCalls !! e = Some call → hasResultReference call = true →
          e ≤ start + 1).
Proof.
  induction end_ as [|end' IH]; intros Hlt.
  - exists 0. cbn. replace (start + 1 <? 0) with false
      by (symmetry; apply Nat.ltb_ge; lia).
    repeat split; try lia.
  - cbn [shrinkEnd]. destruct (start + 1 <? S end') eqn:Hgt.
    + apply Nat.ltb_lt in Hgt.
      destruct (lookup_lt_is_Some_2 remoteCalls (S end') Hlt) as [call Hcall].
      rewrite Hcall. cbn. destruct (hasResultReference call) eqn:Href.
      * destruct IH as (e & -> & Hle & Hsame & Hmin & Hskip & Hstop); [lia|].
        exists e. repeat split; try lia.
        -- intros j Hj. destruct (decide (j = S end')) as [->|]; [by exists call|].
           apply Hskip. lia.
        -- done.
      * exists (S end'). repeat split; try lia. intros call' Hcall'. congruence.
    + apply Nat.ltb_ge in Hgt. exists (S end'). repeat split; try lia.
Qed.

Lemma pageEnd_spec remoteCalls start maxCallsInRequest :
  0 < maxCallsInRequest → start < length remoteCalls →
  ∃ end_,
    pageEnd remoteCalls start maxCallsInRequest = Some end_ ∧
    start < end_ ≤ start + maxCallsInRequest ∧
    (start + maxCallsInRequest < length remoteCalls ∨ end_ = start + maxCallsInRequest) ∧
    (∀ j, end_ < j ≤ start + maxCallsInRequest →
       ∃ call, remoteCalls !! j = Some call ∧ hasResultReference call = true) ∧
    (∀ next, remoteCalls !! end_ = Some next → hasResultReference next = true →
       end_ = start + 1 ∧
       ∀ j, start < j ≤ start + maxCallsInRequest →
         ∃ call, remoteCalls !! j = Some call ∧ hasResultReference call = true).
Proof.
  intros Hmax Hstart. unfold pageEnd.
  destruct (start + maxCallsInRequest <? length remoteCalls) eqn:Hmore.
  - apply Nat.ltb_lt in Hmore.
    destruct (shrinkEnd_spec remoteCalls start _ Hmore)
      as (e & -> & Hle & Hsame & Hmin & Hskip & Hstop).
    exists e. split; [done|].
    assert (start < e) by (destruct (decide (start + 1 < start + maxCallsInRequest)); lia).
    split; [lia|]. split; [by left|]. split; [done|].
    intros next Hnext Href. assert (e = start + 1) as -> by (specialize (Hstop _ Hnext Href); lia).
    split; [done|]. intros j Hj.
    destruct (decide (j = start + 1)) as [->|]; [by exists next|]. apply Hskip. lia.
  - apply Nat.ltb_ge in Hmore. exists (start + maxCallsInRequest).
    split; [done|]. split; [lia|]. split; [by right|]. split; [intros; lia|].
    intros next Hnext. apply lookup_lt_Some in Hnext. lia.
Qed.

Lemma Array_slice_length {A} (l : list A) from to :
  length (Array_slice l from to) = (to `min` length l) - from.
Proof. unfold Array_slice. rewrite length_take, length_drop. lia. Qed.

Lemma Array_slice_next {A} (l : list A) from to :
  Array_slice l from to ++ drop (from + length (Array_slice l from to)) l =
  drop from l.
Proof.
  unfold Array_slice. rewrite <- drop_drop.
  generalize (drop from l) as d. generalize (to - from) as n. intros n d.
  rewrite length_take. destruct (decide (n ≤ length d)).
  - replace (n `min` length d) with n by lia. apply take_drop.
  - rewrite take_ge, drop_ge by lia. apply app_nil_r.
Qed.

(** The pages of a batch, taken one after the other with enough fuel, are
    the batch cut into pieces of one to [maxCallsInRequest] calls. *)
Lemma pagesFrom_covers remoteCalls maxCallsInRequest :
  0 < maxCallsInRequest →
  ∀ fuel start,
    start < length remoteCalls → length remoteCalls - start ≤ fuel →
    ∃ pages,
      pagesFrom fuel remoteCalls start maxCallsInRequest = Some pages ∧
      concat pages = drop start remoteCalls ∧
      Forall (λ page, 0 < length page ≤ maxCallsInRequest) pages.
Proof.
  intros Hmax. induction fuel as [|fuel IH]; intros start Hstart Hfuel; [lia|].
  cbn [pagesFrom].
  destruct (pageEnd_spec remoteCalls start maxCallsInRequest Hmax Hstart)
    as (end_ & -> & Hend & _). cbn [mbind option_bind].
  pose proof (Array_slice_length remoteCalls start end_) as Hlen.
  pose proof (Array_slice_next remoteCalls start end_) as Hnext.
  destruct (start + length (Array_slice remoteCalls start end_) <?
            length remoteCalls) eqn:Hmore.
  - apply Nat.ltb_lt in Hmore.
    destruct (IH (start + length (Array_slice remoteCalls start end_)))
      as (pages & -> & Hcat & Hall); [lia..|].
    eexists. split; [reflexivity|]. split.
    + cbn [concat]. by rewrite Hcat.
    + constructor; [lia|done].
  - apply Nat.ltb_ge in Hmore. eexists. split; [reflexivity|]. split.
    + cbn [concat]. rewrite app_nil_r. rewrite <- Hnext.
      rewrite (drop_ge remoteCalls) by lia. by rewrite app_nil_r.
    + repeat constructor; lia.
Qed.

(** The first request of a batch: a context is made when the batch is
    longer than [maxCallsInRequest], and the whole batch is sent otherwise. *)
Lemma sendPage_first remoteCalls maxCallsInRequest :
  sendPage remoteCalls None maxCallsInRequest =
  if maxCallsInRequest <? length remoteCalls
  then sendPage remoteCalls
         (Some {| createdIds := Some ∅; doneCount := 0; sentCount := 0 |})
         maxCallsInRequest
  else Some (None, remoteCalls, None).
Proof. unfold sendPage. by destruct (maxCallsInRequest <? length remoteCalls). Qed.

(** C3, as the code has it.  A page starts at [doneCount], holds at least
    one and at most [maxCallsInRequest] calls, and ends where the first
    [maxCallsInRequest] calls end unless that leaves calls over: then the
    end steps back over every call with a ['#'] argument, down to one call
    at the least.  So the call after the page has no result reference,
    except when the page was cut down to its single first call, which
    happens only if all the [maxCallsInRequest] calls after that one have a
    result reference. *)
Theorem page_keeps_references remoteCalls (ctx : context) maxCallsInRequest :
  0 < maxCallsInRequest → doneCount ctx < length remoteCalls →
  let start := doneCount ctx in
  ∃ end_,
    sendPage remoteCalls (Some ctx) maxCallsInRequest =
      Some (Some {| createdIds := createdIds ctx; doneCount := start;
                    sentCount := end_ `min` length remoteCalls - start |},
            Array_slice remoteCalls start end_, createdIds ctx) ∧
    start < end_ ≤ start + maxCallsInRequest ∧
    (start + maxCallsInRequest < length remoteCalls ∨ end_ = start + maxCallsInRequest) ∧
    (∀ j, end_ < j ≤ start + maxCallsInRequest →
       ∃ call, remoteCalls !! j = Some call ∧ hasResultReference call = true) ∧
    (∀ next, remoteCalls !! end_ = Some next → hasResultReference next = true →
       end_ = start + 1 ∧
       ∀ j, start < j ≤ start + maxCallsInRequest →
         ∃ call, remoteCalls !! j = Some call ∧ hasResultReference call = true).
Proof.
  intros Hmax Hstart start.
  destruct (pageEnd_spec remoteCalls start maxCallsInRequest Hmax Hstart)
    as (end_ & Hpage & Hrest).
  exists end_. split; [|exact Hrest].
  unfold sendPage. fold start. rewrite Hpage. cbn [mbind option_bind].
  by rewrite Array_slice_length.
Qed.

(** The three-call chain of the specification's scenario "back-reference
    chain". *)
Definition chain : list methodCall :=
  [ {| mc_name := "Email/get";
       mc_args := {[ "ids" := JArr [JStr "m7"];
                     "properties" := JArr [JStr "threadId"] ]};
       mc_tag := "0" |};
    {| mc_name := "Thread/get";
       mc_args := {[ "#ids" := JObj {[ "resultOf" := JStr "0";
                                       "name" := JStr "Email/get";
                                       "path" := JStr "/list/*/threadId" ]} ]};
       mc_tag := "1" |};
    {| mc_name := "Email/get";
       mc_args := {[ "#ids" := JObj {[ "resultOf" := JStr "1";
                                       "name" := JStr "Thread/get";
                                       "path" := JStr "/list/*/emailIds" ]} ]};
       mc_tag := "2" |} ].

Lemma page_keeps_references_witness :
  let ctx := {| createdIds := Some ∅; doneCount := 1; sentCount := 1 |} in
  ∃ end_,
    sendPage chain (Some ctx) 2 =
      Some (Some {| createdIds := Some ∅; doneCount := 1;
                    sentCount := end_ `min` length chain - 1 |},
            Array_slice chain 1 end_, Some ∅) ∧
    1 < end_ ≤ 1 + 2 ∧
    (1 + 2 < length chain ∨ end_ = 1 + 2) ∧
    (∀ j, end_ < j ≤ 1 + 2 →
       ∃ call, chain !! j = Some call ∧ hasResultReference call = true) ∧
    (∀ next, chain !! end_ = Some next → hasResultReference next = true →
       end_ = 1 + 1 ∧
       ∀ j, 1 < j ≤ 1 + 2 →
         ∃ call, chain !! j = Some call ∧ hasResultReference call = true).
Proof.
  intros ctx. apply (page_keeps_references chain ctx 2); [lia|cbn; lia].
Defined.

(** C3, as the specification words it, fails on that chain with
    [maxCallsInRequest = 2]: the first request carries the first call alone,
    and the second request begins with a call whose result reference points
    into the first. *)
Lemma page_keeps_references_counterexample :
  pagesFrom 3 chain 0 2 = Some [take 1 chain; drop 1 chain] ∧
  (hasResultReference <$> drop 1 chain) !! 0 = Some true ∧
  sendPage chain None 2 =
    Some (Some {| createdIds := Some ∅; doneCount := 0; sentCount := 1 |},
          take 1 chain, Some ∅).
Proof. vm_compute. done. Qed.

(** ** Sorting with a comparator *)

Section ArraySort.

Context {A : Type} (compare : A → A → Z).

(** [a] may stand before [b]. *)
Definition inOrder (a b : A) : Prop := (compare a b ≤ 0)%Z.

Hypothesis compare_total : ∀ a b, inOrder a b ∨ inOrder b a.
Hypothesis compare_trans : ∀ a b c, inOrder a b → inOrder b c → inOrder a c.

Lemma Array_insert_Permutation x l : Array_insert compare x l ≡ₚ x :: l.
Proof.
  induction l as [|y r IH]; [done|]. cbn.
  destruct (compare x y <=? 0)%Z; [done|]. rewrite IH. apply perm_swap.
Qed.

Lemma Array_sort_Permutation l : Array_sort compare l ≡ₚ l.
Proof.
  induction l as [|x l IH]; [done|]. cbn.
  rewrite Array_insert_Permutation. by f_equiv.
Qed.

Lemma Array_insert_StronglySorted x l :
  StronglySorted inOrder l → StronglySorted inOrder (Array_insert compare x l).
Proof.
  induction 1 as [|y r Hr IH Hy]; [repeat constructor|]. cbn.
  destruct (compare x y <=? 0)%Z eqn:Hxy.
  - apply Z.leb_le in Hxy. constructor; [by constructor|].
    constructor; [done|]. eapply Forall_impl; [exact Hy|].
    intros z Hz. by eapply compare_trans.
  - apply Z.leb_gt in Hxy. constructor; [done|].
    rewrite Array_insert_Permutation. constructor; [|done].
    destruct (compare_total y x) as [|Hc]; [done|]. unfold inOrder in Hc. lia.
Qed.

Lemma Array_sort_StronglySorted l : StronglySorted inOrder (Array_sort compare l).
Proof.
  induction l as [|x l IH]; [constructor|]. by apply Array_insert_StronglySorted.
Qed.

End ArraySort.

(** ** Commit order *)

Lemma StronglySorted_reverse {A} (R : relation A) (l : list A) :
  StronglySorted R l → StronglySorted (flip R) (reverse l).
Proof.
  induction 1 as [|x l Hl IH Hx]; [constructor|].
  rewrite reverse_cons. apply StronglySorted_app_2; [|done|repeat constructor].
  intros y z Hy ->%list_elem_of_singleton. rewrite elem_of_reverse in Hy.
  unfold flip. by eapply Forall_forall in Hx.
Qed.

(** The order [commitChanges] works in is ascending in [precedenceOf], which
    reads a missing precedence and a precedence of zero alike as [-1]; the
    callback joins the queue exactly when it is given and some type had a
    handler. *)
Lemma commitChanges_order precedence recordCommitters queue changes callback :
  ∃ order,
    order ≡ₚ changes ∧
    StronglySorted (λ a b : string * typeChange,
        (precedenceOf precedence (typeId a.2) ≤
         precedenceOf precedence (typeId b.2))%Z) order ∧
    (commitChanges (Some precedence) recordCommitters queue changes callback).1.1
      = commitCalls recordCommitters (reverse order) ∧
    (commitChanges (Some precedence) recordCommitters queue changes callback).1.2
      = match callback with
        | Some fn =>
            if (commitChanges (Some precedence) recordCommitters queue changes
                  callback).2
            then queue ++ [(None, fn)] else queue
        | None => queue
        end.
Proof.
  exists (reverse (Array_sort (byPrecedence precedence) changes)).
  split; [by rewrite reverse_Permutation, Array_sort_Permutation|].
  split; [|split; [by rewrite reverse_involutive|by destruct callback]].
  pose proof (Array_sort_StronglySorted (byPrecedence precedence)) as Hs.
  specialize (Hs ltac:(intros a b; unfold inOrder, byPrecedence; lia)
                 ltac:(intros a b c; unfold inOrder, byPrecedence; lia) changes).
  apply StronglySorted_reverse in Hs.
  eapply (StronglySorted_fmap id) in Hs; [by rewrite list_fmap_id in Hs|].
  intros a b. unfold flip, inOrder, byPrecedence, id. lia.
Qed.

(** Two change-sets, for a type [Mailbox] and a type [Quota], each with a
    commit handler. *)
Definition emptyChange (type : string) : typeChange :=
  {| typeId := type;
     change := {| accountId := "A1"; primaryKey := "id";
                  create := {| c_storeKeys := []; c_records := [] |};
                  update := {| storeKeys := []; records := []; changes := [];
                               committed := []; copyFromIds := [] |};
                  destroy := {| d_storeKeys := []; d_ids := [] |} |} |}.

Definition bothCommitters : gmap string committer :=
  {[ "Mailbox" := CommitWithType "Mailbox"; "Quota" := CommitWithType "Quota" ]}.

(** C10: where the code departs from it.  [Mailbox] has precedence 0 and
    [Quota] has the lower precedence -1, or none, which is to count as -1;
    [Quota] comes first among the keys of [changes].  [Mailbox] is committed
    first all the same: [precedence[ typeId ] || -1] reads the 0 as -1, the
    sort sees a tie and leaves the keys as they are, and the loop takes them
    from the last. *)
Theorem commitChanges_zero_precedence :
  let changes := [("Quota", emptyChange "Quota"); ("Mailbox", emptyChange "Mailbox")] in
  commitChanges (Some {[ "Mailbox" := 0%Z; "Quota" := (-1)%Z ]}) bothCommitters []
      changes (Some 7)
    = ([CommitType "Mailbox" "Mailbox"; CommitType "Quota" "Quota"],
       [(None, 7)], true) ∧
  commitChanges (Some {[ "Mailbox" := 0%Z ]}) bothCommitters [] changes (Some 7)
    = ([CommitType "Mailbox" "Mailbox"; CommitType "Quota" "Quota"],
       [(None, 7)], true) ∧
  commitChanges (Some {[ "Mailbox" := 1%Z ]}) bothCommitters [] changes (Some 7)
    = ([CommitType "Quota" "Quota"; CommitType "Mailbox" "Mailbox"],
       [(None, 7)], true).
Proof. vm_compute. done. Qed.

(** ** Start dates of a recurring event *)

Lemma elem_of_applyOverrides (overrides : gmap string (gmap string json))
    (set : gset string) (id : string) :
  id ∈ Calendar.applyOverrides overrides set ↔
  match overrides !! id with
  | Some patch => Calendar.excluded patch = false
  | None => id ∈ set
  end.
Proof.
  unfold Calendar.applyOverrides. revert id.
  apply (map_fold_weak_ind (λ (r : gset string) (m : gmap string (gmap string json)),
    ∀ id, id ∈ r ↔ match m !! id with
                   | Some patch => Calendar.excluded patch = false
                   | None => id ∈ set
                   end)).
  - intros id. by rewrite lookup_empty.
  - intros i patch m r Hi IH id.
    destruct (decide (i = id)) as [->|Hne].
    + rewrite lookup_insert_eq. destruct (Calendar.excluded patch).
      * rewrite elem_of_difference, elem_of_singleton. intuition congruence.
      * rewrite elem_of_union, elem_of_singleton. intuition congruence.
    + rewrite lookup_insert_ne by done. rewrite <- IH.
      destruct (Calendar.excluded patch).
      * rewrite elem_of_difference, elem_of_singleton. intuition congruence.
      * rewrite elem_of_union, elem_of_singleton. intuition congruence.
Qed.

Lemma Sorted_numerically (l : list Z) : Sorted Z.le (Array_sort Calendar.numerically l).
Proof.
  pose proof (Array_sort_StronglySorted Calendar.numerically) as Hs.
  specialize (Hs ltac:(intros a b; unfold inOrder, Calendar.numerically; lia)
                 ltac:(intros a b c; unfold inOrder, Calendar.numerically; lia) l).
  apply (StronglySorted_fmap id _ Z.le) in Hs.
  - rewrite list_fmap_id in Hs. by apply StronglySorted_Sorted.
  - intros a b. unfold inOrder, Calendar.numerically, id. lia.
Qed.


(** A rule expanded by a kernel that knows weekly rules with a count only,
    on dates counted in days, with decimal numerals for ids. *)
Definition weekly (rule : Calendar.recurrenceRule) (start : Z) : list Z :=
  (λ i : nat, (start + 7 * Z.of_nat i)%Z) <$>
    seq 0 (Z.to_nat (default 0%Z (Calendar.count rule))).

Definition dayOfNumeral (id : string) : Z :=
  Z.of_nat
    (foldl (λ acc digit, 10 * acc + default 0 (Ascii.is_nat digit)) 0
       (String.list_ascii_of_string id)).

Definition fourWeeks : Calendar.recurrenceRule :=
  {| Calendar.frequency := "weekly"; Calendar.until := None;
     Calendar.count := Some 4%Z |}.


Example allStartDates_four_weeks :
  Calendar.allStartDates weekly pretty dayOfNumeral 1 (Some fourWeeks)
    (Some {[ "8" := {[ "excluded" := JBool true ]};
             "23" := {[ "start" := JStr "23" ]} ]})
  = [1; 15; 22; 23]%Z.
Proof. vm_compute. reflexivity. Qed.




(** ** The patch round trip *)

(** *** Strings: searching and slicing around a separator *)

Section Strings.

Lemma append_cons a s t : String a s +:+ t = String a (s +:+ t).
Proof. reflexivity. Qed.

Lemma append_nil_l t : "" +:+ t = t.
Proof. reflexivity. Qed.

Lemma append_nil_r s : s +:+ "" = s.
Proof. induction s as [|a s IH]; [done|]. by rewrite append_cons, IH. Qed.

Lemma append_assoc s t u : (s +:+ t) +:+ u = s +:+ t +:+ u.
Proof. induction s as [|a s IH]; [done|]. by rewrite !append_cons, IH. Qed.

Lemma string_length_append s t :
  String.length (s +:+ t) = String.length s + String.length t.
Proof. induction s as [|a s IH]; [done|]. rewrite append_cons. cbn. by rewrite IH. Qed.

Lemma indexOf_bounds c s :
  JS.indexOf c s = (-1)%Z ∨ (0 ≤ JS.indexOf c s < Z.of_nat (String.length s))%Z.
Proof.
  induction s as [|a s IH]; [by left|]. cbn [JS.indexOf String.length].
  destruct (Ascii.eqb a c); [right; lia|].
  destruct IH as [->|IH]; [by left|]. right.
  destruct (Z.ltb_spec (JS.indexOf c s) 0); lia.
Qed.

Lemma indexOf_found c s t : JS.indexOf c (s +:+ String c t) ≠ (-1)%Z.
Proof.
  induction s as [|a s IH].
  - rewrite append_nil_l. cbn [JS.indexOf]. by rewrite Ascii.eqb_refl.
  - rewrite append_cons. cbn [JS.indexOf].
    destruct (Ascii.eqb a c); [done|].
    destruct (indexOf_bounds c (s +:+ String c t)) as [|?]; [done|].
    destruct (Z.ltb_spec (JS.indexOf c (s +:+ String c t)) 0); lia.
Qed.

(** A path below a base path is not the name [__proto__]. *)
Lemma below_not_proto path component : path +:+ "/" +:+ component ≠ "__proto__".
Proof.
  intros Heq. apply (indexOf_found "/" path component).
  change (String "/" component) with ("/" +:+ component). by rewrite Heq.
Qed.

(** No occurrence in [s]: the first occurrence in [s +:+ String c t] is right
    after [s]. *)
Lemma indexOf_append_separator c s t :
  JS.indexOf c s = (-1)%Z →
  JS.indexOf c (s +:+ String c t) = Z.of_nat (String.length s).
Proof.
  induction s as [|a s IH]; intros Hs.
  - rewrite append_nil_l. cbn [JS.indexOf String.length].
    by rewrite Ascii.eqb_refl.
  - rewrite append_cons. cbn [JS.indexOf String.length] in *.
    destruct (Ascii.eqb a c); [done|].
    destruct (Z.ltb_spec (JS.indexOf c s) 0) as [Hneg|]; [|lia].
    destruct (indexOf_bounds c s) as [Hi|]; [|lia].
    rewrite (IH Hi). destruct (Z.ltb_spec (Z.of_nat (String.length s)) 0); lia.
Qed.

Lemma string_take_append s t : JS.take (String.length s) (s +:+ t) = s.
Proof.
  induction s as [|a s IH]; [by destruct t|]. rewrite append_cons. cbn. by rewrite IH.
Qed.

Lemma string_drop_append s t : JS.drop (String.length s) (s +:+ t) = t.
Proof. induction s as [|a s IH]; [done|]. by rewrite append_cons. Qed.

Lemma string_length_drop n s : String.length (JS.drop n s) = String.length s - n.
Proof.
  revert s. induction n as [|n IH]; intros [|a s]; cbn; rewrite ?IH; lia.
Qed.

Lemma clamp_nat len n : JS.clamp len (Z.of_nat n) = n `min` len.
Proof.
  unfold JS.clamp. destruct (Z.ltb_spec (Z.of_nat n) 0); [lia|].
  by rewrite Nat2Z.id.
Qed.

Lemma slice_prefix s t :
  JS.slice (s +:+ t) 0 (Z.of_nat (String.length s)) = s.
Proof.
  unfold JS.slice. rewrite clamp_nat. change 0%Z with (Z.of_nat 0).
  rewrite clamp_nat, string_length_append. cbn [JS.drop Nat.min].
  replace (_ `min` _ - 0) with (String.length s) by lia. apply string_take_append.
Qed.

Lemma string_drop_separator c s t :
  JS.drop (S (String.length s)) (s +:+ String c t) = t.
Proof. induction s as [|a s IH]; [done|]. by rewrite append_cons. Qed.

Lemma slice_from_suffix c s t :
  JS.slice_from (s +:+ String c t) (Z.of_nat (String.length s) + 1) = t.
Proof.
  unfold JS.slice_from.
  replace (Z.of_nat (String.length s) + 1)%Z with (Z.of_nat (S (String.length s))) by lia.
  rewrite clamp_nat, string_length_append. cbn [String.length].
  replace (S (String.length s) `min` (String.length s + S (String.length t)))
    with (S (String.length s)) by lia.
  apply string_drop_separator.
Qed.

Lemma slice_from_shorter s i :
  (0 ≤ i < Z.of_nat (String.length s))%Z →
  String.length (JS.slice_from s (i + 1)) < String.length s.
Proof.
  intros Hi. unfold JS.slice_from. rewrite string_length_drop.
  replace (i + 1)%Z with (Z.of_nat (Z.to_nat (i + 1))) by lia.
  rewrite clamp_nat. lia.
Qed.

(** An encoded component has no separator. *)
Lemma indexOf_escape k : JS.indexOf "/" (escape k) = (-1)%Z.
Proof.
  induction k as [|a k IH]; [done|]. rewrite escape_cons. unfold escape_char.
  destruct (Ascii.eqb_spec a "~") as [->|Ht].
  - change ("~0" +:+ escape k) with (String "~" (String "0" (escape k))).
    cbn [JS.indexOf]. rewrite IH. done.
  - destruct (Ascii.eqb_spec a "/") as [->|Hs].
    + change ("~1" +:+ escape k) with (String "~" (String "1" (escape k))).
      cbn [JS.indexOf]. rewrite IH. done.
    + rewrite append_cons, append_nil_l. cbn [JS.indexOf].
      destruct (Ascii.eqb_spec a "/"); [done|]. by rewrite IH.
Qed.

End Strings.

(** *** [applyPatch] along a list of member names *)

(** The rest of a patch path after its first component: each further
    member name is encoded and follows a ['/']. *)
Fixpoint pointer (names : list string) : string :=
  match names with
  | [] => ""
  | name :: rest => "/" +:+ escape name +:+ pointer rest
  end.





Lemma applyPatch_terminates object path patch :
  applyPatch object path patch ≠ Failed OutOfFuel.
Proof.
  unfold applyPatch. generalize (Nat.lt_succ_diag_r (String.length path)).
  generalize (S (String.length path)) as fuel. intros fuel. revert object path.
  induction fuel as [|fuel IH]; intros object path Hfuel; [lia|].
  cbn [applyPatch_loop]. destruct (negb (truthy object)); [done|].
  destruct (Z.gtb_spec (JS.indexOf "/" path) (-1)) as [Hslash|].
  - destruct object as [| | | | |m]; try done.
    destruct (m !! _) as [child|]; [|done].
    destruct (indexOf_bounds "/" path) as [|Hi]; [lia|].
    pose proof (slice_from_shorter path _ Hi).
    specialize (IH child (JS.slice_from path (JS.indexOf "/" path + 1))
                  ltac:(lia)).
    by destruct (applyPatch_loop fuel child _ patch).
  - destruct object; try done; by destruct (is_null patch).
Qed.


(** *** Induction on JSON values through their members *)

Fixpoint jsize (v : json) : nat :=
  match v with
  | JObj m => S (map_fold (λ _ x acc, jsize x + acc) 0 m)
  | _ => 1
  end.

Lemma jsize_member m name v : m !! name = Some v → jsize v < jsize (JObj m).
Proof.
  intros Hv. cbn [jsize].
  rewrite (map_fold_delete_L _ _ name v m); [lia| |done].
  intros. lia.
Qed.

Lemma json_members_ind (P : json → Prop) :
  (∀ v, (∀ m, v ≠ JObj m) → P v) →
  (∀ m, map_Forall (λ _ v, P v) m → P (JObj m)) →
  ∀ v, P v.
Proof.
  intros Hleaf Hobj v.
  remember (jsize v) as n eqn:Hn. revert v Hn.
  induction n as [n IH] using lt_wf_ind. intros v ->.
  destruct v as [| | | | |m]; try (apply Hleaf; intros; discriminate).
  apply Hobj. intros name v Hv. eapply IH; [|reflexivity].
  by eapply jsize_member.
Qed.

(** *** The patches of [makePatches] as a list *)

(** An entry: the member names from the patched value down to the member
    the patch replaces, and the replacement. *)
Definition entry : Type := list string * json.

Definition under (name : string) (entries : list entry) : list entry :=
  prod_map (cons name) id <$> entries.

Definition leafDiff (original current : option json) : list entry :=
  if isEqual original current then [] else [([], default JNull current)].

(** [makePatchesJ] with the patch kept as a list of entries. *)
Fixpoint diffJ (original : option json) (current : json) {struct current}
    : list entry :=
  match current with
  | JObj mc =>
      match original with
      | Some o =>
          if truthy o then
            let d1 :=
              map_fold (λ key v acc, under key (diffJ (get o key) v) ++ acc)
                [] mc in
            foldl (λ acc key,
                if decide (is_Some (mc !! key)) then acc
                else under key (leafDiff (get o key) (Some JNull)) ++ acc)
              d1 (own_keys o)
          else leafDiff original (Some current)
      | None => leafDiff original (Some current)
      end
  | _ => leafDiff original (Some current)
  end.

(** The entries written into a patch object under the base path [path]. *)
Definition inserts (path : string) (entries : list entry)
    (patches : gmap string json) : gmap string json :=
  foldr (λ e acc, <[path +:+ pointer e.1 := e.2]> acc) patches entries.

Lemma inserts_app path l1 l2 patches :
  inserts path (l1 ++ l2) patches = inserts path l1 (inserts path l2 patches).
Proof. unfold inserts. by rewrite foldr_app. Qed.

Lemma inserts_under path name entries patches :
  inserts path (under name entries) patches =
  inserts (path +:+ "/" +:+ escape name) entries patches.
Proof.
  unfold inserts, under. induction entries as [|[names v] l IH]; [done|].
  cbn. rewrite IH. f_equal. cbn [pointer].
  by rewrite !append_assoc.
Qed.

Lemma put_insert {A} key (value : A) object :
  key ≠ "__proto__" → put key value object = <[key := value]> object.
Proof. intros Hkey. unfold put. by rewrite bool_decide_eq_false_2. Qed.

Lemma leafPatch_inserts path patches original current :
  path ≠ "__proto__" →
  (leafPatch path patches original current).1 =
  inserts path (leafDiff original current) patches.
Proof.
  intros Hpath.
  unfold leafPatch, leafDiff. destruct (isEqual original current); [done|].
  cbn. by rewrite append_nil_r, put_insert.
Qed.

Lemma deletions_inserts path patches (mc : gmap string json) o keys :
  ∀ (st : gmap string json * bool) (d : list entry),
    st.1 = inserts path d patches →
    (foldl (λ (st : gmap string json * bool) key,
        if decide (is_Some (mc !! key)) then st
        else
          let r := leafPatch (path +:+ "/" +:+ escape key) st.1
                     (get o key) (Some JNull) in
          (r.1, r.2 || st.2)) st keys).1 =
    inserts path
      (foldl (λ acc key,
          if decide (is_Some (mc !! key)) then acc
          else under key (leafDiff (get o key) (Some JNull)) ++ acc) d keys)
      patches.
Proof.
  induction keys as [|key keys IHk]; intros st d Hst; [done|].
  cbn [foldl]. apply IHk. destruct (decide (is_Some (mc !! key))); [done|].
  cbn [fst]. rewrite leafPatch_inserts by apply below_not_proto.
  rewrite inserts_app, inserts_under. by rewrite Hst.
Qed.

Lemma makePatchesJ_inserts current :
  ∀ path patches original,
    path ≠ "__proto__" →
    (makePatchesJ path patches original current).1 =
    inserts path (diffJ original current) patches.
Proof.
  induction current as [v Hv|mc IH] using json_members_ind;
    intros path patches original Hpath.
  { destruct v; try (by apply leafPatch_inserts). by destruct (Hv m). }
  cbn [makePatchesJ diffJ].
  destruct original as [o|]; [|by apply leafPatch_inserts].
  destruct (truthy o); [|by apply leafPatch_inserts].
  apply deletions_inserts. rewrite !map_fold_foldr.
  assert (Hin : ∀ kv, kv ∈ map_to_list mc → mc !! kv.1 = Some kv.2)
    by (intros [k v]; apply elem_of_map_to_list).
  induction (map_to_list mc) as [|[k v] l IHl]; [done|].
  cbn [foldr uncurry fst snd].
  rewrite IH with (i := k)
    by (first [apply (Hin (k, v)); left|apply below_not_proto]).
  rewrite inserts_app, inserts_under. f_equal. apply IHl.
  intros kv Hkv. apply Hin. by right.
Qed.

(** *** The entries of one member *)

(** The entries that go through the member [name], as entries of that
    member. *)
Definition inside (name : string) (entries : list entry) : list entry :=
  omap (λ e : entry,
      match e.1 with
      | first :: rest => if decide (first = name) then Some (rest, e.2) else None
      | [] => None
      end) entries.






Global Instance inside_Permutation name :
  Proper (Permutation ==> Permutation) (inside name).
Proof. apply omap_Permutation. Qed.








(** *** Where the round trip holds *)







(** *** Running the entries of a patch on a member *)






(** *** Distinct members have distinct paths *)

Lemma pointer_head names : pointer names = "" ∨ ∃ t, pointer names = String "/" t.
Proof. destruct names; [by left|right; by eexists]. Qed.

Lemma component_unique s1 t1 s2 t2 :
  JS.indexOf "/" s1 = (-1)%Z → JS.indexOf "/" s2 = (-1)%Z →
  (t1 = "" ∨ ∃ t, t1 = String "/" t) → (t2 = "" ∨ ∃ t, t2 = String "/" t) →
  s1 +:+ t1 = s2 +:+ t2 → s1 = s2 ∧ t1 = t2.
Proof.
  intros H1 H2 [->|[u1 ->]] [->|[u2 ->]] Heq.
  - by rewrite !append_nil_r in Heq.
  - rewrite append_nil_r in Heq. rewrite Heq in H1.
    rewrite indexOf_append_separator in H1 by done. lia.
  - rewrite append_nil_r in Heq. rewrite <- Heq in H2.
    rewrite indexOf_append_separator in H2 by done. lia.
  - assert (String.length s1 = String.length s2) as Hlen.
    { apply (f_equal (JS.indexOf "/")) in Heq.
      rewrite !indexOf_append_separator in Heq by done. lia. }
    assert (s1 = s2) as ->.
    { rewrite <- (string_take_append s1 (String "/" u1)), Heq, Hlen. apply string_take_append. }
    split; [done|]. by apply String.app_inj in Heq.
Qed.

Global Instance pointer_inj : Inj (=) (=) pointer.
Proof.
  intros names1. induction names1 as [|n1 r1 IH]; intros [|n2 r2] Heq; try done.
  cbn [pointer] in Heq.
  change ("/" +:+ escape n1 +:+ pointer r1)
    with (String "/" (escape n1 +:+ pointer r1)) in Heq.
  change ("/" +:+ escape n2 +:+ pointer r2)
    with (String "/" (escape n2 +:+ pointer r2)) in Heq.
  injection Heq as Heq.
  apply component_unique in Heq as [Hn Hr];
    [|apply indexOf_escape..|apply pointer_head|apply pointer_head].
  apply escape_inj in Hn as ->. by rewrite (IH _ Hr).
Qed.




(** *** The round trip *)



Lemma slice_from_1 c t : JS.slice_from (String c t) 1 = t.
Proof. reflexivity. Qed.







(** ** The updates of a set request *)

Lemma lookup_put_ne {A} key k (value : A) (object : gmap string A) :
  k ≠ key → put key value object !! k = object !! k.
Proof.
  intros Hne. unfold put. case_bool_decide; [done|]. by rewrite lookup_insert_ne.
Qed.

Lemma lookup_put_eq {A} key (value : A) (object : gmap string A) :
  key ≠ "__proto__" → put key value object !! key = Some value.
Proof. intros Hkey. rewrite put_insert by done. apply lookup_insert_eq. Qed.

Lemma put_empty {A} key (value : A) (object : gmap string A) :
  put key value object = ∅ ↔ object = ∅ ∧ key = "__proto__".
Proof.
  unfold put. case_bool_decide as Hkey.
  - split; [by intros ->|by intros [-> _]].
  - split; [intros Hempty; by apply insert_non_empty in Hempty|by intros [_ ?]].
Qed.




(** The attributes [makeUpdate] sends: those marked true in the change map,
    [accountId] excepted. *)
Definition sentWhole (change : list (string * bool)) (key : string) : Prop :=
  (key, true) ∈ change ∧ key ≠ "accountId".

Global Instance sentWhole_dec change key : Decision (sentWhole change key).
Proof. unfold sentWhole. apply _. Defined.


(** The key [makeUpdate] files the patches of the record at position [i]
    under. *)
Definition updateKey (primaryKey : string) (update : update_t) (isCopy : bool)
    (i : nat) (record : gmap string json) : string :=
  if isCopy then default "undefined" (storeKeys update !! i)
  else property_key (record !! primaryKey).

(** The patches [makeUpdate] makes for the record at position [i]; [None] is
    the [TypeError] of a missing committed copy. *)
Definition recordPatches (primaryKey : string) (update : update_t)
    (noPatch isCopy : bool) (i : nat) (record : gmap string json)
    : option (gmap string json) :=
  let change := default [] (changes update !! i) in
  let previous := if noPatch then None else committed update !! i in
  patches ← foldl (patchAttribute noPatch record previous) (Some ∅) change;
  Some (if isCopy
        then assign primaryKey (JStr <$> copyFromIds update !! i) patches
        else patches).

Lemma updateRecord_put primaryKey update noPatch isCopy i record updates :
  updateRecord primaryKey update noPatch isCopy i record updates =
  patches ← recordPatches primaryKey update noPatch isCopy i record;
  Some (put (updateKey primaryKey update isCopy i record) patches updates).
Proof.
  unfold updateRecord, recordPatches, updateKey.
  by destruct (foldl _ _ _).
Qed.

Lemma foldl_bind_None {A B} (f : B → A → option A) (l : list B) :
  foldl (λ acc x, acc ≫= f x) None l = None.
Proof. induction l as [|x l IH]; [done|]. apply IH. Qed.

(** The loop of [makeUpdate] over the records from position [from] on. *)
Lemma makeUpdate_loop primaryKey (update : update_t) noPatch isCopy
    (rs : list (gmap string json)) :
  ∀ from updates,
    (∀ j record, rs !! j = Some record →
       is_Some (recordPatches primaryKey update noPatch isCopy (from + j) record)) →
    ∃ updates',
      foldl (λ acc ir,
          acc ≫= updateRecord primaryKey update noPatch isCopy ir.1 ir.2)
        (Some updates) (imap (λ j, pair (from + j)) rs) = Some updates' ∧
      (∀ id, (∀ j record, rs !! j = Some record →
                updateKey primaryKey update isCopy (from + j) record ≠ id) →
         updates' !! id = updates !! id) ∧
      (∀ j record,
         rs !! j = Some record →
         updateKey primaryKey update isCopy (from + j) record ≠ "__proto__" →
         (∀ j' record', j < j' → rs !! j' = Some record' →
            updateKey primaryKey update isCopy (from + j') record' ≠
            updateKey primaryKey update isCopy (from + j) record) →
         ∃ patches,
           recordPatches primaryKey update noPatch isCopy (from + j) record =
             Some patches ∧
           updates' !! updateKey primaryKey update isCopy (from + j) record =
             Some patches).
Proof.
  induction rs as [|r rs IH]; intros from updates Hpatches.
  { exists updates. split; [done|]. split; [done|]. intros j record Hj. done. }
  cbn [imap foldl fst snd]. rewrite Nat.add_0_r. cbn [mbind option_bind].
  rewrite updateRecord_put.
  destruct (Hpatches 0 r eq_refl) as [patches Hr]. rewrite Nat.add_0_r in Hr.
  rewrite Hr. cbn [mbind option_bind].
  rewrite (imap_ext _ (λ j, pair (S from + j)) rs)
    by (intros; cbn; f_equal; lia).
  edestruct (IH (S from)) as (updates' & -> & Hother & Hthis).
  { intros j record Hj. replace (S from + j) with (from + S j) by lia.
    by apply (Hpatches (S j) record). }
  exists updates'. split; [done|]. split.
  - intros id Hid. rewrite Hother.
    + apply lookup_put_ne. specialize (Hid 0 r eq_refl).
      rewrite Nat.add_0_r in Hid. done.
    + intros j record Hj. replace (S from + j) with (from + S j) by lia.
      by apply Hid.
  - intros [|j] record Hj Hkey Hlater.
    + injection Hj as <-. exists patches. rewrite Nat.add_0_r in *.
      split; [done|]. rewrite Hother; [by apply lookup_put_eq|].
      intros j' record' Hj'. replace (S from + j') with (from + S j') by lia.
      apply (Hlater (S j') record'); [lia|done].
    + replace (from + S j) with (S from + j) in * by lia.
      apply Hthis; [done..|]. intros j' record' Hlt Hj'.
      specialize (Hlater (S j') record' ltac:(lia) Hj').
      by replace (from + S j') with (S from + j') in Hlater by lia.
Qed.

(** The loop leaves [updates] empty only if every record it met goes by the
    key [__proto__]. *)
Lemma makeUpdate_loop_empty primaryKey update noPatch isCopy
    (l : list (nat * gmap string json)) :
  ∀ updates updates',
    foldl (λ acc ir,
        acc ≫= updateRecord primaryKey update noPatch isCopy ir.1 ir.2)
      (Some updates) l = Some updates' →
    updates' = ∅ ↔
    updates = ∅ ∧
    ∀ ir, ir ∈ l → updateKey primaryKey update isCopy ir.1 ir.2 = "__proto__".
Proof.
  induction l as [|[i record] l IH]; intros updates updates' Hrun.
  { injection Hrun as <-. split; [|by intros [-> _]].
    intros ->. split; [done|]. by intros ir Hin%elem_of_nil. }
  cbn [foldl fst snd mbind option_bind] in Hrun.
  rewrite updateRecord_put in Hrun.
  destruct (recordPatches _ _ _ _ i record) as [patches|];
    [|by rewrite (foldl_bind_None (λ ir : nat * gmap string json,
         updateRecord primaryKey update noPatch isCopy ir.1 ir.2)) in Hrun].
  cbn [mbind option_bind] in Hrun. rewrite (IH _ _ Hrun), put_empty.
  split.
  - intros [[-> Hkey] Hrest]. split; [done|].
    intros ir [->|Hin]%elem_of_cons; [done|by apply Hrest].
  - intros [-> Hall]. split; [split; [done|]|].
    + apply (Hall (i, record)). left.
    + intros ir Hin. apply Hall. by right.
Qed.

Lemma elem_of_imap_pair {A} (l : list A) (ir : nat * A) :
  ir ∈ imap pair l ↔ l !! ir.1 = Some ir.2.
Proof.
  rewrite elem_of_lookup_imap. split.
  - by intros (i & x & -> & Hx).
  - intros Hx. exists ir.1, ir.2. by destruct ir.
Qed.

(** [makeUpdate] answers [undefined] exactly when it ran to its end and
    every record goes by the key [__proto__]. *)
Lemma makeUpdate_None primaryKey update noPatch isCopy :
  makeUpdate primaryKey update noPatch isCopy = Some None ↔
  is_Some (makeUpdate primaryKey update noPatch isCopy) ∧
  ∀ i record, records update !! i = Some record →
    updateKey primaryKey update isCopy i record = "__proto__".
Proof.
  unfold makeUpdate. destruct (foldl _ _ _) as [updates|] eqn:Hrun; cbn.
  - pose proof (makeUpdate_loop_empty _ _ _ _ _ _ _ Hrun) as Hempty.
    split.
    + case_decide as Hupdates; [|done]. intros _. split; [by eexists|].
      intros i record Hi. apply Hempty in Hupdates as [_ Hall].
      apply (Hall (i, record)). by apply elem_of_imap_pair.
    + intros [_ Hall]. rewrite decide_True; [done|]. apply Hempty.
      split; [done|]. intros [i record] Hin%elem_of_imap_pair. by apply Hall.
  - split; [done|]. by intros [[] _].
Qed.






Lemma isValidPatch_loop_fuel fuel1 fuel2 object path :
  String.length path < fuel1 → String.length path < fuel2 →
  CalendarEvent.isValidPatch_loop fuel1 object path =
  CalendarEvent.isValidPatch_loop fuel2 object path.
Proof.
  revert fuel2 object path.
  induction fuel1 as [|fuel1 IH]; intros [|fuel2] object path H1 H2; try lia.
  cbn [CalendarEvent.isValidPatch_loop]. destruct object as [o|]; [|done].
  destruct (negb (truthy o)); [done|]. cbn zeta.
  destruct (Z.eqb_spec (JS.indexOf "/" path) (-1)) as [|Hslash]; [done|].
  destruct (indexOf_bounds "/" path) as [|Hi]; [lia|].
  pose proof (slice_from_shorter path _ Hi). apply IH; lia.
Qed.

Lemma isValidPatch_terminates object path :
  is_Some (CalendarEvent.isValidPatch_loop (S (String.length path)) object path).
Proof.
  generalize (Nat.lt_succ_diag_r (String.length path)).
  generalize (S (String.length path)) as fuel. intros fuel. revert object path.
  induction fuel as [|fuel IH]; intros object path Hfuel; [lia|].
  cbn [CalendarEvent.isValidPatch_loop]. destruct object as [o|]; [|done].
  destruct (negb (truthy o)); [done|]. cbn zeta.
  destruct (Z.eqb_spec (JS.indexOf "/" path) (-1)) as [|Hslash]; [done|].
  destruct (indexOf_bounds "/" path) as [|Hi]; [lia|].
  pose proof (slice_from_shorter path _ Hi). apply IH; lia.
Qed.

Lemma isValidPatch_unfold object path :
  CalendarEvent.isValidPatch object path =
  match object with
  | Some o =>
      if negb (truthy o) then false
      else
        let slash := JS.indexOf "/" path in
        if (slash =? -1)%Z then true
        else CalendarEvent.isValidPatch (get o (unescape (JS.slice path 0 slash)))
               (JS.slice_from path (slash + 1))
  | None => false
  end.
Proof.
  unfold CalendarEvent.isValidPatch at 1. cbn [CalendarEvent.isValidPatch_loop].
  destruct object as [o|]; [|done].
  destruct (negb (truthy o)); [done|]. cbn zeta.
  destruct (Z.eqb_spec (JS.indexOf "/" path) (-1)) as [|Hslash]; [done|].
  destruct (indexOf_bounds "/" path) as [|Hi]; [lia|].
  pose proof (slice_from_shorter path _ Hi).
  unfold CalendarEvent.isValidPatch. f_equal. apply isValidPatch_loop_fuel; lia.
Qed.

Lemma invalid_patch_loop patch fuel :
  ∀ object path,
    String.length path < fuel →
    plainWalk_loop fuel object path = true →
    CalendarEvent.isValidPatch_loop fuel (Some object) path = Some false →
    applyPatch_loop fuel object path patch = Done object.
Proof.
  induction fuel as [|fuel IH]; intros object path Hfuel Hwalk Hvalid; [lia|].
  cbn [plainWalk_loop CalendarEvent.isValidPatch_loop applyPatch_loop] in *.
  destruct (negb (truthy object)); [done|]. cbn zeta in *.
  destruct (Z.eqb_spec (JS.indexOf "/" path) (-1)) as [|Hslash]; [done|].
  destruct (indexOf_bounds "/" path) as [|Hi]; [lia|].
  destruct (Z.gtb_spec (JS.indexOf "/" path) (-1)); [|lia].
  pose proof (slice_from_shorter path _ Hi) as Hshort.
  destruct object as [| | | | |m]; try done.
  apply andb_true_iff in Hwalk as [_ Hwalk]. cbn [get] in Hvalid.
  destruct (m !! _) as [child|] eqn:Hchild; [|done].
  cbn [from_option] in Hwalk.
  rewrite (IH child (JS.slice_from path (JS.indexOf "/" path + 1))
             ltac:(lia) Hwalk Hvalid).
  cbn. by rewrite insert_id.
Qed.

(** X1. A patch [isValidPatch] rejects changes nothing when [applyPatch]
    applies it, where the components of its path before the last are read
    from plain objects and are not names that objects inherit: [applyPatch]
    returns with the object as it was. *)
Theorem invalid_patch_changes_nothing (object : json) (path : string) (patch : json) :
  plainWalk object path = true →
  CalendarEvent.isValidPatch (Some object) path = false →
  applyPatch object path patch = Done object.
Proof.
  unfold plainWalk, CalendarEvent.isValidPatch, applyPatch. intros Hwalk Hvalid.
  apply invalid_patch_loop; [lia|done|].
  destruct (isValidPatch_terminates (Some object) path) as [valid Hrun].
  rewrite Hrun in Hvalid |- *. cbn in Hvalid. by subst.
Qed.

Lemma invalid_patch_changes_nothing_witness :
  applyPatch (JObj {[ "title" := JStr "Lunch"; "locations" := JNull ]})
    "locations/1/name" (JStr "Cafe") =
  Done (JObj {[ "title" := JStr "Lunch"; "locations" := JNull ]}).
Proof.
  apply (invalid_patch_changes_nothing
           (JObj {[ "title" := JStr "Lunch"; "locations" := JNull ]})
           "locations/1/name" (JStr "Cafe")).
  - vm_compute. reflexivity.
  - vm_compute. reflexivity.
Defined.

(** *** [_removeInvalidPatches] *)

Section RemoveInvalidPatches.

Local Arguments CalendarEvent.isValidPatch : simpl never.

Variable data : json.

Let valid (path : string) : bool := CalendarEvent.isValidPatch (Some data) path.


Let step (recurrenceId : string) (path : string) (_ : json)
    (st : bool * gmap string (gmap string json)) :=
  if valid path then st
  else (true, partial_alter (fmap (delete path)) recurrenceId st.2).





End RemoveInvalidPatches.


(** *** [makePatches] on equal values, and what [didPatch] tells *)

Lemma leafPatch_same path patches v : leafPatch path patches v v = (patches, false).
Proof. unfold leafPatch, isEqual. by rewrite bool_decide_eq_true_2. Qed.

Lemma makePatchesJ_same current :
  ∀ path patches, makePatchesJ path patches (Some current) current = (patches, false).
Proof.
  induction current as [v Hv|mc IH] using json_members_ind; intros path patches.
  { destruct v; try apply leafPatch_same. by destruct (Hv m). }
  cbn [makePatchesJ truthy].
  match goal with
  | |- foldl _ (map_fold ?G ?i ?m) _ = _ =>
      assert (map_fold G i m = (patches, false)) as ->
  end.
  { rewrite map_fold_foldr.
    assert (Hin : ∀ kv, kv ∈ map_to_list mc → mc !! kv.1 = Some kv.2)
      by (intros [k v]; apply elem_of_map_to_list).
    induction (map_to_list mc) as [|[k v] l IHl]; [done|].
    cbn [foldr uncurry fst snd]. rewrite IHl by (intros kv Hkv; apply Hin; by right).
    pose proof (Hin (k, v) ltac:(left)) as Hk. cbn [fst snd] in Hk.
    cbn [fst snd get]. rewrite Hk. cbn zeta.
    by rewrite (IH k v Hk). }
  cbn [own_keys].
  assert (Hin : ∀ k, k ∈ (map_to_list mc).*1 → is_Some (mc !! k)).
  { intros k ([k' v] & -> & Hkv)%list_elem_of_fmap.
    apply elem_of_map_to_list in Hkv. by exists v. }
  induction ((map_to_list mc).*1) as [|k l IHl]; [done|].
  cbn [foldl]. rewrite decide_True by (apply Hin; left).
  apply IHl. intros k' Hk'. apply Hin. by right.
Qed.

(** [didPatch] is false exactly when nothing was written. *)
Lemma leafPatch_didPatch path patches original current :
  (leafPatch path patches original current).2 =
  bool_decide (leafDiff original current ≠ []).
Proof. unfold leafPatch, leafDiff. by destruct (isEqual original current). Qed.

Lemma makePatchesJ_didPatch current :
  ∀ path patches original,
    (makePatchesJ path patches original current).2 =
    bool_decide (diffJ original current ≠ []).
Proof.
  induction current as [v Hv|mc IH] using json_members_ind;
    intros path patches original.
  { destruct v; try apply leafPatch_didPatch. by destruct (Hv m). }
  cbn [makePatchesJ diffJ].
  destruct original as [o|]; [|apply leafPatch_didPatch].
  destruct (truthy o); [|apply leafPatch_didPatch].
  assert (∀ keys (st : gmap string json * bool) (d : list entry),
    st.2 = bool_decide (d ≠ []) →
    (foldl (λ (st : gmap string json * bool) key,
        if decide (is_Some (mc !! key)) then st
        else
          let r := leafPatch (path +:+ "/" +:+ escape key) st.1
                     (get o key) (Some JNull) in
          (r.1, r.2 || st.2)) st keys).2 =
    bool_decide (foldl (λ acc key,
        if decide (is_Some (mc !! key)) then acc
        else under key (leafDiff (get o key) (Some JNull)) ++ acc) d keys ≠ []))
    as Hdel.
  { induction keys as [|key keys IHk]; intros st d Hst; [done|].
    cbn [foldl]. apply IHk. destruct (decide (is_Some (mc !! key))); [done|].
    cbn [snd]. rewrite leafPatch_didPatch, Hst.
    unfold leafDiff. by destruct (isEqual _ _). }
  apply Hdel. rewrite !map_fold_foldr.
  assert (Hin : ∀ kv, kv ∈ map_to_list mc → mc !! kv.1 = Some kv.2)
    by (intros [k v]; apply elem_of_map_to_list).
  induction (map_to_list mc) as [|[k v] l IHl]; [done|].
  cbn [foldr uncurry fst snd].
  rewrite IH with (i := k) by (apply (Hin (k, v)); left).
  rewrite IHl by (intros kv Hkv; apply Hin; by right).
  by destruct (diffJ (get o k) v) as [|e d].
Qed.

Lemma inserts_nonempty path entries :
  entries ≠ [] → inserts path entries ∅ ≠ ∅.
Proof.
  destruct entries as [|e l]; [done|]. intros _. cbn. apply insert_non_empty.
Qed.

(** X3. The diff of a value against itself is empty, and from an empty patch
    object [makePatches] returns [true] exactly when it wrote a patch, unless
    the path is [__proto__]: there [patches[ path ] = current] adds no member
    to [patches], and [makePatches] returns [true] with [patches] empty
    still. *)
Theorem makePatches_didPatch (path : string) (original current : option json) :
  makePatches path ∅ original original = (∅, false) ∧
  (path ≠ "__proto__" →
   ((makePatches path ∅ original current).2 = true ↔
    (makePatches path ∅ original current).1 ≠ ∅)) ∧
  makePatches "__proto__" ∅ (Some (JStr "a")) (Some (JStr "b")) = (∅, true).
Proof.
  split; [|split; [intros Hpath|by vm_compute]].
  - destruct original as [o|]; cbn [makePatches];
      [apply makePatchesJ_same|apply leafPatch_same].
  - destruct current as [c|]; cbn [makePatches].
    + rewrite makePatchesJ_didPatch, makePatchesJ_inserts by done.
      rewrite bool_decide_eq_true. split; [apply inserts_nonempty|].
      intros Hne Heq. by rewrite Heq in Hne.
    + rewrite leafPatch_didPatch, leafPatch_inserts by done.
      rewrite bool_decide_eq_true. split; [apply inserts_nonempty|].
      intros Hne Heq. by rewrite Heq in Hne.
Qed.

Lemma makePatches_didPatch_witness :
  (makePatches "subject" ∅ (Some (JStr "a")) (Some (JStr "b"))).2 = true ↔
  (makePatches "subject" ∅ (Some (JStr "a")) (Some (JStr "b"))).1 ≠ ∅.
Proof.
  apply (makePatches_didPatch "subject" (Some (JStr "a")) (Some (JStr "b"))).
  done.
Defined.

(** *** [makeUpdate] without patches, and the empty set request *)

(** X4. [makeSetRequest] answers [null] exactly when there is nothing to
    create, update or destroy, where every record to update has a string
    other than [__proto__] for its id. *)
Theorem makeSetRequest_null (request : change_t) (noPatch : bool) :
  (∀ record, record ∈ records (update request) →
     ∃ id, record !! primaryKey request = Some (JStr id) ∧ id ≠ "__proto__") →
  makeSetRequest request noPatch = Some None ↔
  c_storeKeys (create request) = [] ∧ records (update request) = [] ∧
  d_ids (destroy request) = [].
Proof.
  intros Hids. unfold makeSetRequest. split.
  - destruct (makeUpdate _ _ _ _) as [toUpdate|] eqn:Hupdate; [|done].
    cbn [mbind option_bind]. intros Hnull.
    destruct (c_storeKeys (create request)); [|done].
    destruct (d_ids (destroy request)); [|by destruct toUpdate].
    destruct toUpdate; [done|].
    apply makeUpdate_None in Hupdate as [_ Hall].
    destruct (records (update request)) as [|r rs] eqn:Hrecords; [done|].
    specialize (Hall 0 r eq_refl).
    destruct (Hids r ltac:(left)) as (id & Hid & Hproto).
    unfold updateKey in Hall. by rewrite Hid in Hall.
  - intros (-> & Hr & ->). unfold makeUpdate. by rewrite Hr.
Qed.

Lemma makeSetRequest_null_witness :
  makeSetRequest commit_m7 true = Some None ↔
  c_storeKeys (create commit_m7) = [] ∧ records (update commit_m7) = [] ∧
  d_ids (destroy commit_m7) = [].
Proof.
  apply (makeSetRequest_null commit_m7 true).
  intros record Hin. cbn in Hin. apply list_elem_of_singleton in Hin as ->.
  by exists "m7".
Defined.

Lemma lookup_assign key k value (patches : gmap string json) :
  assign key value patches !! k =
  if decide (k = key ∧ key ≠ "__proto__") then value else patches !! k.
Proof.
  unfold assign, put. destruct value as [v|]; case_bool_decide as Hkey.
  - rewrite decide_False; [done|]. by intros [_ ?].
  - destruct (decide (k = key)) as [->|Hne].
    + rewrite decide_True by done. apply lookup_insert_eq.
    + rewrite decide_False by (by intros [? _]). by rewrite lookup_insert_ne.
  - rewrite decide_False; [done|]. by intros [_ ?].
  - destruct (decide (k = key)) as [->|Hne].
    + rewrite decide_True by done. apply lookup_delete_eq.
    + rewrite decide_False by (by intros [? _]). by rewrite lookup_delete_ne.
Qed.

Lemma noPatch_attributes record previous change :
  ∀ acc, ∃ patches,
    foldl (patchAttribute true record previous) (Some acc) change = Some patches ∧
    ∀ key, patches !! key =
      if decide (key ≠ "__proto__" ∧ sentWhole change key)
      then record !! key else acc !! key.
Proof.
  induction change as [|[key changed] change IH]; intros acc.
  { exists acc. split; [done|]. intros key. rewrite decide_False; [done|].
    intros [_ [[]%elem_of_nil _]]. }
  cbn [foldl patchAttribute mbind option_bind].
  destruct (changed && negb (bool_decide (key = "accountId"))) eqn:Hc.
  - apply andb_true_iff in Hc as [-> Hkey]. apply negb_true_iff in Hkey.
    apply bool_decide_eq_false in Hkey.
    destruct (IH (assign key (record !! key) acc)) as (patches & -> & Hp).
    exists patches. split; [done|]. intros k. rewrite Hp, lookup_assign.
    destruct (decide (k ≠ "__proto__" ∧ sentWhole change k)) as [[Hk [Hin Hacc]]|Hno].
    + rewrite decide_True; [done|]. split; [done|]. split; [by right|done].
    + destruct (decide (k = key ∧ key ≠ "__proto__")) as [[-> Hproto]|Hne].
      * rewrite decide_True; [done|]. split; [done|]. split; [left|done].
      * rewrite decide_False; [done|]. intros [Hk [Hin Hacc]].
        apply elem_of_cons in Hin as [[= ->]|Hin]; [by apply Hne|].
        by apply Hno.
  - destruct (IH acc) as (patches & -> & Hp). exists patches. split; [done|].
    intros k. rewrite Hp.
    destruct (decide (k ≠ "__proto__" ∧ sentWhole change k)) as [[Hk [Hin Hacc]]|Hno].
    + rewrite decide_True; [done|]. split; [done|]. split; [by right|done].
    + rewrite decide_False; [done|]. intros [Hk [Hin Hacc]].
      apply elem_of_cons in Hin as [[= -> <-]|Hin]; [|by apply Hno].
      cbn in Hc. apply negb_false_iff, bool_decide_eq_true in Hc. done.
Qed.

(** What [makeUpdate] sends for the record at position [i] when [noPatch]
    is set; no member is sent under the name [__proto__]. *)
Definition wholeAttributes (primaryKey : string) (update : update_t)
    (isCopy : bool) (i : nat) (record patches : gmap string json) : Prop :=
  ∀ key, patches !! key =
    if decide (key = "__proto__") then None
    else if decide (isCopy = true ∧ key = primaryKey)
    then JStr <$> copyFromIds update !! i
    else if decide (sentWhole (default [] (changes update !! i)) key)
         then record !! key else None.

Lemma recordPatches_noPatch primaryKey update isCopy i record :
  ∃ patches,
    recordPatches primaryKey update true isCopy i record = Some patches ∧
    wholeAttributes primaryKey update isCopy i record patches.
Proof.
  unfold recordPatches.
  destruct (noPatch_attributes record None (default [] (changes update !! i)) ∅)
    as (patches & -> & Hp). cbn [mbind option_bind].
  eexists. split; [reflexivity|]. intros key.
  assert (patches !! key =
    if decide (key = "__proto__") then None
    else if decide (sentWhole (default [] (changes update !! i)) key)
         then record !! key else None) as Hkey.
  { rewrite Hp. destruct (decide (key = "__proto__")) as [->|Hproto].
    - rewrite decide_False; [done|]. by intros [? _].
    - destruct (decide (sentWhole _ key)).
      + by rewrite decide_True.
      + rewrite decide_False; [done|]. by intros [_ ?]. }
  destruct isCopy.
  - rewrite lookup_assign. destruct (decide (key = "__proto__")) as [->|Hproto].
    + rewrite decide_False by (by intros [<- ?]). by rewrite Hkey.
    + destruct (decide (key = primaryKey)) as [->|Hne].
      * rewrite (decide_True (P := primaryKey = primaryKey ∧ _)) by done.
        rewrite decide_True; done.
      * rewrite (decide_False (P := key = primaryKey ∧ _)) by (by intros [? ?]).
        rewrite (decide_False (P := true = true ∧ _)) by (by intros [? ?]).
        by rewrite Hkey.
  - rewrite Hkey. destruct (decide (key = "__proto__")); [done|].
    rewrite (decide_False (P := false = true ∧ _)); [done|]. by intros [? _].
Qed.

(** X5. With [noPatch] set, [makeUpdate] reads no committed copy and so
    always returns, where the id of every record is a string (or [isCopy]
    is set, and its store key is used).  It answers [undefined] exactly when
    every record goes by the key [__proto__], under which nothing is filed,
    as is the case when there is no record; and it files under the key of a
    record, when that is not [__proto__] and not the key of a later record,
    the whole value of every attribute marked as changed, [accountId]
    excepted, with the primary key set to the id copied from when [isCopy]
    is set. *)
Theorem makeUpdate_noPatch (primaryKey : string) (update : update_t)
    (isCopy : bool) :
  (isCopy = false →
   ∀ i record, records update !! i = Some record →
     ∃ id, record !! primaryKey = Some (JStr id)) →
  ∃ updates,
    makeUpdate primaryKey update true isCopy = Some updates ∧
    (updates = None ↔
     ∀ i record, records update !! i = Some record →
       updateKey primaryKey update isCopy i record = "__proto__") ∧
    ∀ i record,
      records update !! i = Some record →
      updateKey primaryKey update isCopy i record ≠ "__proto__" →
      (∀ j record', i < j → records update !! j = Some record' →
         updateKey primaryKey update isCopy j record' ≠
         updateKey primaryKey update isCopy i record) →
      ∃ all patches,
        updates = Some all ∧
        all !! updateKey primaryKey update isCopy i record = Some patches ∧
        wholeAttributes primaryKey update isCopy i record patches.
Proof.
  intros _.
  destruct (makeUpdate_loop primaryKey update true isCopy (records update) 0 ∅)
    as (all & Hrun & _ & Hthis).
  { intros j record _.
    destruct (recordPatches_noPatch primaryKey update isCopy (0 + j) record)
      as (patches & -> & _). by eexists. }
  assert (makeUpdate primaryKey update true isCopy =
          Some (if decide (all = ∅) then None else Some all)) as Hupdate.
  { unfold makeUpdate.
    change (imap pair (records update))
      with (imap (λ j, pair (0 + j)) (records update)).
    by rewrite Hrun. }
  eexists. split; [exact Hupdate|]. split.
  - pose proof (makeUpdate_None primaryKey update true isCopy) as Hnone.
    rewrite Hupdate in Hnone. split.
    + intros Hempty. apply Hnone. by rewrite Hempty.
    + intros Hall. destruct Hnone as [_ Hnone].
      by injection (Hnone (conj (mk_is_Some _ _ eq_refl) Hall)).
  - intros i record Hi Hproto Hlater.
    destruct (Hthis i record Hi Hproto Hlater) as (patches & Hpatches & Hlookup).
    cbn [Nat.add] in Hpatches, Hlookup. exists all, patches.
    split; [|split; [done|]].
    + rewrite decide_False; [done|]. intros ->. by rewrite lookup_empty in Hlookup.
    + destruct (recordPatches_noPatch primaryKey update isCopy i record)
        as (patches' & Hpatches' & Hwhole).
      rewrite Hpatches in Hpatches'. by injection Hpatches' as <-.
Qed.

Lemma makeUpdate_noPatch_witness :
  ∃ updates,
    makeUpdate "id" (update commit_m7) true false = Some updates ∧
    (updates = None ↔
     ∀ i record, records (update commit_m7) !! i = Some record →
       updateKey "id" (update commit_m7) false i record = "__proto__") ∧
    ∀ i record,
      records (update commit_m7) !! i = Some record →
      updateKey "id" (update commit_m7) false i record ≠ "__proto__" →
      (∀ j record', i < j → records (update commit_m7) !! j = Some record' →
         updateKey "id" (update commit_m7) false j record' ≠
         updateKey "id" (update commit_m7) false i record) →
      ∃ all patches,
        updates = Some all ∧
        all !! updateKey "id" (update commit_m7) false i record = Some patches ∧
        wholeAttributes "id" (update commit_m7) false i record patches.
Proof.
  apply (makeUpdate_noPatch "id" (update commit_m7) false).
  intros _ [|[|i]] record Hi; [|done..]. injection Hi as <-. by exists "m7".
Defined.

(** ** Tags, callbacks and result references *)

Lemma pretty_Z_nat (n : nat) : pretty (Z.of_nat n) = pretty n.
Proof. destruct n; reflexivity. Qed.

(** Every call in the queue is tagged with its position. *)
Definition wellTagged (calls : list methodCall) : Prop :=
  ∀ i call, calls !! i = Some call → mc_tag call = pretty i.

(** What the queues of a Connection satisfy between two requests. *)
Definition consistent (q : queues) : Prop :=
  wellTagged (sendQueue q) ∧ tagsInRange (callbackQueue q) (sendQueue q).

Lemma wellTagged_snoc calls name args :
  wellTagged calls →
  wellTagged (calls ++ [{| mc_name := name; mc_args := args;
                           mc_tag := pretty (length calls) |}]).
Proof.
  intros Htag i call Hi. apply lookup_app_Some in Hi as [Hi|[Hge Hi]].
  - by apply Htag.
  - apply list_lookup_singleton_Some in Hi as [Hi <-]. cbn. f_equal. lia.
Qed.

Lemma tagsInRange_app callbacks calls more :
  tagsInRange callbacks calls → tagsInRange callbacks (calls ++ more).
Proof.
  unfold tagsInRange. intros H. eapply Forall_impl; [exact H|].
  intros [[n|] fn]; cbn; [|done]. rewrite length_app. lia.
Qed.

Lemma consistent_callMethod name args callback q :
  consistent q → consistent (callMethod name args callback q).
Proof.
  intros [Htag Hrange]. split; cbn.
  - by apply wellTagged_snoc.
  - destruct callback as [fn|]; [|by apply tagsInRange_app].
    apply Forall_app. split; [by apply tagsInRange_app|].
    repeat constructor. cbn. rewrite length_app. cbn. lia.
Qed.

Lemma queueCallbacks_app callbacks1 callbacks2 responses calls :
  (queueCallbacks callbacks1 responses calls).2 = true →
  queueCallbacks (callbacks1 ++ callbacks2) responses calls =
  ((queueCallbacks callbacks1 responses calls).1 ++
   (queueCallbacks callbacks2 responses calls).1,
   (queueCallbacks callbacks2 responses calls).2).
Proof.
  induction callbacks1 as [|[id fn] l IH]; cbn [app queueCallbacks].
  { intros _. by destruct (queueCallbacks callbacks2 responses calls). }
  destruct id as [n|].
  - destruct (calls ≫= _) as [request|]; [|done].
    destruct (queueCallbacks l responses calls) as [evs ok] eqn:Hl.
    cbn [snd]. intros ->. rewrite IH by done. cbn [fst snd].
    by destruct (queueCallbacks callbacks2 responses calls).
  - destruct (queueCallbacks l responses calls) as [evs ok] eqn:Hl.
    cbn [snd]. intros ->. rewrite IH by done. cbn [fst snd].
    by destruct (queueCallbacks callbacks2 responses calls).
Qed.

Lemma queueCallbacks_more callbacks responses calls more :
  tagsInRange callbacks calls →
  queueCallbacks callbacks responses (Some (calls ++ more)) =
  queueCallbacks callbacks responses (Some calls) ∧
  (queueCallbacks callbacks responses (Some calls)).2 = true.
Proof.
  induction 1 as [|[id fn] l Hid _ [IH1 IH2]]; [done|].
  cbn [queueCallbacks]. rewrite IH1. destruct id as [n|].
  - cbn in Hid. cbn [mbind option_bind].
    rewrite lookup_app_l by done.
    destruct (lookup_lt_is_Some_2 calls n Hid) as [request ->].
    by destruct (queueCallbacks l responses (Some calls)).
  - by destruct (queueCallbacks l responses (Some calls)).
Qed.

(** X6. [callMethod] tags the call with its position in the queue and the
    callback with the same number, so that [processCallbacks] hands the
    callback the response with that tag and the arguments of that very
    call, after the callbacks queued before; it does so without throwing. *)
Theorem callMethod_binds_callback (name : string)
    (args : option (gmap string json)) (callback : nat) (q : queues)
    (responses : list methodCall) :
  consistent q →
  let q' := callMethod name args (Some callback) q in
  let response :=
    default NO_RESPONSE
      (find (λ call, bool_decide (mc_tag call = pretty (length (sendQueue q))))
         responses) in
  consistent q' ∧
  processCallbacks (Some (callbackQueue q')) responses (Some (sendQueue q')) =
    ((processCallbacks (Some (callbackQueue q)) responses (Some (sendQueue q))).1 ++
     [QueueMiddle callback
        (Some (mc_args response, mc_name response, default ∅ args))],
     true).
Proof.
  intros Hq q' response. split; [by apply consistent_callMethod|].
  destruct Hq as [Htag Hrange]. cbn [processCallbacks q' callMethod askSend
    withQueues sendQueue callbackQueue].
  destruct (queueCallbacks_more (callbackQueue q) responses (sendQueue q)
    [{| mc_name := name; mc_args := default ∅ args;
        mc_tag := pretty (length (sendQueue q)) |}] Hrange) as [Hsame Hok].
  rewrite queueCallbacks_app by (by rewrite Hsame).
  rewrite Hsame. cbn [queueCallbacks mbind option_bind fst snd].
  rewrite lookup_app_r, Nat.sub_diag by done. cbn. done.
Qed.

Lemma callMethod_binds_callback_witness :
  let args : gmap string json := {[ "ids" := JArr [JStr "m7"] ]} in
  let q' := callMethod "Email/get" (Some args) (Some 7) init in
  let responses :=
    [ {| mc_name := "Email/get"; mc_args := {[ "list" := JArr [] ]};
         mc_tag := "0" |} ] in
  consistent q' ∧
  processCallbacks (Some (callbackQueue q')) responses (Some (sendQueue q')) =
    ([QueueMiddle 7 (Some ({[ "list" := JArr [] ]}, "Email/get", args))], true).
Proof.
  refine (callMethod_binds_callback "Email/get"
            (Some {[ "ids" := JArr [JStr "m7"] ]}) 7 init
            [ {| mc_name := "Email/get"; mc_args := {[ "list" := JArr [] ]};
                 mc_tag := "0" |} ] _).
  split; [intros i call Hi; by destruct i|constructor].
Defined.

Lemma hasResultReference_true call :
  hasResultReference call = true ↔
  ∃ key, is_Some (mc_args call !! key) ∧ JS.charAt0 key = "#".
Proof.
  unfold hasResultReference. rewrite existsb_exists. split.
  - intros (key & Hin & Hkey). exists key. split; [|by apply bool_decide_eq_true in Hkey].
    apply list_elem_of_In, list_elem_of_fmap in Hin as ([k v] & -> & Hin).
    apply elem_of_map_to_list in Hin. by exists v.
  - intros (key & [v Hv] & Hkey). exists key. split; [|by apply bool_decide_eq_true].
    apply list_elem_of_In, list_elem_of_fmap. exists (key, v). split; [done|].
    by apply elem_of_map_to_list.
Qed.

Lemma object_lookup members key :
  is_Some (object members !! key) → ∃ v, (key, Some v) ∈ members.
Proof.
  unfold object. intros [v Hv]. apply elem_of_list_to_map_2 in Hv.
  apply list_elem_of_omap in Hv as ([k [w|]] & Hin & Heq); [|done].
  cbn in Heq. injection Heq as -> ->. by exists v.
Qed.

(** What a call refers to: the [resultOf] of its [#ids] argument. *)
Definition resultOf (call : methodCall) : option string :=
  match mc_args call !! "#ids" with
  | Some (JObj reference) =>
      match reference !! "resultOf" with
      | Some (JStr tag) => Some tag
      | _ => None
      end
  | _ => None
  end.

Lemma refers_lookup (account : option string) reference rest :
  object (("accountId", JStr <$> account) :: ("#ids", Some reference) :: rest)
    !! "#ids" = Some reference.
Proof.
  unfold object. destruct account; cbn -[insert lookup].
  - rewrite lookup_insert_ne by done. apply lookup_insert_eq.
  - apply lookup_insert_eq.
Qed.

Lemma refers_hasResultReference (account : option string) reference rest name tag :
  hasResultReference
    {| mc_name := name;
       mc_args := object (("accountId", JStr <$> account) ::
                          ("#ids", Some reference) :: rest);
       mc_tag := tag |} = true.
Proof.
  apply hasResultReference_true. exists "#ids". split; [|done].
  cbn [mc_args default from_option id]. by rewrite refers_lookup.
Qed.

Lemma plain_hasResultReference members name tag :
  Forall (λ member : string * option json, JS.charAt0 member.1 ≠ "#") members →
  hasResultReference
    {| mc_name := name; mc_args := object members; mc_tag := tag |} = false.
Proof.
  intros Hplain. apply not_true_is_false. intros Href.
  apply hasResultReference_true in Href as (key & Hkey & Hhash).
  apply object_lookup in Hkey as [v Hin].
  rewrite Forall_forall in Hplain. by apply (Hplain _ Hin).
Qed.

Lemma getPreviousMethodId_callMethod name args callback q :
  getPreviousMethodId (callMethod name args callback q) =
  pretty (length (sendQueue q)).
Proof.
  unfold getPreviousMethodId. cbn. rewrite length_app. cbn.
  replace (Z.of_nat (length (sendQueue q) + 1) - 1)%Z
    with (Z.of_nat (length (sendQueue q))) by lia.
  apply pretty_Z_nat.
Qed.

(** X7. Without ids, [refreshType] queues three calls: a [/changes] call
    without result reference, then two [/get] calls whose [#ids] both refer
    to the tag of that [/changes] call; the tags stay the positions. *)
Theorem refreshType_references (typeName : string) (account state : option string)
    (q : queues) :
  wellTagged (sendQueue q) →
  ∃ changes_ created updated,
    sendQueue (refreshType typeName account None state q) =
      sendQueue q ++ [changes_; created; updated] ∧
    callbackQueue (refreshType typeName account None state q) = callbackQueue q ∧
    wellTagged (sendQueue (refreshType typeName account None state q)) ∧
    mc_name changes_ = typeName +:+ "/changes" ∧
    mc_tag changes_ = pretty (length (sendQueue q)) ∧
    hasResultReference changes_ = false ∧
    mc_name created = typeName +:+ "/get" ∧
    mc_name updated = typeName +:+ "/get" ∧
    resultOf created = Some (mc_tag changes_) ∧
    resultOf updated = Some (mc_tag changes_) ∧
    hasResultReference created = true ∧
    hasResultReference updated = true.
Proof.
  intros Htag. eexists _, _, _. split.
  { cbn [refreshType callMethod askSend withQueues sendQueue].
    rewrite <- !(assoc_L (++)). reflexivity. }
  split; [done|]. split.
  { cbn [refreshType]. cbn [callMethod askSend withQueues sendQueue].
    by do 3 apply wellTagged_snoc. }
  cbn [mc_name mc_tag]. split; [done|]. split; [done|]. split.
  { apply plain_hasResultReference. repeat constructor; done. }
  split; [done|]. split; [done|].
  rewrite !getPreviousMethodId_callMethod.
  split; [unfold resultOf; cbn [mc_args default from_option id]; by rewrite refers_lookup|].
  split; [unfold resultOf; cbn [mc_args default from_option id]; by rewrite refers_lookup|].
  split; apply refers_hasResultReference.
Qed.

Lemma refreshType_references_witness :
  ∃ changes_ created updated,
    sendQueue (refreshType "Email" (Some "A1") None (Some "s1") init) =
      sendQueue init ++ [changes_; created; updated] ∧
    callbackQueue (refreshType "Email" (Some "A1") None (Some "s1") init) =
      callbackQueue init ∧
    wellTagged (sendQueue (refreshType "Email" (Some "A1") None (Some "s1") init)) ∧
    mc_name changes_ = "Email" +:+ "/changes" ∧
    mc_tag changes_ = pretty (length (sendQueue init)) ∧
    hasResultReference changes_ = false ∧
    mc_name created = "Email" +:+ "/get" ∧
    mc_name updated = "Email" +:+ "/get" ∧
    resultOf created = Some (mc_tag changes_) ∧
    resultOf updated = Some (mc_tag changes_) ∧
    hasResultReference created = true ∧
    hasResultReference updated = true.
Proof.
  apply (refreshType_references "Email" (Some "A1") (Some "s1") init).
  intros i call Hi. by destruct i.
Defined.

(** X8. The fetcher of message threads queues [Email/get], [Thread/get]
    and [Email/get]; the first has no result reference and each of the
    others refers to the tag of the call right before it. *)
Theorem MessageThread_fetch_chain (account : option string)
    (ids : option (list string)) (q : queues) :
  wellTagged (sendQueue q) →
  ∃ emails threads messages,
    sendQueue (Message.MessageThread_fetch account ids q) =
      sendQueue q ++ [emails; threads; messages] ∧
    callbackQueue (Message.MessageThread_fetch account ids q) = callbackQueue q ∧
    wellTagged (sendQueue (Message.MessageThread_fetch account ids q)) ∧
    (mc_name emails, mc_name threads, mc_name messages) =
      ("Email/get", "Thread/get", "Email/get") ∧
    mc_args emails !! "ids" = Some (idsArgument ids) ∧
    hasResultReference emails = false ∧
    resultOf threads = Some (mc_tag emails) ∧
    resultOf messages = Some (mc_tag threads) ∧
    hasResultReference threads = true ∧
    hasResultReference messages = true.
Proof.
  intros Htag. eexists _, _, _. split.
  { cbn [Message.MessageThread_fetch callMethod askSend withQueues sendQueue].
    rewrite <- !(assoc_L (++)). reflexivity. }
  split; [done|]. split.
  { cbn [Message.MessageThread_fetch].
    cbn [callMethod askSend withQueues sendQueue].
    by do 3 apply wellTagged_snoc. }
  cbn [mc_name mc_tag mc_args]. split; [done|].
  split; [by destruct account|]. split.
  { apply plain_hasResultReference. repeat constructor; done. }
  rewrite !getPreviousMethodId_callMethod.
  split; [unfold resultOf; cbn [mc_args default from_option id]; by rewrite refers_lookup|].
  split.
  { unfold resultOf; cbn [mc_args default from_option id]. rewrite refers_lookup.
    cbn. rewrite length_app. done. }
  split; apply refers_hasResultReference.
Qed.

Lemma MessageThread_fetch_chain_witness :
  ∃ emails threads messages,
    sendQueue (Message.MessageThread_fetch (Some "A1") (Some ["m7"]) init) =
      sendQueue init ++ [emails; threads; messages] ∧
    callbackQueue (Message.MessageThread_fetch (Some "A1") (Some ["m7"]) init) =
      callbackQueue init ∧
    wellTagged
      (sendQueue (Message.MessageThread_fetch (Some "A1") (Some ["m7"]) init)) ∧
    (mc_name emails, mc_name threads, mc_name messages) =
      ("Email/get", "Thread/get", "Email/get") ∧
    mc_args emails !! "ids" = Some (idsArgument (Some ["m7"])) ∧
    hasResultReference emails = false ∧
    resultOf threads = Some (mc_tag emails) ∧
    resultOf messages = Some (mc_tag threads) ∧
    hasResultReference threads = true ∧
    hasResultReference messages = true.
Proof.
  apply (MessageThread_fetch_chain (Some "A1") (Some ["m7"]) init).
  intros i call Hi. by destruct i.
Defined.

(** ** Pages of a batch *)

Lemma head_Array_slice {A} (l : list A) from to :
  from < to → head (Array_slice l from to) = l !! from.
Proof.
  intros Hlt. unfold Array_slice.
  transitivity (drop from l !! 0); [|by rewrite lookup_drop, Nat.add_0_r].
  destruct (drop from l) as [|x d]; [by rewrite take_nil|].
  destruct (to - from) as [|n] eqn:Hn; [lia|]. done.
Qed.

(** A page begins with a call that has no result reference. *)
Definition beginsPlain (page : list methodCall) : Prop :=
  ∃ call, head page = Some call ∧ hasResultReference call = false.

(** Among any [maxCallsInRequest] calls in a row, after the first call of
    the batch, one has no result reference. *)
Definition shortChains (calls : list methodCall) (maxCallsInRequest : nat) : Prop :=
  ∀ start, start + maxCallsInRequest < length calls →
    ∃ j call, start < j ≤ start + maxCallsInRequest ∧
              calls !! j = Some call ∧ hasResultReference call = false.

Lemma pagesFrom_begin calls maxCallsInRequest :
  0 < maxCallsInRequest → shortChains calls maxCallsInRequest →
  ∀ fuel start,
    start < length calls → length calls - start ≤ fuel →
    ∃ first rest,
      pagesFrom fuel calls start maxCallsInRequest = Some (first :: rest) ∧
      head first = calls !! start ∧
      Forall beginsPlain rest.
Proof.
  intros Hmax Hshort. induction fuel as [|fuel IH]; intros start Hstart Hfuel; [lia|].
  cbn [pagesFrom].
  destruct (pageEnd_spec calls start maxCallsInRequest Hmax Hstart)
    as (end_ & -> & Hend & Hmore & _ & Hcut). cbn [mbind option_bind].
  pose proof (Array_slice_length calls start end_) as Hlen.
  pose proof (head_Array_slice calls start end_ ltac:(lia)) as Hhead.
  destruct (start + length (Array_slice calls start end_) <? length calls) eqn:Hnext.
  - apply Nat.ltb_lt in Hnext.
    assert (start + length (Array_slice calls start end_) = end_) as Hat by lia.
    rewrite Hat in *.
    destruct (IH end_) as (first & rest & -> & Hfirst & Hrest); [lia..|].
    eexists _, _. split; [reflexivity|]. split; [done|].
    constructor; [|done].
    destruct (lookup_lt_is_Some_2 calls end_ Hnext) as [next Hat'].
    exists next. split; [congruence|].
    destruct (hasResultReference next) eqn:Href; [|done].
    destruct (Hcut next Hat' Href) as [-> Hall].
    destruct (Hshort start) as (j & call & Hj & Hcall & Hplain); [lia|].
    destruct (Hall j Hj) as (call' & Hcall' & Href'). congruence.
  - eexists _, _. split; [reflexivity|]. split; [done|]. constructor.
Qed.

(** X9. When no [maxCallsInRequest] calls in a row all carry a result
    reference, the requests of a batch cut it into pages of one to
    [maxCallsInRequest] calls, in order and without loss, and every page
    after the first begins with a call that has no result reference. *)
Theorem pages_begin_without_reference (calls : list methodCall)
    (maxCallsInRequest : nat) :
  0 < maxCallsInRequest → calls ≠ [] → shortChains calls maxCallsInRequest →
  ∃ pages,
    pagesFrom (length calls) calls 0 maxCallsInRequest = Some pages ∧
    concat pages = calls ∧
    Forall (λ page, 0 < length page ≤ maxCallsInRequest) pages ∧
    Forall beginsPlain (tail pages).
Proof.
  intros Hmax Hcalls Hshort.
  assert (0 < length calls) as Hlen by (destruct calls; [done|cbn; lia]).
  destruct (pagesFrom_covers calls maxCallsInRequest Hmax (length calls) 0)
    as (pages & Hpages & Hcat & Hsize); [lia..|].
  destruct (pagesFrom_begin calls maxCallsInRequest Hmax Hshort (length calls) 0)
    as (first & rest & Hpages' & _ & Hrest); [lia..|].
  exists pages. split; [done|]. split; [done|]. split; [done|].
  rewrite Hpages in Hpages'. injection Hpages' as ->. done.
Qed.

Lemma pages_begin_without_reference_witness :
  let calls := chain ++ chain in
  ∃ pages,
    pagesFrom (length calls) calls 0 3 = Some pages ∧
    concat pages = calls ∧
    Forall (λ page, 0 < length page ≤ 3) pages ∧
    Forall beginsPlain (tail pages).
Proof.
  apply (pages_begin_without_reference (chain ++ chain) 3); [lia|done|].
  intros start Hstart. cbn in Hstart.
  assert (start = 0 ∨ start = 1 ∨ start = 2) as [-> | [-> | ->]] by lia.
  - exists 3. eexists. split; [lia|]. split; [reflexivity|]. vm_compute. reflexivity.
  - exists 3. eexists. split; [lia|]. split; [reflexivity|]. vm_compute. reflexivity.
  - exists 3. eexists. split; [lia|]. split; [reflexivity|]. vm_compute. reflexivity.
Defined.

(** ** [commitType] and [hasInFlightChanges] *)

Lemma isChange_set typeName args tag :
  JS.indexOf "/" typeName = (-1)%Z →
  isChange {| mc_name := typeName +:+ "/set"; mc_args := args; mc_tag := tag |} = true.
Proof.
  intros Hplain. unfold isChange. cbn [mc_name].
  change (typeName +:+ "/set") with (typeName +:+ String "/" "set").
  rewrite indexOf_append_separator by done. rewrite slice_from_suffix. done.
Qed.

Lemma isChange_copy typeName args tag :
  JS.indexOf "/" typeName = (-1)%Z →
  isChange {| mc_name := typeName +:+ "/copy"; mc_args := args; mc_tag := tag |} = true.
Proof.
  intros Hplain. unfold isChange. cbn [mc_name].
  change (typeName +:+ "/copy") with (typeName +:+ String "/" "copy").
  rewrite indexOf_append_separator by done. rewrite slice_from_suffix. done.
Qed.

(** X10. For a type name without ['/'], [commitType] only adds calls to the
    send queue, and each call it adds counts as a change for
    [hasInFlightChanges] once it is in flight. *)
Theorem commitType_in_flight (typeName : string) (changes : change_t)
    (moveFromAccount : option (gmap string update_t)) (q q' : queues) :
  JS.indexOf "/" typeName = (-1)%Z →
  commitType typeName changes moveFromAccount q = Some q' →
  ∃ added,
    sendQueue q' = sendQueue q ++ added ∧
    ∀ call, call ∈ added →
      ∀ sources source calls activeConnections,
        source ∈ sources → inFlightRemoteCalls source = Some calls →
        call ∈ calls →
        hasInFlightChanges sources activeConnections = true.
Proof.
  intros Hplain Hcommit.
  assert (∃ added, sendQueue q' = sendQueue q ++ added ∧
                   Forall (λ call, isChange call = true) added)
    as (added & Hadded & Hall).
  { unfold commitType in Hcommit.
    destruct (makeSetRequest changes false) as [setRequest|]; [|done].
    cbn [mbind option_bind] in Hcommit.
    set (q1 := match setRequest with
               | Some request => callMethod _ _ _ q
               | None => q
               end) in Hcommit.
    assert (∃ added, sendQueue q1 = sendQueue q ++ added ∧
                     Forall (λ call, isChange call = true) added)
      as (added1 & Hadded1 & Hall1).
    { destruct setRequest as [request|]; subst q1.
      - eexists. split; [reflexivity|]. repeat constructor.
        by apply isChange_set.
      - exists []. by rewrite app_nil_r. }
    clearbody q1. destruct moveFromAccount as [moves|].
    - revert q1 added1 Hadded1 Hall1 Hcommit.
      induction (map_to_list moves) as [|[from_ move] l IH];
        intros q1 added1 Hadded1 Hall1 Hcommit.
      + injection Hcommit as <-. by exists added1.
      + cbn [foldl mbind option_bind fst snd] in Hcommit.
        destruct (makeUpdate (primaryKey changes) move true true) as [toCreate|].
        * cbn [mbind option_bind] in Hcommit.
          eapply IH; [| |exact Hcommit].
          -- cbn [callMethod askSend withQueues sendQueue].
             rewrite Hadded1, <- (assoc_L (++)). reflexivity.
          -- apply Forall_app. split; [done|]. repeat constructor.
             by apply isChange_copy.
        * exfalso. clear -Hcommit. cbn in Hcommit.
          induction l as [|x l IHl]; [done|]. by apply IHl.
    - injection Hcommit as <-. by exists added1. }
  exists added. split; [done|].
  intros call Hcall sources source calls activeConnections Hsource Hflight Hin.
  unfold hasInFlightChanges. apply orb_true_iff. left.
  apply existsb_exists. exists source. split; [by apply list_elem_of_In|].
  rewrite Hflight. apply existsb_exists. exists call.
  split; [by apply list_elem_of_In|].
  rewrite Forall_forall in Hall. by apply Hall.
Qed.

Lemma commitType_in_flight_witness :
  let q' := default init (commitType "Email" commit_m7 None init) in
  ∃ added,
    sendQueue q' = sendQueue init ++ added ∧
    ∀ call, call ∈ added →
      ∀ sources source calls activeConnections,
        source ∈ sources → inFlightRemoteCalls source = Some calls →
        call ∈ calls →
        hasInFlightChanges sources activeConnections = true.
Proof.
  apply (commitType_in_flight "Email" commit_m7 None init
           (default init (commitType "Email" commit_m7 None init)));
    vm_compute; reflexivity.
Defined.

(** ** Pending fetches *)

(** The pending requests are those of [q]. *)
Definition samePending (q q' : queues) : Prop :=
  queriesToFetch q' = queriesToFetch q ∧ typesToRefresh q' = typesToRefresh q ∧
  recordsToRefresh q' = recordsToRefresh q ∧ typesToFetch q' = typesToFetch q ∧
  recordsToFetch q' = recordsToFetch q.

(** What is queued in [q] is still queued in [q'], in front. *)
Definition extends (q q' : queues) : Prop :=
  sendQueue q `prefix_of` sendQueue q' ∧
  callbackQueue q `prefix_of` callbackQueue q'.

(** A handler that returns, only adds to the two queues and leaves the
    pending requests alone. *)
Definition queueing (fn : queues → option queues) : Prop :=
  ∀ q, ∃ q', fn q = Some q' ∧ extends q q' ∧ samePending q q'.

(** All the functions registered as handlers are of that kind. *)
Definition orderly (registry : handlers) : Prop :=
  (∀ typeId fn, recordFetchers registry !! typeId = Some (Function fn) →
     ∀ account ids state, queueing (fn account ids state)) ∧
  (∀ typeId fn, recordRefreshers registry !! typeId = Some (Function fn) →
     ∀ account ids state, queueing (fn account ids state)) ∧
  (∀ guid fn, queryFetchers registry !! guid = Some fn → ∀ id, queueing (fn id)).

(** Every pending type has the handler that [makeRequest] will call. *)
Definition handled (registry : handlers) (q : queues) : Prop :=
  (∀ account byType typeId state,
     typesToRefresh q !! account = Some byType → byType !! typeId = Some state →
     is_Some (recordRefreshers registry !! typeId)) ∧
  (∀ account byType typeId (ids : gset string),
     recordsToRefresh q !! account = Some byType → byType !! typeId = Some ids →
     is_Some (recordRefreshers registry !! typeId)) ∧
  (∀ account (byType : gset string) typeId,
     typesToFetch q !! account = Some byType → typeId ∈ byType →
     is_Some (recordFetchers registry !! typeId)) ∧
  (∀ account byType typeId (ids : gset string),
     recordsToFetch q !! account = Some byType → byType !! typeId = Some ids →
     is_Some (recordFetchers registry !! typeId)).

Lemma samePending_refl q : samePending q q.
Proof. by repeat split. Qed.

Lemma samePending_trans q1 q2 q3 :
  samePending q1 q2 → samePending q2 q3 → samePending q1 q3.
Proof. unfold samePending. intuition congruence. Qed.

Global Instance extends_refl : Reflexive extends.
Proof. by split. Qed.

Global Instance extends_trans : Transitive extends.
Proof. intros q1 q2 q3 [??] [??]. split; by etrans. Qed.

Lemma extends_callMethod name args callback q :
  extends q (callMethod name args callback q).
Proof.
  split; cbn; [by apply prefix_app_r|].
  destruct callback; [by apply prefix_app_r|done].
Qed.

Lemma queueing_callMethod name args callback :
  queueing (λ q, Some (callMethod name args callback q)).
Proof.
  intros q. eexists. split; [done|]. split; [|by repeat split].
  apply extends_callMethod.
Qed.

Lemma queueing_bind (f g : queues → option queues) :
  queueing f → queueing g → queueing (λ q, f q ≫= g).
Proof.
  intros Hf Hg q. destruct (Hf q) as (q1 & -> & Hp1 & Hs1).
  destruct (Hg q1) as (q2 & Hq2 & Hp2 & Hs2). exists q2. cbn.
  split; [done|]. split; [by etrans|by eapply samePending_trans].
Qed.

Lemma foldl_None {A} (step : A → queues → option queues) l :
  foldl (λ acc x, q ← acc; step x q) None l = None.
Proof. by induction l. Qed.

Lemma queueing_foldl {A} (step : A → queues → option queues) (l : list A) :
  (∀ x, x ∈ l → queueing (step x)) →
  queueing (λ q, foldl (λ acc x, q ← acc; step x q) (Some q) l).
Proof.
  induction l as [|x l IH]; intros Hl q.
  - exists q. split; [done|]. split; [done|apply samePending_refl].
  - cbn [foldl mbind option_bind].
    destruct (Hl x ltac:(left) q) as (q1 & -> & Hp1 & Hs1).
    destruct (IH (λ y Hy, Hl y ltac:(by right)) q1) as (q2 & Hq2 & Hp2 & Hs2).
    exists q2. split; [done|]. split; [by etrans|by eapply samePending_trans].
Qed.

Lemma Exists_prefix {A} (P : A → Prop) (l1 l2 : list A) :
  l1 `prefix_of` l2 → Exists P l1 → Exists P l2.
Proof. intros [k ->] H. apply Exists_app. by left. Qed.

Lemma Exists_extends (P : methodCall → Prop) q q' :
  extends q q' → Exists P (sendQueue q) → Exists P (sendQueue q').
Proof. intros [? _]. by apply Exists_prefix. Qed.

Lemma emits_foldl {A} (P : methodCall → Prop) (step : A → queues → option queues)
    (l : list A) (x : A) :
  x ∈ l →
  (∀ y, y ∈ l → queueing (step y)) →
  (∀ q q', step x q = Some q' → Exists P (sendQueue q')) →
  ∀ q q', foldl (λ acc y, q ← acc; step y q) (Some q) l = Some q' →
    Exists P (sendQueue q').
Proof.
  induction l as [|y l IH]; intros Hx Hl Hemit q q' Hrun; [by apply elem_of_nil in Hx|].
  cbn [foldl mbind option_bind] in Hrun.
  destruct (Hl y ltac:(left) q) as (q1 & Hq1 & Hp1 & Hs1). rewrite Hq1 in Hrun.
  apply elem_of_cons in Hx as [->|Hx].
  - destruct (queueing_foldl step l (λ z Hz, Hl z ltac:(by right)) q1)
      as (q2 & Hq2 & Hp2 & _).
    rewrite Hq2 in Hrun. injection Hrun as <-.
    eapply Exists_extends; [exact Hp2|]. by eapply Hemit.
  - eapply (IH Hx); [|done|exact Hrun]. intros z Hz. apply Hl. by right.
Qed.

Lemma queueing_forEach {A} (body : string → A → queues → option queues)
    (object : gmap string A) :
  (∀ k v, object !! k = Some v → queueing (body k v)) →
  queueing (λ q, forEach body object (Some q)).
Proof.
  intros Hbody. unfold forEach.
  apply (queueing_foldl (λ member : string * A, body member.1 member.2)).
  intros [k v] Hin. apply Hbody. by apply elem_of_map_to_list.
Qed.

Lemma emits_forEach {A} (P : methodCall → Prop)
    (body : string → A → queues → option queues) (object : gmap string A) k v :
  object !! k = Some v →
  (∀ k v, object !! k = Some v → queueing (body k v)) →
  (∀ q q', body k v q = Some q' → Exists P (sendQueue q')) →
  ∀ q q', forEach body object (Some q) = Some q' → Exists P (sendQueue q').
Proof.
  intros Hk Hbody Hemit q q'. unfold forEach.
  apply (emits_foldl P (λ member : string * A, body member.1 member.2)
           (map_to_list object) (k, v)).
  - by apply elem_of_map_to_list.
  - intros [k' v'] Hin. apply Hbody. by apply elem_of_map_to_list.
  - done.
Qed.

Lemma queueing_fetchWith (h : option handler) account ids :
  (∀ fn, h = Some (Function fn) → ∀ account ids state, queueing (fn account ids state)) →
  is_Some h → queueing (fetchWith h account ids).
Proof.
  intros Hfn [[name|fn] ->]; cbn [fetchWith].
  - apply queueing_callMethod.
  - by apply Hfn.
Qed.

Lemma queueing_refreshWith (h : option handler) account state :
  (∀ fn, h = Some (Function fn) → ∀ account ids state, queueing (fn account ids state)) →
  is_Some h → queueing (refreshWith h account state).
Proof.
  intros Hfn [[name|fn] ->]; cbn [refreshWith].
  - intros q. eexists. split; [done|]. split; [|by repeat split].
    unfold refreshType. etrans; [|apply extends_callMethod].
    etrans; [|apply extends_callMethod]. apply extends_callMethod.
  - by apply Hfn.
Qed.

(** What a loop of [makeRequest] does when its handlers are there and
    orderly: it returns, only adds calls, and leaves the other pending maps
    alone. *)
Definition phase (fn : queues → option queues) (q : queues) (q' : queues) : Prop :=
  fn q = Some q' ∧ extends q q'.

Section Phases.

Context (registry : handlers).
Hypothesis Horderly : orderly registry.

Lemma fetchQueries_phase q :
  ∃ q', phase (fetchQueries registry) q q' ∧
        samePending (withQueriesToFetch ∅ q) q'.
Proof.
  unfold phase, fetchQueries.
  edestruct (queueing_forEach (λ id guid q,
      match queryFetchers registry !! guid with
      | Some fn => fn id q
      | None => Some q
      end) (queriesToFetch q)) as (q' & Hq' & Hp & Hs); [|by exists q'].
  intros id guid _. destruct (queryFetchers registry !! guid) as [fn|] eqn:Hfn.
  - by eapply Horderly.
  - intros q0. exists q0. split; [done|]. split; [done|apply samePending_refl].
Qed.

Lemma refreshTypes_phase q :
  handled registry q →
  ∃ q', phase (refreshTypes registry) q q' ∧
        samePending (withTypesToRefresh ∅ q) q'.
Proof.
  intros (Hh & _). unfold phase, refreshTypes.
  edestruct (queueing_forEach (λ account byType q,
      forEach (λ typeId state q,
          refreshWith (recordRefreshers registry !! typeId)
            (accountOf account) state q) byType (Some q))
    (typesToRefresh q)) as (q' & Hq' & Hp & Hs); [|by exists q'].
  intros account byType Haccount. apply queueing_forEach.
  intros typeId state Htype. apply queueing_refreshWith.
  - intros fn Hfn. by eapply Horderly.
  - by eapply Hh.
Qed.

Lemma refreshRecords_phase q :
  handled registry q →
  ∃ q', phase (refreshRecords registry) q q' ∧
        samePending (withRecordsToRefresh ∅ q) q'.
Proof.
  intros (_ & Hh & _). unfold phase, refreshRecords.
  edestruct (queueing_forEach (λ account byType q,
      forEach (λ typeId (ids : gset string) q,
          fetchWith (recordRefreshers registry !! typeId)
            (accountOf account) (Some (elements ids)) q) byType (Some q))
    (recordsToRefresh q)) as (q' & Hq' & Hp & Hs); [|by exists q'].
  intros account byType Haccount. apply queueing_forEach.
  intros typeId ids Htype. apply queueing_fetchWith.
  - intros fn Hfn. by eapply Horderly.
  - by eapply Hh.
Qed.

Lemma fetchTypes_phase q :
  handled registry q →
  ∃ q', phase (fetchTypes registry) q q' ∧
        samePending (withTypesToFetch ∅ q) q'.
Proof.
  intros (_ & _ & Hh & _). unfold phase, fetchTypes.
  edestruct (queueing_forEach (λ account (byType : gset string) q,
      foldl (λ acc typeId,
          q ← acc;
          fetchWith (recordFetchers registry !! typeId)
            (accountOf account) None q) (Some q) (elements byType))
    (typesToFetch q)) as (q' & Hq' & Hp & Hs); [|by exists q'].
  intros account byType Haccount.
  apply (queueing_foldl (λ typeId,
    fetchWith (recordFetchers registry !! typeId) (accountOf account) None)).
  intros typeId Htype. apply elem_of_elements in Htype.
  apply queueing_fetchWith.
  - intros fn Hfn. by eapply (proj1 Horderly).
  - by eapply Hh.
Qed.

Lemma fetchRecords_phase q :
  handled registry q →
  ∃ q', phase (fetchRecords registry) q q' ∧
        samePending (withRecordsToFetch ∅ q) q'.
Proof.
  intros (_ & _ & _ & Hh). unfold phase, fetchRecords.
  edestruct (queueing_forEach (λ account byType q,
      forEach (λ typeId (ids : gset string) q,
          fetchWith (recordFetchers registry !! typeId)
            (accountOf account) (Some (elements ids)) q) byType (Some q))
    (recordsToFetch q)) as (q' & Hq' & Hp & Hs); [|by exists q'].
  intros account byType Haccount. apply queueing_forEach.
  intros typeId ids Htype. apply queueing_fetchWith.
  - intros fn Hfn. by eapply (proj1 Horderly).
  - by eapply Hh.
Qed.

End Phases.

(** A [/get] call for the records [ids] (all, for [None]) of an account. *)
Definition getCall (name account : string) (ids : option (list string))
    (call : methodCall) : Prop :=
  mc_name call = name +:+ "/get" ∧
  mc_args call = object [("accountId", JStr <$> accountOf account);
                         ("ids", Some (idsArgument ids))].

(** A [/changes] call for an account, since [state]. *)
Definition changesCall (name account state : string) (call : methodCall) : Prop :=
  mc_name call = name +:+ "/changes" ∧
  mc_args call = object [("accountId", JStr <$> accountOf account);
                         ("sinceState", Some (JStr state));
                         ("maxChanges", Some (JNum 100))].

Lemma handled_pending registry q q' :
  typesToRefresh q' = typesToRefresh q → recordsToRefresh q' = recordsToRefresh q →
  typesToFetch q' = typesToFetch q → recordsToFetch q' = recordsToFetch q →
  handled registry q → handled registry q'.
Proof. unfold handled. by intros -> -> -> ->. Qed.

Section Emits.

Context (registry : handlers).
Hypothesis Horderly : orderly registry.

Lemma fetchWith_emits name account ids q q' :
  fetchWith (Some (Named name)) (accountOf account) ids q = Some q' →
  Exists (getCall name account ids) (sendQueue q').
Proof.
  intros [= <-]. cbn. apply Exists_app. right. constructor. done.
Qed.

Lemma refreshRecords_emits q q' account byType typeId (ids : gset string) name :
  handled registry q → refreshRecords registry q = Some q' →
  recordsToRefresh q !! account = Some byType → byType !! typeId = Some ids →
  recordRefreshers registry !! typeId = Some (Named name) →
  Exists (getCall name account (Some (elements ids))) (sendQueue q').
Proof.
  intros (_ & Hh & _) Hrun Haccount Htype Hname. unfold refreshRecords in Hrun.
  eapply (emits_forEach _ _ _ account byType Haccount); [| |exact Hrun].
  - intros a b Ha. apply queueing_forEach. intros t i Ht.
    apply queueing_fetchWith; [|by eapply Hh].
    intros fn Hfn. by eapply (proj1 (proj2 Horderly)).
  - cbn beta. intros q0 q1. apply (emits_forEach _ _ _ typeId ids Htype).
    + intros t i Ht. apply queueing_fetchWith; [|by eapply Hh].
      intros fn Hfn. by eapply (proj1 (proj2 Horderly)).
    + cbn beta. rewrite Hname. apply fetchWith_emits.
Qed.

Lemma fetchRecords_emits q q' account byType typeId (ids : gset string) name :
  handled registry q → fetchRecords registry q = Some q' →
  recordsToFetch q !! account = Some byType → byType !! typeId = Some ids →
  recordFetchers registry !! typeId = Some (Named name) →
  Exists (getCall name account (Some (elements ids))) (sendQueue q').
Proof.
  intros (_ & _ & _ & Hh) Hrun Haccount Htype Hname. unfold fetchRecords in Hrun.
  eapply (emits_forEach _ _ _ account byType Haccount); [| |exact Hrun].
  - intros a b Ha. apply queueing_forEach. intros t i Ht.
    apply queueing_fetchWith; [|by eapply Hh].
    intros fn Hfn. by eapply (proj1 Horderly).
  - cbn beta. intros q0 q1. apply (emits_forEach _ _ _ typeId ids Htype).
    + intros t i Ht. apply queueing_fetchWith; [|by eapply Hh].
      intros fn Hfn. by eapply (proj1 Horderly).
    + cbn beta. rewrite Hname. apply fetchWith_emits.
Qed.

Lemma fetchTypes_emits q q' account (byType : gset string) typeId name :
  handled registry q → fetchTypes registry q = Some q' →
  typesToFetch q !! account = Some byType → typeId ∈ byType →
  recordFetchers registry !! typeId = Some (Named name) →
  Exists (getCall name account None) (sendQueue q').
Proof.
  intros (_ & _ & Hh & _) Hrun Haccount Htype Hname. unfold fetchTypes in Hrun.
  eapply (emits_forEach _ _ _ account byType Haccount); [| |exact Hrun].
  - intros a b Ha.
    apply (queueing_foldl (λ typeId,
      fetchWith (recordFetchers registry !! typeId) (accountOf a) None)).
    intros t Ht. apply elem_of_elements in Ht.
    apply queueing_fetchWith; [|by eapply Hh].
    intros fn Hfn. by eapply (proj1 Horderly).
  - cbn beta. intros q0 q1.
    apply (emits_foldl _ (λ typeId,
      fetchWith (recordFetchers registry !! typeId) (accountOf account) None)
      (elements byType) typeId).
    + by apply elem_of_elements.
    + intros t Ht. apply elem_of_elements in Ht.
      apply queueing_fetchWith; [|by eapply Hh].
      intros fn Hfn. by eapply (proj1 Horderly).
    + rewrite Hname. apply fetchWith_emits.
Qed.

Lemma refreshTypes_emits q q' account byType typeId state name :
  handled registry q → refreshTypes registry q = Some q' →
  typesToRefresh q !! account = Some byType → byType !! typeId = Some state →
  recordRefreshers registry !! typeId = Some (Named name) →
  Exists (changesCall name account state) (sendQueue q').
Proof.
  intros (Hh & _) Hrun Haccount Htype Hname. unfold refreshTypes in Hrun.
  eapply (emits_forEach _ _ _ account byType Haccount); [| |exact Hrun].
  - intros a b Ha. apply queueing_forEach. intros t i Ht.
    apply queueing_refreshWith; [|by eapply Hh].
    intros fn Hfn. by eapply (proj1 (proj2 Horderly)).
  - cbn beta. intros q0 q1. apply (emits_forEach _ _ _ typeId state Htype).
    + intros t i Ht. apply queueing_refreshWith; [|by eapply Hh].
      intros fn Hfn. by eapply (proj1 (proj2 Horderly)).
    + cbn beta. rewrite Hname. intros q2 q3 [= <-]. cbn.
      rewrite <- !(assoc_L (++)). apply Exists_app. right. constructor. done.
Qed.

End Emits.

(** [makeRequest] runs its five loops in turn; each hands the pending
    requests of its kind to their handlers and clears them. *)
Lemma makeRequest_phases (registry : handlers) (q : queues) :
  orderly registry → handled registry q →
  ∃ calls callbacks q',
    makeRequest registry q = Some (calls, callbacks, q') ∧
    sendQueue q `prefix_of` calls ∧
    callbackQueue q `prefix_of` callbacks ∧
    (sendQueue q' = [] ∧ callbackQueue q' = [] ∧ queriesToFetch q' = ∅ ∧
     typesToRefresh q' = ∅ ∧ recordsToRefresh q' = ∅ ∧ typesToFetch q' = ∅ ∧
     recordsToFetch q' = ∅) ∧
    (∀ account byType typeId (ids : gset string) name,
       recordsToFetch q !! account = Some byType → byType !! typeId = Some ids →
       recordFetchers registry !! typeId = Some (Named name) →
       ∃ sent, sent ≡ₚ elements ids ∧
               Exists (getCall name account (Some sent)) calls) ∧
    (∀ account byType typeId (ids : gset string) name,
       recordsToRefresh q !! account = Some byType → byType !! typeId = Some ids →
       recordRefreshers registry !! typeId = Some (Named name) →
       ∃ sent, sent ≡ₚ elements ids ∧
               Exists (getCall name account (Some sent)) calls) ∧
    (∀ account (byType : gset string) typeId name,
       typesToFetch q !! account = Some byType → typeId ∈ byType →
       recordFetchers registry !! typeId = Some (Named name) →
       Exists (getCall name account None) calls) ∧
    (∀ account byType typeId state name,
       typesToRefresh q !! account = Some byType → byType !! typeId = Some state →
       recordRefreshers registry !! typeId = Some (Named name) →
       Exists (changesCall name account state) calls).
Proof.
  intros Horderly Hhandled. unfold makeRequest.
  destruct (fetchQueries_phase registry Horderly q)
    as (q1 & [H1 P1] & (S1a & S1b & S1c & S1d & S1e)). cbn in S1a, S1b, S1c, S1d, S1e.
  assert (handled registry q1) as Hh1 by (by eapply handled_pending).
  destruct (refreshTypes_phase registry Horderly q1 Hh1)
    as (q2 & [H2 P2] & (S2a & S2b & S2c & S2d & S2e)). cbn in S2a, S2b, S2c, S2d, S2e.
  assert (handled registry q2) as Hh2.
  { destruct Hh1 as (_ & Hb & Hc & Hd). split; [|by rewrite S2c, S2d, S2e].
    intros a b t s Ha. by rewrite S2b, lookup_empty in Ha. }
  destruct (refreshRecords_phase registry Horderly q2 Hh2)
    as (q3 & [H3 P3] & (S3a & S3b & S3c & S3d & S3e)). cbn in S3a, S3b, S3c, S3d, S3e.
  assert (handled registry q3) as Hh3.
  { destruct Hh2 as (Ha & _ & Hc & Hd). split; [by rewrite S3b|].
    split; [|by rewrite S3d, S3e].
    intros a b t s Hx. by rewrite S3c, lookup_empty in Hx. }
  destruct (fetchTypes_phase registry Horderly q3 Hh3)
    as (q4 & [H4 P4] & (S4a & S4b & S4c & S4d & S4e)). cbn in S4a, S4b, S4c, S4d, S4e.
  assert (handled registry q4) as Hh4.
  { destruct Hh3 as (Ha & Hb & _ & Hd). split; [by rewrite S4b|].
    split; [by rewrite S4c|]. split; [|by rewrite S4e].
    intros a b t Hx. by rewrite S4d, lookup_empty in Hx. }
  destruct (fetchRecords_phase registry Horderly q4 Hh4)
    as (q5 & [H5 P5] & (S5a & S5b & S5c & S5d & S5e)). cbn in S5a, S5b, S5c, S5d, S5e.
  rewrite H1. cbn [mbind option_bind]. rewrite H2. cbn [mbind option_bind].
  rewrite H3. cbn [mbind option_bind]. rewrite H4. cbn [mbind option_bind].
  rewrite H5. cbn [mbind option_bind].
  assert (extends q3 q5) as P35 by (by etrans).
  assert (extends q2 q5) as P25 by (by etrans).
  assert (extends q1 q5) as P15 by (by etrans).
  assert (extends q q5) as [P05 P05'] by (by etrans).
  eexists _, _, _. split; [reflexivity|].
  split; [done|]. split; [done|].
  split; [cbn; by rewrite S5a, S4a, S3a, S2a, S1a, S5b, S4b, S3b, S2b, S5c, S4c, S3c,
            S5d, S4d, S5e|].
  split; [|split; [|split]].
  - intros account byType typeId ids name Ha Ht Hn.
    exists (elements ids). split; [done|].
    apply (fetchRecords_emits registry Horderly q4 q5 account byType typeId ids
             name Hh4 H5); [|done..].
    by rewrite S4e, S3e, S2e, S1e.
  - intros account byType typeId ids name Ha Ht Hn.
    exists (elements ids). split; [done|].
    eapply Exists_extends; [exact P35|].
    apply (refreshRecords_emits registry Horderly q2 q3 account byType typeId ids
             name Hh2 H3); [|done..].
    by rewrite S2c, S1c.
  - intros account byType typeId name Ha Ht Hn.
    eapply Exists_extends; [exact P5|].
    apply (fetchTypes_emits registry Horderly q3 q4 account byType typeId
             name Hh3 H4); [|done..].
    by rewrite S3d, S2d, S1d.
  - intros account byType typeId state name Ha Ht Hn.
    eapply Exists_extends; [exact P25|].
    apply (refreshTypes_emits registry Horderly q1 q2 account byType typeId state
             name Hh1 H2); [|done..].
    by rewrite S1b.
Qed.

(** X11. With every pending type handled and every handler function
    orderly, [makeRequest] returns; it hands over the send queue, grown by the
    handlers' calls, and leaves both queues empty and nothing pending; and
    for each pending request whose handler is a type name the request holds
    the call: [<name>/get] with the pending ids, in some order, for records
    to fetch or to refresh, [<name>/get] with [ids: null] for a type to fetch, and
    [<name>/changes] since the recorded state for a type to refresh. *)
Theorem makeRequest_asks_all (registry : handlers) (q : queues) :
  orderly registry → handled registry q →
  ∃ calls callbacks q',
    makeRequest registry q = Some (calls, callbacks, q') ∧
    sendQueue q `prefix_of` calls ∧
    callbackQueue q `prefix_of` callbacks ∧
    (sendQueue q' = [] ∧ callbackQueue q' = [] ∧ queriesToFetch q' = ∅ ∧
     typesToRefresh q' = ∅ ∧ recordsToRefresh q' = ∅ ∧ typesToFetch q' = ∅ ∧
     recordsToFetch q' = ∅) ∧
    (∀ account byType typeId (ids : gset string) name,
       recordsToFetch q !! account = Some byType → byType !! typeId = Some ids →
       recordFetchers registry !! typeId = Some (Named name) →
       ∃ sent, sent ≡ₚ elements ids ∧
               Exists (getCall name account (Some sent)) calls) ∧
    (∀ account byType typeId (ids : gset string) name,
       recordsToRefresh q !! account = Some byType → byType !! typeId = Some ids →
       recordRefreshers registry !! typeId = Some (Named name) →
       ∃ sent, sent ≡ₚ elements ids ∧
               Exists (getCall name account (Some sent)) calls) ∧
    (∀ account (byType : gset string) typeId name,
       typesToFetch q !! account = Some byType → typeId ∈ byType →
       recordFetchers registry !! typeId = Some (Named name) →
       Exists (getCall name account None) calls) ∧
    (∀ account byType typeId state name,
       typesToRefresh q !! account = Some byType → byType !! typeId = Some state →
       recordRefreshers registry !! typeId = Some (Named name) →
       Exists (changesCall name account state) calls).
Proof. exact (makeRequest_phases registry q). Qed.

(** A registry with the fetcher and the refresher of one type, by name. *)
Definition mailRegistry : handlers :=
  {| recordFetchers := {[ "Email" := Named "Email" ]};
     recordRefreshers := {[ "Email" := Named "Email" ]};
     queryFetchers := ∅ |}.

Lemma orderly_mailRegistry : orderly mailRegistry.
Proof.
  split; [|split].
  - intros typeId fn Hfn. cbn in Hfn. by apply lookup_singleton_Some in Hfn as [_ ?].
  - intros typeId fn Hfn. cbn in Hfn. by apply lookup_singleton_Some in Hfn as [_ ?].
  - intros guid fn Hfn. cbn in Hfn. by rewrite lookup_empty in Hfn.
Defined.

Lemma handled_init registry : handled registry init.
Proof.
  unfold handled. cbn. repeat split; intros *; by rewrite lookup_empty.
Defined.

Lemma makeRequest_asks_all_witness :
  let q := withTypesToRefresh {[ "A1" := {[ "Email" := "s1" ]} ]} init in
  ∃ calls callbacks q',
    makeRequest mailRegistry q = Some (calls, callbacks, q') ∧
    sendQueue q `prefix_of` calls ∧
    callbackQueue q `prefix_of` callbacks ∧
    (sendQueue q' = [] ∧ callbackQueue q' = [] ∧ queriesToFetch q' = ∅ ∧
     typesToRefresh q' = ∅ ∧ recordsToRefresh q' = ∅ ∧ typesToFetch q' = ∅ ∧
     recordsToFetch q' = ∅) ∧
    (∀ account byType typeId (ids : gset string) name,
       recordsToFetch q !! account = Some byType → byType !! typeId = Some ids →
       recordFetchers mailRegistry !! typeId = Some (Named name) →
       ∃ sent, sent ≡ₚ elements ids ∧
               Exists (getCall name account (Some sent)) calls) ∧
    (∀ account byType typeId (ids : gset string) name,
       recordsToRefresh q !! account = Some byType → byType !! typeId = Some ids →
       recordRefreshers mailRegistry !! typeId = Some (Named name) →
       ∃ sent, sent ≡ₚ elements ids ∧
               Exists (getCall name account (Some sent)) calls) ∧
    (∀ account (byType : gset string) typeId name,
       typesToFetch q !! account = Some byType → typeId ∈ byType →
       recordFetchers mailRegistry !! typeId = Some (Named name) →
       Exists (getCall name account None) calls) ∧
    (∀ account byType typeId state name,
       typesToRefresh q !! account = Some byType → byType !! typeId = Some state →
       recordRefreshers mailRegistry !! typeId = Some (Named name) →
       Exists (changesCall name account state) calls).
Proof.
  apply (makeRequest_asks_all mailRegistry
           (withTypesToRefresh {[ "A1" := {[ "Email" := "s1" ]} ]} init)).
  - exact orderly_mailRegistry.
  - split; [|apply (handled_init mailRegistry)].
    intros account byType typeId state Haccount Htype. cbn in Haccount.
    apply lookup_singleton_Some in Haccount as [_ <-].
    apply lookup_singleton_Some in Htype as [<- _]. by eexists.
Defined.

(** ** [_fetchRecords], then [makeRequest] *)

Lemma usable_is_Some h : usable h = true → is_Some h.
Proof. destruct h; [by eexists|done]. Qed.

Lemma handled_addIds (handlers_ : gmap string handler) account typeId ids
    (reqs : gmap string (gmap string (gset string))) :
  is_Some (handlers_ !! typeId) →
  (∀ a byType t (s : gset string),
     reqs !! a = Some byType → byType !! t = Some s → is_Some (handlers_ !! t)) →
  ∀ a byType t (s : gset string),
    addIds account typeId ids reqs !! a = Some byType → byType !! t = Some s →
    is_Some (handlers_ !! t).
Proof.
  intros Hnew Hold a byType t s Ha Ht. unfold addIds in Ha.
  destruct (decide (a = account)) as [->|Hne].
  - rewrite lookup_insert_eq in Ha. injection Ha as <-.
    destruct (decide (t = typeId)) as [->|Hnt]; [done|].
    rewrite lookup_insert_ne in Ht by done.
    destruct (reqs !! account) as [b|] eqn:Hb; cbn in Ht; [by eapply Hold|].
    by rewrite lookup_empty in Ht.
  - rewrite lookup_insert_ne in Ha by done. by eapply Hold.
Qed.

Lemma handled_recordsToRefresh registry account typeId ids q :
  is_Some (recordRefreshers registry !! typeId) → handled registry q →
  handled registry
    (withRecordsToRefresh (addIds account typeId ids (recordsToRefresh q)) q).
Proof.
  intros Hnew (Ha & Hb & Hc & Hd). split; [done|]. split; [|done].
  by apply handled_addIds.
Qed.

Lemma handled_recordsToFetch registry account typeId ids q :
  is_Some (recordFetchers registry !! typeId) → handled registry q →
  handled registry
    (withRecordsToFetch (addIds account typeId ids (recordsToFetch q)) q).
Proof.
  intros Hnew (Ha & Hb & Hc & Hd). split; [done|]. split; [done|].
  split; [done|]. by apply handled_addIds.
Qed.

Lemma handled_typesToRefresh registry account typeId state q :
  is_Some (recordRefreshers registry !! typeId) → handled registry q →
  handled registry
    (withTypesToRefresh
       (<[account := <[typeId := state]>
                       (default ∅ (typesToRefresh q !! account))]>
          (typesToRefresh q)) q).
Proof.
  intros Hnew (Ha & Hb & Hc & Hd). split; [|done].
  cbn. intros a byType t s Hx Ht.
  destruct (decide (a = account)) as [->|Hne].
  - rewrite lookup_insert_eq in Hx. injection Hx as <-.
    destruct (decide (t = typeId)) as [->|Hnt]; [done|].
    rewrite lookup_insert_ne in Ht by done.
    destruct (typesToRefresh q !! account) as [b|] eqn:Hb'; cbn in Ht;
      [by eapply Ha|by rewrite lookup_empty in Ht].
  - rewrite lookup_insert_ne in Hx by done. by eapply Ha.
Qed.

Lemma handled_typesToFetch registry account typeId q :
  is_Some (recordFetchers registry !! typeId) → handled registry q →
  handled registry
    (withTypesToFetch
       (<[account := {[ typeId ]} ∪ default ∅ (typesToFetch q !! account)]>
          (typesToFetch q)) q).
Proof.
  intros Hnew (Ha & Hb & Hc & Hd). split; [done|]. split; [done|].
  split; [|done]. cbn. intros a byType t Hx Ht.
  destruct (decide (a = account)) as [->|Hne].
  - rewrite lookup_insert_eq in Hx. injection Hx as <-.
    apply elem_of_union in Ht as [Ht|Ht].
    + by apply elem_of_singleton in Ht as ->.
    + destruct (typesToFetch q !! account) as [b|] eqn:Hb'; cbn in Ht;
        [by eapply Hc|by apply elem_of_empty in Ht].
  - rewrite lookup_insert_ne in Hx by done. by eapply Hc.
Qed.

(** Every pending type stays handled through [_fetchRecords]. *)
Lemma handled_fetchRecords registry account typeId ids callback state refresh q :
  handled registry q →
  handled registry
    (_fetchRecords registry account typeId ids callback state refresh q).1.
Proof.
  intros Hq. unfold _fetchRecords.
  set (h := if refresh then recordRefreshers registry !! typeId
            else recordFetchers registry !! typeId).
  set (fallBack := refresh && negb (usable h)).
  set (h' := if fallBack then recordFetchers registry !! typeId else h).
  destruct (usable h') eqn:Hh'; cbn [negb]; [|done].
  apply usable_is_Some in Hh'. cbn [fst].
  match goal with
  | |- handled _ (askSend ?q2) =>
      apply (handled_pending registry q2); [done..|]
  end.
  match goal with
  | |- handled _ (match callback with Some _ => withQueues _ _ ?q1 | None => _ end) =>
      apply (handled_pending registry q1); [by destruct callback..|]
  end.
  destruct refresh; cbn [andb] in *.
  - destruct (usable h) eqn:Hh; cbn [negb] in *; subst fallBack h' h.
    + destruct ids; [by apply handled_recordsToRefresh|by apply handled_typesToRefresh].
    + destruct ids; [by apply handled_recordsToFetch|by apply handled_typesToFetch].
  - subst fallBack h' h.
    destruct ids; [by apply handled_recordsToFetch|by apply handled_typesToFetch].
Qed.

(** The ids pending for the records of a type of an account. *)
Definition pendingIds (reqs : gmap string (gmap string (gset string)))
    (account typeId : string) : gset string :=
  default ∅ (default ∅ (reqs !! account) !! typeId).

(** X12. A record asked for with [fetchRecord], for a type whose fetcher is
    a type name, is asked of the server by the next [makeRequest]: the
    request has a [<name>/get] call for the account whose ids are the id and
    the ids already pending for that type and account, each once; a callback
    given with it is among the callbacks of the request.  The account and
    the type are not names that objects inherit, and the id is not
    [__proto__]. *)
Theorem fetchRecord_asked (registry : handlers) (account typeId id name : string)
    (callback : option nat) (q : queues) :
  orderly registry → handled registry q →
  recordFetchers registry !! typeId = Some (Named name) → name ≠ "" →
  inherited account = false → inherited typeId = false → id ≠ "__proto__" →
  ∃ q1 calls callbacks q' ids,
    fetchRecord registry account typeId id callback q = (q1, true) ∧
    makeRequest registry q1 = Some (calls, callbacks, q') ∧
    Exists (getCall name account (Some ids)) calls ∧
    NoDup ids ∧
    (∀ id', id' ∈ ids ↔
            id' = id ∨ id' ∈ pendingIds (recordsToFetch q) account typeId) ∧
    (∀ fn, callback = Some fn → (None, fn) ∈ callbacks).
Proof.
  intros Horderly Hhandled Hname Hne _ _ Hid.
  pose proof (handled_fetchRecords registry account typeId (Some [id]) callback
                "" false q Hhandled) as Hh1.
  unfold fetchRecord in *. unfold _fetchRecords in *. rewrite Hname in *.
  cbn [usable andb negb] in *. rewrite bool_decide_eq_false_2 in * by done.
  cbn [negb fst] in *.
  set (q1 := askSend _) in *.
  destruct (makeRequest_phases registry q1 Horderly Hh1)
    as (calls & callbacks & q' & Hrun & _ & Hcb & _ & Hfetch & _).
  destruct (Hfetch account
              (<[typeId := pendingIds (recordsToFetch q) account typeId ∪ {[ id ]}]>
                 (default ∅ (recordsToFetch q !! account)))
              typeId (pendingIds (recordsToFetch q) account typeId ∪ {[ id ]})
              name) as (ids & Hids & Hcall); [| |exact Hname|].
  { subst q1. unfold addIds.
    rewrite filter_cons_True, filter_nil by done.
    destruct callback; cbn; rewrite lookup_insert_eq; unfold pendingIds;
      do 3 f_equal; cbn; by rewrite (right_id_L ∅ (∪)). }
  { apply lookup_insert_eq. }
  exists q1, calls, callbacks, q', ids.
  split; [done|]. split; [done|]. split; [done|].
  split; [rewrite Hids; apply NoDup_elements|]. split.
  - intros id'. rewrite Hids, elem_of_elements, elem_of_union, elem_of_singleton.
    tauto.
  - intros fn ->. eapply elem_of_prefix; [|exact Hcb].
    subst q1. cbn. apply elem_of_app. right. left.
Qed.

Lemma fetchRecord_asked_witness :
  ∃ q1 calls callbacks q' ids,
    fetchRecord mailRegistry "A1" "Email" "m7" (Some 3) init = (q1, true) ∧
    makeRequest mailRegistry q1 = Some (calls, callbacks, q') ∧
    Exists (getCall "Email" "A1" (Some ids)) calls ∧
    NoDup ids ∧
    (∀ id', id' ∈ ids ↔
            id' = "m7" ∨ id' ∈ pendingIds (recordsToFetch init) "A1" "Email") ∧
    (∀ fn, Some 3 = Some fn → (None, fn) ∈ callbacks).
Proof.
  apply (fetchRecord_asked mailRegistry "A1" "Email" "m7" "Email" (Some 3) init).
  - exact orderly_mailRegistry.
  - apply handled_init.
  - reflexivity.
  - discriminate.
  - reflexivity.
  - reflexivity.
  - discriminate.
Defined.

(** X13. [hasRequests] overlooks a fetch of all the records of a type.  With
    nothing in flight, nothing queued and no query or record pending, after
    [fetchAllRecords] without a state, for a type whose fetcher is a type
    name, [hasRequests] still answers [false], although the next
    [makeRequest] holds the [<name>/get] call that fetches them all.  The
    account is not a name that objects inherit, and the type is not
    [__proto__]. *)
Theorem hasRequests_overlooks_types (registry : handlers) (conn : connection)
    (account typeId name : string) (callback : option nat) (q : queues) :
  orderly registry → handled registry q →
  recordFetchers registry !! typeId = Some (Named name) → name ≠ "" →
  inherited account = false → typeId ≠ "__proto__" →
  inFlightRemoteCalls conn = None → hasRequests conn q = false →
  ∃ q1 calls callbacks q',
    fetchAllRecords registry account typeId None callback q = (q1, true) ∧
    hasRequests conn q1 = false ∧
    makeRequest registry q1 = Some (calls, callbacks, q') ∧
    Exists (getCall name account None) calls.
Proof.
  intros Horderly Hhandled Hname Hne _ _ Hflight Hnone.
  pose proof (handled_fetchRecords registry account typeId None callback
                "" false q Hhandled) as Hh1.
  unfold fetchAllRecords in *. cbn [default from_option id] in *.
  rewrite bool_decide_eq_true_2 in * by done. cbn [negb] in *.
  unfold _fetchRecords in *. rewrite Hname in *.
  cbn [usable andb negb] in *. rewrite bool_decide_eq_false_2 in * by done.
  cbn [negb fst] in *.
  set (q1 := askSend _) in *.
  destruct (makeRequest_phases registry q1 Horderly Hh1)
    as (calls & callbacks & q' & Hrun & _ & _ & _ & _ & _ & Htypes & _).
  exists q1, calls, callbacks, q'. split; [done|]. split.
  - subst q1. unfold hasRequests in *. rewrite Hflight in *.
    by destruct callback.
  - split; [done|]. eapply Htypes; [| |exact Hname].
    + subst q1. destruct callback; cbn; apply lookup_insert_eq.
    + apply elem_of_union. left. by apply elem_of_singleton.
Qed.

Lemma hasRequests_overlooks_types_witness :
  let idle := {| willRetry := false; inFlightRemoteCalls := None;
                 inFlightCallbacks := None; inFlightContext := None |} in
  ∃ q1 calls callbacks q',
    fetchAllRecords mailRegistry "A1" "Email" None None init = (q1, true) ∧
    hasRequests idle q1 = false ∧
    makeRequest mailRegistry q1 = Some (calls, callbacks, q') ∧
    Exists (getCall "Email" "A1" None) calls.
Proof.
  apply (hasRequests_overlooks_types mailRegistry
           {| willRetry := false; inFlightRemoteCalls := None;
              inFlightCallbacks := None; inFlightContext := None |}
           "A1" "Email" "Email" None init).
  - exact orderly_mailRegistry.
  - apply handled_init.
  - reflexivity.
  - discriminate.
  - reflexivity.
  - discriminate.
  - reflexivity.
  - reflexivity.
Defined.

(** ** A [/set] request that failed as a whole *)

Lemma allFailed_lookup args keys key :
  allFailed args keys !! key =
  if decide (key ∈ keys ∧ key ≠ "__proto__") then Some args else None.
Proof.
  unfold allFailed.
  assert (∀ object : gmap string json,
    foldl (λ object key, put key args object) object keys !! key =
    if decide (key ∈ keys ∧ key ≠ "__proto__") then Some args
    else object !! key) as H.
  { induction keys as [|k keys IH]; intros object.
    { cbn. rewrite decide_False; [done|]. by intros [?%elem_of_nil _]. }
    cbn [foldl]. rewrite IH.
    destruct (decide (key ∈ keys ∧ key ≠ "__proto__")) as [[Hin Hkey]|Hnotin].
    - rewrite decide_True; [done|]. split; [by right|done].
    - destruct (decide (key = k ∧ key ≠ "__proto__")) as [[-> Hkey]|Hne].
      + rewrite decide_True by (split; [left|done]). by apply lookup_put_eq.
      + rewrite decide_False.
        * destruct (decide (key = k)) as [->|Hk]; [|by apply lookup_put_ne].
          unfold put. rewrite bool_decide_eq_true_2; [done|].
          destruct (decide (k = "__proto__")); [done|]. by destruct Hne.
        * intros [[->|Hin]%elem_of_cons Hkey]; [by apply Hne|by apply Hnotin]. }
  rewrite H. by case_decide.
Qed.

Lemma allFailed_keys args keys key :
  key ∈ Object_keys (allFailed args keys) ↔ key ∈ keys ∧ key ≠ "__proto__".
Proof.
  unfold Object_keys. rewrite list_elem_of_fmap. split.
  - intros ([k v] & -> & Hin). apply elem_of_map_to_list in Hin.
    rewrite allFailed_lookup in Hin. by case_decide.
  - intros Hin. exists (key, args). split; [done|].
    apply elem_of_map_to_list. rewrite allFailed_lookup. by rewrite decide_True.
Qed.

Lemma allFailed_values args keys :
  Forall (λ error, error = args) (Object_values (allFailed args keys)).
Proof.
  unfold Object_values. apply Forall_forall. intros v Hv.
  apply list_elem_of_fmap in Hv as ([k v'] & -> & Hin).
  apply elem_of_map_to_list in Hin. rewrite allFailed_lookup in Hin.
  cbn. case_decide; congruence.
Qed.

(** A call that tells the store of records not created, not updated or not
    destroyed, for good, each with the error [args]. *)
Definition reportsFailure (args : json) (call : storeCall) : Prop :=
  match call with
  | SourceDidNotCreate _ isPermanent errors
  | SourceDidNotUpdate _ isPermanent errors =>
      isPermanent = true ∧ Forall (λ error, error = args) errors
  | SourceDidNotDestroy _ isPermanent (Some errors) =>
      isPermanent = true ∧ Forall (λ error, error = args) errors
  | _ => False
  end.

Lemma Object_keys_nil {A} (object : gmap string A) :
  Object_keys object = [] → ∀ key, object !! key = None.
Proof.
  unfold Object_keys. intros Hnil key.
  apply fmap_nil_inv, map_to_list_empty_iff in Hnil. subst. apply lookup_empty.
Qed.

(** X14. When a [/set] request fails with a method-level error, [error_/set]
    and the response handler of the request tell the store nothing but
    failures, each for good and with that error: every record to create is
    reported as not created, every record to update as not updated and every
    record to destroy as not destroyed, but for a store key or an id
    [__proto__], under which [error_/set] files nothing. *)
Theorem set_error_fails_every_record
    (getStoreKey : option string → string → string) (args : json)
    (requestArgs : setArgs) :
  let calls := error_set getStoreKey true args requestArgs in
  let toStoreKey := getStoreKey (Some (sa_accountId requestArgs)) in
  Forall (reportsFailure args) calls ∧
  (∀ create storeKey,
     sa_create requestArgs = Some create → is_Some (create !! storeKey) →
     storeKey ≠ "__proto__" →
     ∃ storeKeys errors,
       SourceDidNotCreate storeKeys true errors ∈ calls ∧ storeKey ∈ storeKeys) ∧
  (∀ update id,
     sa_update requestArgs = Some update → is_Some (update !! id) →
     id ≠ "__proto__" →
     ∃ storeKeys errors,
       SourceDidNotUpdate storeKeys true errors ∈ calls ∧
       toStoreKey id ∈ storeKeys) ∧
  (∀ destroy id,
     sa_destroy requestArgs = Some destroy → id ∈ destroy →
     id ≠ "__proto__" →
     ∃ storeKeys errors,
       SourceDidNotDestroy storeKeys true errors ∈ calls ∧
       toStoreKey id ∈ storeKeys).
Proof.
  intros calls toStoreKey. subst calls.
  unfold error_set, didCommit, error_set_fakeArgs.
  cbn [created notCreated updated notUpdated destroyed notDestroyed newState
       r_accountId app].
  fold toStoreKey.
  set (c := match (λ create : gmap string json, _) <$> sa_create requestArgs with
            | Some object => _ | None => [] end).
  set (u := match (λ update : gmap string (gmap string json), _) <$>
                  sa_update requestArgs with
            | Some object => _ | None => [] end).
  set (d := match allFailed args <$> sa_destroy requestArgs with
            | Some object => _ | None => [] end).
  rewrite app_nil_r.
  assert (Forall (reportsFailure args) c ∧
          ∀ create storeKey,
            sa_create requestArgs = Some create → is_Some (create !! storeKey) →
            storeKey ≠ "__proto__" →
            ∃ storeKeys errors,
              SourceDidNotCreate storeKeys true errors ∈ c ∧ storeKey ∈ storeKeys)
    as [Hc1 Hc2].
  { subst c. destruct (sa_create requestArgs) as [create|]; cbn [fmap option_fmap option_map];
      [|split; [constructor|intros ?? [=]]].
    destruct (Object_keys (allFailed args (Object_keys create))) as [|k l] eqn:Hk.
    - split; [constructor|]. intros ? storeKey [= <-] [v Hv] Hproto. exfalso.
      assert (storeKey ∈ Object_keys (allFailed args (Object_keys create))) as Hin.
      { apply allFailed_keys. split; [|done]. unfold Object_keys.
        apply list_elem_of_fmap.
        exists (storeKey, v). split; [done|]. by apply elem_of_map_to_list. }
      rewrite Hk in Hin. by apply elem_of_nil in Hin.
    - split.
      + repeat constructor. apply allFailed_values.
      + intros ? storeKey [= <-] [v Hv] Hproto. eexists _, _. split; [left|].
        rewrite <- Hk. apply allFailed_keys. split; [|done]. unfold Object_keys.
        apply list_elem_of_fmap. exists (storeKey, v). split; [done|].
        by apply elem_of_map_to_list. }
  assert (Forall (reportsFailure args) u ∧
          ∀ update id,
            sa_update requestArgs = Some update → is_Some (update !! id) →
            id ≠ "__proto__" →
            ∃ storeKeys errors,
              SourceDidNotUpdate storeKeys true errors ∈ u ∧
              toStoreKey id ∈ storeKeys)
    as [Hu1 Hu2].
  { subst u. destruct (sa_update requestArgs) as [update|]; cbn [fmap option_fmap option_map];
      [|split; [constructor|intros ?? [=]]].
    destruct (Object_keys (allFailed args (Object_keys update))) as [|k l] eqn:Hk.
    - split; [constructor|]. intros ? id [= <-] [v Hv] Hproto. exfalso.
      assert (id ∈ Object_keys (allFailed args (Object_keys update))) as Hin.
      { apply allFailed_keys. split; [|done]. unfold Object_keys.
        apply list_elem_of_fmap.
        exists (id, v). split; [done|]. by apply elem_of_map_to_list. }
      rewrite Hk in Hin. by apply elem_of_nil in Hin.
    - split.
      + repeat constructor. apply allFailed_values.
      + intros ? id [= <-] [v Hv] Hproto. eexists _, _. split; [left|].
        apply list_elem_of_fmap. exists id. split; [done|].
        rewrite <- Hk. apply allFailed_keys. split; [|done]. unfold Object_keys.
        apply list_elem_of_fmap. exists (id, v). split; [done|].
        by apply elem_of_map_to_list. }
  assert (Forall (reportsFailure args) d ∧
          ∀ destroy id,
            sa_destroy requestArgs = Some destroy → id ∈ destroy →
            id ≠ "__proto__" →
            ∃ storeKeys errors,
              SourceDidNotDestroy storeKeys true errors ∈ d ∧
              toStoreKey id ∈ storeKeys)
    as [Hd1 Hd2].
  { subst d. destruct (sa_destroy requestArgs) as [destroy|]; cbn [fmap option_fmap option_map];
      [|split; [constructor|intros ?? [=]]].
    destruct (Object_keys (allFailed args destroy)) as [|k l] eqn:Hk.
    - split; [constructor|]. intros ? id [= <-] Hid Hproto. exfalso.
      assert (id ∈ Object_keys (allFailed args destroy)) as Hin
        by (by apply allFailed_keys).
      rewrite Hk in Hin. by apply elem_of_nil in Hin.
    - split.
      + repeat constructor. apply allFailed_values.
      + intros ? id [= <-] Hid Hproto. eexists _, _. split; [left|].
        apply list_elem_of_fmap. exists id. split; [done|].
        rewrite <- Hk. by apply allFailed_keys. }
  split; [by rewrite !Forall_app|].
  split; [|split].
  - intros create storeKey Hc Hs Hproto.
    destruct (Hc2 create storeKey Hc Hs Hproto) as (storeKeys & errors & Hin & ?).
    exists storeKeys, errors. split; [|done]. rewrite !elem_of_app. tauto.
  - intros update id Hu Hs Hproto.
    destruct (Hu2 update id Hu Hs Hproto) as (storeKeys & errors & Hin & ?).
    exists storeKeys, errors. split; [|done]. rewrite !elem_of_app. tauto.
  - intros destroy id Hd Hs Hproto.
    destruct (Hd2 destroy id Hd Hs Hproto) as (storeKeys & errors & Hin & ?).
    exists storeKeys, errors. split; [|done]. rewrite !elem_of_app. tauto.
Qed.

(** ** [error_/get]: no record of a failed fetch stays loading *)

Lemma toInt32_small n : (- 2 ^ 31 ≤ n < 2 ^ 31)%Z → toInt32 n = n.
Proof. intros Hn. unfold toInt32. rewrite Z.mod_small; lia. Qed.

Lemma ldiff_bounds s L : (0 ≤ s)%Z → (0 ≤ L)%Z → (0 ≤ Z.ldiff s L ≤ s)%Z.
Proof.
  intros Hs HL. split; [apply Z.ldiff_nonneg; by left|].
  assert (Z.ldiff s L + Z.land s L = s)%Z as H.
  { rewrite <- (Z.lor_ldiff_and s L) at 3. rewrite <- Z.add_lor_land.
    replace (Z.land (Z.ldiff s L) (Z.land s L)) with 0%Z; [lia|].
    symmetry. apply Z.bits_inj'. intros n Hn.
    rewrite Z.land_spec, Z.ldiff_spec, Z.land_spec, Z.bits_0.
    by destruct (Z.testbit s n), (Z.testbit L n). }
  pose proof (proj2 (Z.land_nonneg s L) (or_introl Hs)). lia.
Qed.

Lemma bitAnd_bitNot s L :
  (0 ≤ s < 2 ^ 31)%Z → (0 ≤ L < 2 ^ 31)%Z →
  bitAnd s (bitNot L) = Z.ldiff s L.
Proof.
  intros Hs HL. unfold bitAnd, bitNot.
  rewrite (toInt32_small L) by lia.
  assert (Z.lnot L = - L - 1)%Z as Hnot by (unfold Z.lnot; lia).
  rewrite (toInt32_small (Z.lnot L)) by lia.
  rewrite (toInt32_small (Z.lnot L)) by lia.
  rewrite (toInt32_small s) by lia.
  rewrite <- Z.ldiff_land. apply toInt32_small.
  pose proof (ldiff_bounds s L). lia.
Qed.

(** X15. [error_/get] clears the bits of [LOADING] in the status of every
    record the failed request asked for, and changes no other bit and no
    other record; statuses are small non-negative numbers. *)
Theorem error_get_clears_loading (LOADING : Z)
    (getStoreKey : option string → option string → string → string)
    (typeIdToType : gmap string string) (typeName : string)
    (ids : list string) (account : option string) (status : string → Z) :
  (0 ≤ LOADING < 2 ^ 31)%Z → (∀ key, 0 ≤ status key < 2 ^ 31)%Z →
  JS.indexOf "/" typeName = (-1)%Z →
  ∀ key,
    error_get LOADING getStoreKey typeIdToType (typeName +:+ "/get") (Some ids)
      account status key =
    if decide (key ∈ getStoreKey account (typeIdToType !! typeName) <$> ids)
    then Z.ldiff (status key) LOADING else status key.
Proof.
  intros HL Hstatus Hname. unfold error_get.
  change (typeName +:+ "/get") with (typeName +:+ String "/" "get").
  rewrite indexOf_append_separator by done. rewrite slice_prefix.
  set (toKey := getStoreKey account (typeIdToType !! typeName)).
  assert (∀ (done_ : list string) (current : string → Z),
    (∀ key, current key =
       if decide (key ∈ toKey <$> done_)
       then Z.ldiff (status key) LOADING else status key) →
    ∀ key,
      foldl (λ (status : string → Z) id,
          let storeKey := toKey id in
          let cleared := bitAnd (status storeKey) (bitNot LOADING) in
          λ key, if decide (key = storeKey) then cleared else status key)
        current ids key =
      if decide (key ∈ toKey <$> (done_ ++ ids))
      then Z.ldiff (status key) LOADING else status key) as Hloop.
  { induction ids as [|id ids IH]; intros done_ current Hcurrent key.
    - by rewrite app_nil_r.
    - cbn [foldl]. rewrite (IH (done_ ++ [id])).
      + by rewrite <- (assoc_L (++)).
      + intros k. cbn zeta. rewrite fmap_app. cbn [fmap list_fmap].
        destruct (decide (k = toKey id)) as [->|Hne].
        * rewrite decide_True by (apply elem_of_app; right; left).
          rewrite Hcurrent. case_decide.
          -- rewrite bitAnd_bitNot; [|pose proof (ldiff_bounds (status (toKey id))
                LOADING); specialize (Hstatus (toKey id)); lia|done].
             rewrite Z.ldiff_ldiff_l, Z.lor_diag. done.
          -- by apply bitAnd_bitNot.
        * rewrite Hcurrent. destruct (decide (k ∈ toKey <$> done_)) as [Hin|Hnot].
          -- rewrite decide_True; [done|]. apply elem_of_app. by left.
          -- rewrite decide_False; [done|].
             intros [?|Hk%list_elem_of_singleton]%elem_of_app; done. }
  intros key. apply (Hloop [] status). intros k. by rewrite decide_False by apply not_elem_of_nil.
Qed.

Lemma error_get_clears_loading_witness :
  let toStoreKey (account type : option string) (id : string) := "sk-" +:+ id in
  let status (key : string) := 17%Z in
  let after :=
    error_get 16 toStoreKey {[ "Email" := "Message" ]} ("Email" +:+ "/get")
      (Some ["m7"]) (Some "A1") status in
  after "sk-m7" = 1%Z ∧ after "sk-m8" = 17%Z.
Proof.
  assert (0 ≤ 16 < 2 ^ 31)%Z as Hloading by lia.
  assert (∀ key : string, 0 ≤ 17 < 2 ^ 31)%Z as Hstatus by (intros _; lia).
  split.
  - exact (error_get_clears_loading 16 (λ _ _ id, "sk-" +:+ id)
             {[ "Email" := "Message" ]} "Email" ["m7"] (Some "A1") (λ _, 17%Z)
             Hloading Hstatus eq_refl "sk-m7").
  - exact (error_get_clears_loading 16 (λ _ _ id, "sk-" +:+ id)
             {[ "Email" := "Message" ]} "Email" ["m7"] (Some "A1") (λ _, 17%Z)
             Hloading Hstatus eq_refl "sk-m8").
Defined.

Section OverridesFacts.

Variable getOccurrences : Calendar.recurrenceRule → Z → list Z.
Variable toJSON : Z → string.
Variable fromJSON : string → Z.

(** Dates survive the trip through their JSON form, and the ids of the
    overrides are in the form [toJSON] writes. *)
Definition canonical (overrides : gmap string (gmap string json)) : Prop :=
  (∀ date, fromJSON (toJSON date) = date) ∧
  (∀ id, is_Some (overrides !! id) → toJSON (fromJSON id) = id).

Lemma removedDates_elem (overrides : gmap string (gmap string json)) :
  let dates :=
    foldl (λ (dates : option (list Z)) (override : string * gmap string json),
        if Calendar.excluded override.2
        then Some (default [] dates ++ [fromJSON override.1])
        else dates)
      None (map_to_list overrides) in
  ∀ date, date ∈ default [] dates ↔
    ∃ id patch, overrides !! id = Some patch ∧
                Calendar.excluded patch = true ∧ fromJSON id = date.
Proof.
  cbn zeta. intros date.
  assert (∀ l (acc : option (list Z)),
    date ∈ default []
      (foldl (λ (dates : option (list Z)) (override : string * gmap string json),
          if Calendar.excluded override.2
          then Some (default [] dates ++ [fromJSON override.1])
          else dates) acc l) ↔
    date ∈ default [] acc ∨
    ∃ id patch, (id, patch) ∈ l ∧ Calendar.excluded patch = true ∧
                fromJSON id = date) as H.
  { induction l as [|[id patch] l IH]; intros acc.
    - cbn. split; [by left|]. intros [?|(? & ? & []%elem_of_nil & _)]. done.
    - cbn [foldl fst snd]. rewrite IH. clear IH.
      destruct (Calendar.excluded patch) eqn:He; simpl default.
      + rewrite elem_of_app, list_elem_of_singleton. split.
        * intros [[? | ->] | (i & p & Hin & ?)]; [by left| |].
          -- right. exists id, patch. split; [left|done].
          -- right. exists i, p. split; [by right|done].
        * intros [?|(i & p & [[= -> ->]|Hin]%elem_of_cons & Hex & Hd)].
          -- by left; left.
          -- left; by right.
          -- right. by exists i, p.
      + split.
        * intros [?|(i & p & Hin & ?)]; [by left|].
          right. exists i, p. split; [by right|done].
        * intros [?|(i & p & [[= -> ->]|Hin]%elem_of_cons & Hex & Hd)].
          -- by left.
          -- congruence.
          -- right. by exists i, p. }
  rewrite H. cbn. split.
  - intros [[]%elem_of_nil|(id & patch & Hin & ?)]. exists id, patch.
    split; [by apply elem_of_map_to_list|done].
  - intros (id & patch & Hin & ?). right. exists id, patch.
    split; [by apply elem_of_map_to_list|done].
Qed.


Lemma removedDates_None (overrides : gmap string (gmap string json)) :
  Occurrences.removedDates fromJSON (Some overrides) = None ↔
  ∀ id patch, overrides !! id = Some patch → Calendar.excluded patch = false.
Proof.
  unfold Occurrences.removedDates.
  pose proof (removedDates_elem overrides) as Helem. cbn zeta in Helem.
  set (body := λ (dates : option (list Z)) (override : string * gmap string json),
                 if Calendar.excluded override.2
                 then Some (default [] dates ++ [fromJSON override.1])
                 else dates) in *.
  assert (∀ l acc, foldl body acc l = None ↔
            acc = None ∧ ∀ id patch, (id, patch) ∈ l →
                           Calendar.excluded patch = false) as H.
  { induction l as [|[id patch] l IH]; intros acc.
    - cbn. split; [intros ->; split; [done|]; by intros ?? []%elem_of_nil|by intros [-> _]].
    - cbn [foldl]. rewrite IH. unfold body at 1. cbn [fst snd].
      destruct (Calendar.excluded patch) eqn:He.
      + split; [by intros [[=] _]|]. intros [_ Hall].
        rewrite (Hall id patch) in He by left. done.
      + split.
        * intros [-> Hall]. split; [done|].
          intros i p [[= -> ->]|Hin]%elem_of_cons; [done|by eapply Hall].
        * intros [-> Hall]. split; [done|]. intros i p Hin. eapply Hall. by right. }
  rewrite fmap_None, H. split.
  - intros [_ Hall] id patch Hin. eapply Hall. by apply elem_of_map_to_list.
  - intros Hall. split; [done|]. intros id patch Hin. eapply Hall.
    by apply elem_of_map_to_list.
Qed.

(** The rule, if any, ends: it has an [until] or a [count]. *)
Definition bounded (rule : option Calendar.recurrenceRule) : Prop :=
  match rule with
  | Some r => is_Some (Calendar.until r) ∨ Calendar.hasCount r = true
  | None => True
  end.

Lemma allStartDates_elem start rule (overrides : gmap string (gmap string json)) date :
  bounded rule →
  date ∈ Calendar.allStartDates getOccurrences toJSON fromJSON start rule
           (Some overrides) →
  ∃ id, fromJSON id = date ∧
        match overrides !! id with
        | Some patch => Calendar.excluded patch = false
        | None => ∃ d, id = toJSON d
        end.
Proof.
  intros Hbounded. unfold Calendar.allStartDates.
  assert (match rule with
          | Some r => negb (bool_decide (is_Some (Calendar.until r))) &&
                      negb (Calendar.hasCount r)
          | None => false
          end = false) as ->.
  { destruct rule as [r|]; [|done]. destruct Hbounded as [Hu| ->];
      [by rewrite bool_decide_eq_true_2|by rewrite andb_false_r]. }
  rewrite (Array_sort_Permutation Calendar.numerically), list_elem_of_fmap.
  intros (id & -> & Hid). exists id. split; [done|].
  apply elem_of_elements, elem_of_applyOverrides in Hid.
  destruct (overrides !! id); [done|].
  apply elem_of_list_to_set, list_elem_of_fmap in Hid as (d & -> & _). by exists d.
Qed.

End OverridesFacts.

(** X16. [removedDates] is [null] exactly when no override is excluded;
    otherwise it lists, in ascending order, the dates of the excluded
    overrides.  When dates survive the trip through their JSON form and the
    ids of the overrides are in that form, no removed date is among the
    start dates [allStartDates] gives for a rule that ends, or without a
    rule. *)
Theorem removedDates_spec
    (getOccurrences : Calendar.recurrenceRule → Z → list Z)
    (toJSON : Z → string) (fromJSON : string → Z)
    (start : Z) (rule : option Calendar.recurrenceRule)
    (overrides : gmap string (gmap string json)) :
  (Occurrences.removedDates fromJSON (Some overrides) = None ↔
   ∀ id patch, overrides !! id = Some patch → Calendar.excluded patch = false) ∧
  ∀ dates,
    Occurrences.removedDates fromJSON (Some overrides) = Some dates →
    Sorted Z.le dates ∧
    (∀ date, date ∈ dates ↔
       ∃ id patch, overrides !! id = Some patch ∧
                   Calendar.excluded patch = true ∧ fromJSON id = date) ∧
    (canonical toJSON fromJSON overrides → bounded rule →
     ∀ date, date ∈ dates →
       date ∉ Calendar.allStartDates getOccurrences toJSON fromJSON start rule
                (Some overrides)).
Proof.
  split; [apply removedDates_None|]. intros dates Hdates.
  pose proof (removedDates_elem fromJSON overrides) as Helem. cbn zeta in Helem.
  unfold Occurrences.removedDates in Hdates.
  destruct (foldl _ None (map_to_list overrides)) as [unsorted|]; [|done].
  injection Hdates as <-. cbn [default from_option] in Helem.
  assert (Hmem : ∀ date, date ∈ Array_sort Calendar.numerically unsorted ↔
            ∃ id patch, overrides !! id = Some patch ∧
                        Calendar.excluded patch = true ∧ fromJSON id = date).
  { intros date. rewrite (Array_sort_Permutation Calendar.numerically). apply Helem. }
  split; [apply Sorted_numerically|]. split; [exact Hmem|].
  intros [Hdate Hids] Hbounded date Hin Hstart.
  apply Hmem in Hin as (id & patch & Hid & Hex & <-).
  apply allStartDates_elem in Hstart as (id' & Heq & Hid'); [|done].
  assert (id' = id) as ->.
  { assert (toJSON (fromJSON id') = id') as <-.
    { destruct (overrides !! id') eqn:Hl; [by apply Hids|].
      destruct Hid' as [d ->]. by rewrite Hdate. }
    rewrite Heq. by apply Hids. }
  rewrite Hid in Hid'. congruence.
Qed.

(** ** Moving the start of a recurring event *)

Section MoveStart.

Variable toJSON : Z → string.
Variable fromJSON : string → Z.

Hypothesis fromJSON_toJSON : ∀ date, fromJSON (toJSON date) = date.

Let moved (delta : Z) (id : string) : string := toJSON (fromJSON id + delta).

Let shift (delta : Z) (overrides : list (string * gmap string json))
    (acc : gmap string (gmap string json)) : gmap string (gmap string json) :=
  foldl (λ (newRecurrenceOverrides : gmap string (gmap string json))
           (override : string * gmap string json),
      <[toJSON (fromJSON override.1 + delta) := override.2]>
        newRecurrenceOverrides) acc overrides.

Lemma shift_lookup delta (l : list (string * gmap string json)) :
  NoDup l.*1 →
  (∀ id, id ∈ l.*1 → toJSON (fromJSON id) = id) →
  ∀ acc,
    (∀ id patch, (id, patch) ∈ l → shift delta l acc !! moved delta id = Some patch) ∧
    (∀ key, (∀ id, id ∈ l.*1 → key ≠ moved delta id) →
       shift delta l acc !! key = acc !! key).
Proof.
  induction l as [|[id0 patch0] l IH]; intros Hnodup Hcanon acc.
  { split; [by intros ?? []%elem_of_nil|done]. }
  cbn in Hnodup. apply NoDup_cons in Hnodup as [Hnotin Hnodup].
  destruct (IH Hnodup (λ id Hid, Hcanon id ltac:(by right))
              (<[moved delta id0 := patch0]> acc)) as [IH1 IH2].
  split.
  - intros id patch [[= -> ->]|Hin]%elem_of_cons.
    + unfold shift in *. cbn [foldl fst snd]. rewrite IH2; [apply lookup_insert_eq|].
      intros id Hid Heq. apply Hnotin.
      assert (id0 = id) as ->; [|done].
      apply (f_equal fromJSON) in Heq. unfold moved in Heq.
      rewrite !fromJSON_toJSON in Heq.
      rewrite <- (Hcanon id0) by left. rewrite <- (Hcanon id) by (by right).
      f_equal. lia.
    + unfold shift in *. cbn [foldl fst snd]. by apply IH1.
  - intros key Hkey. unfold shift in *. cbn [foldl fst snd]. rewrite IH2.
    + apply lookup_insert_ne. symmetry. apply Hkey. left.
    + intros id Hid. apply Hkey. by right.
Qed.

Lemma shift_keys delta (l : list (string * gmap string json)) :
  ∀ acc key,
    is_Some (shift delta l acc !! key) →
    is_Some (acc !! key) ∨ ∃ id, id ∈ l.*1 ∧ key = moved delta id.
Proof.
  induction l as [|[id0 patch0] l IH]; intros acc key Hkey; [by left|].
  unfold shift in *. cbn [foldl fst snd] in Hkey.
  destruct (IH _ _ Hkey) as [Hacc|(id & Hid & ->)].
  - destruct (decide (key = moved delta id0)) as [->|Hne].
    + right. exists id0. split; [left|done].
    + left. by rewrite lookup_insert_ne in Hacc.
  - right. exists id. split; [by right|done].
Qed.

Lemma updateRecurrenceOverrides_lookup oldStart newStart
    (overrides moved_ : gmap string (gmap string json)) :
  (∀ id, is_Some (overrides !! id) → toJSON (fromJSON id) = id) →
  Occurrences.updateRecurrenceOverrides toJSON fromJSON oldStart newStart
    (Some overrides) = Some moved_ →
  (∀ id patch, overrides !! id = Some patch →
     moved_ !! moved (newStart - oldStart) id = Some patch) ∧
  (∀ key, is_Some (moved_ !! key) →
     ∃ id, is_Some (overrides !! id) ∧ key = moved (newStart - oldStart) id).
Proof.
  intros Hcanon [= <-].
  assert (∀ id, id ∈ (map_to_list overrides).*1 ↔ is_Some (overrides !! id)) as Hdom.
  { intros id. rewrite list_elem_of_fmap. split.
    - intros ([k v] & -> & Hin). apply elem_of_map_to_list in Hin. by exists v.
    - intros [v Hv]. exists (id, v). split; [done|]. by apply elem_of_map_to_list. }
  destruct (shift_lookup (newStart - oldStart) (map_to_list overrides)
              (NoDup_fst_map_to_list _)
              (λ id Hid, Hcanon id (proj1 (Hdom id) Hid)) ∅) as [H1 H2].
  split.
  - intros id patch Hid. apply H1. by apply elem_of_map_to_list.
  - intros key Hkey. apply shift_keys in Hkey as [Hempty|(id & Hid & ->)].
    + rewrite lookup_empty in Hempty. by destruct Hempty.
    + exists id. split; [by apply Hdom|done].
Qed.

End MoveStart.

(** X17. Moving the start of an event from [oldStart] to [newStart] moves
    every override by the same amount and keeps its patch; moving it back
    gives the overrides as they were.  Dates survive the trip through their
    JSON form and the ids of the overrides are in that form. *)
Theorem updateRecurrenceOverrides_round_trip
    (toJSON : Z → string) (fromJSON : string → Z) (oldStart newStart : Z)
    (overrides : gmap string (gmap string json)) :
  canonical toJSON fromJSON overrides →
  ∃ moved,
    Occurrences.updateRecurrenceOverrides toJSON fromJSON oldStart newStart
      (Some overrides) = Some moved ∧
    (∀ id patch, overrides !! id = Some patch →
       moved !! toJSON (fromJSON id + (newStart - oldStart))%Z = Some patch) ∧
    Occurrences.updateRecurrenceOverrides toJSON fromJSON newStart oldStart
      (Some moved) = Some overrides.
Proof.
  intros [Hdate Hids]. eexists. split; [reflexivity|].
  destruct (updateRecurrenceOverrides_lookup toJSON fromJSON Hdate oldStart newStart
              overrides _ Hids eq_refl) as [Hthere Honly].
  split; [exact Hthere|].
  set (moved := foldl _ ∅ (map_to_list overrides)) in *.
  assert (∀ key, is_Some (moved !! key) → toJSON (fromJSON key) = key) as Hcanon.
  { intros key Hkey. destruct (Honly key Hkey) as (id & _ & ->).
    by rewrite Hdate. }
  destruct (updateRecurrenceOverrides_lookup toJSON fromJSON Hdate newStart oldStart
              moved _ Hcanon eq_refl) as [Hback Hbackonly].
  cbn [Occurrences.updateRecurrenceOverrides]. f_equal.
  set (back := foldl _ ∅ (map_to_list moved)) in *.
  assert (∀ id, is_Some (overrides !! id) →
            toJSON (fromJSON (toJSON (fromJSON id + (newStart - oldStart))%Z) +
                    (oldStart - newStart))%Z = id) as Hround.
  { intros id Hid. rewrite Hdate.
    replace (fromJSON id + (newStart - oldStart) + (oldStart - newStart))%Z
      with (fromJSON id) by lia. by apply Hids. }
  apply map_eq. intros key. destruct (overrides !! key) as [patch|] eqn:Hkey.
  - rewrite <- (Hround key) by (by exists patch). apply Hback. by apply Hthere.
  - destruct (back !! key) as [patch|] eqn:Hb; [|done]. exfalso.
    destruct (Hbackonly key ltac:(by exists patch)) as (mid & Hmid & ->).
    destruct (Honly mid Hmid) as (id & Hid & ->).
    rewrite Hround in Hkey by done. rewrite Hkey in Hid. by destruct Hid.
Qed.

(** Dates counted in days and written as a sign and that many strokes. *)
Fixpoint strokes (n : nat) : string :=
  match n with
  | 0 => EmptyString
  | S n => String "|" (strokes n)
  end.

Definition tally (date : Z) : string :=
  String (if (date <? 0)%Z then "-" else "+")%char (strokes (Z.abs_nat date)).

Definition ofTally (id : string) : Z :=
  match id with
  | String "-" marks => (- Z.of_nat (String.length marks))%Z
  | String _ marks => Z.of_nat (String.length marks)
  | EmptyString => 0%Z
  end.

Lemma ofTally_tally date : ofTally (tally date) = date.
Proof.
  assert (∀ n, String.length (strokes n) = n) as Hlength.
  { induction n as [|n IH]; [done|]. cbn. by rewrite IH. }
  unfold tally, ofTally. destruct (Z.ltb_spec date 0); rewrite Hlength; lia.
Defined.

Lemma updateRecurrenceOverrides_round_trip_witness :
  let overrides : gmap string (gmap string json) :=
    {[ "+||" := {[ "title" := JStr "Moved" ]} ]} in
  ∃ moved,
    Occurrences.updateRecurrenceOverrides tally ofTally 1 4 (Some overrides) =
      Some moved ∧
    (∀ id patch, overrides !! id = Some patch →
       moved !! tally (ofTally id + (4 - 1))%Z = Some patch) ∧
    Occurrences.updateRecurrenceOverrides tally ofTally 4 1 (Some moved) =
      Some overrides.
Proof.
  apply (updateRecurrenceOverrides_round_trip tally ofTally 1 4
           {[ "+||" := {[ "title" := JStr "Moved" ]} ]}).
  split; [exact ofTally_tally|].
  intros id [patch Hid]. by apply lookup_singleton_Some in Hid as [<- _].
Defined.

(** ** Body parts *)

Section BodyPartsFacts.

Import BodyParts.

Lemma bodyPart_subParts_ind (P : bodyPart → Prop) :
  (∀ part, Forall P (subParts part) → P part) → ∀ part, P part.
Proof.
  intros Hstep.
  refine (fix go (part : bodyPart) : P part := _).
  apply Hstep. destruct part as [pid ty d n inl subs]. cbn [subParts].
  induction subs as [|sub subs IH]; constructor; [apply go|apply IH].
Qed.

Lemma parsePart_unfold part i multipartType inAlternative textLength htmlLength
    vars lists :
  parsePart part i multipartType inAlternative textLength htmlLength (vars, lists) =
  if isMultipart part then
    lists ← parseParts parsePart (subParts part) (secondPiece (type part))
              (inAlternative ||
               bool_decide (secondPiece (type part) = Some "alternative"))
              vars lists;
    Some (vars, lists)
  else leafStep part i multipartType inAlternative textLength vars lists.
Proof. by destruct part. Qed.

(** The parts of a structure that are not containers, in order. *)
Fixpoint leaves (part : bodyPart) : list bodyPart :=
  if isMultipart part then
    match part with
    | BodyPart _ _ _ _ _ subParts => concat (map leaves subParts)
    end
  else [part].

Lemma leaves_unfold part :
  leaves part =
  if isMultipart part then concat (map leaves (subParts part)) else [part].
Proof. by destruct part. Qed.

(** A part that may be shown as part of the body: text or an image, not a
    calendar and not marked as an attachment. *)
Definition eligible (part : bodyPart) : Prop :=
  (isText part || isImage part) = true ∧ type part ≠ "text/calendar" ∧
  disposition part ≠ Some "attachment".

(** [part] is a leaf of [ls], perhaps marked as inline since. *)
Definition among (ls : list bodyPart) (part : bodyPart) : Prop :=
  ∃ leaf, leaf ∈ ls ∧ (part = leaf ∨ part = setInline leaf).

(** [part] is in one of the arrays. *)
Definition listed (lists : arrays) (part : bodyPart) : Prop :=
  part ∈ htmlParts lists ∨ part ∈ textParts lists ∨ Some part ∈ fileParts lists.

(** What processing the leaves [ls] does to the arrays. *)
Record grows (ls : list bodyPart) (before after : arrays) : Prop := {
  grows_text : length (textParts before) ≤ length (textParts after);
  grows_html : length (htmlParts before) ≤ length (htmlParts after);
  grows_files : fileParts before `prefix_of` fileParts after;
  grows_eligible :
    Forall eligible (htmlParts before) ∧ Forall eligible (textParts before) →
    Forall eligible (htmlParts after) ∧ Forall eligible (textParts after);
  grows_among :
    ∀ part, listed after part → listed before part ∨ among ls part;
  grows_defined :
    Forall is_Some (fileParts before) → Forall is_Some (fileParts after);
  grows_attachments :
    ∀ leaf, leaf ∈ ls → ¬ eligible leaf → Some leaf ∈ fileParts after;
}.

Lemma grows_nil lists : grows [] lists lists.
Proof.
  split; try done.
  - by left.
  - by intros ? []%elem_of_nil.
Qed.

Lemma among_app_l ls1 ls2 part : among ls1 part → among (ls1 ++ ls2) part.
Proof. intros (leaf & ? & ?). exists leaf. split; [|done]. apply elem_of_app. by left. Qed.

Lemma among_app_r ls1 ls2 part : among ls2 part → among (ls1 ++ ls2) part.
Proof. intros (leaf & ? & ?). exists leaf. split; [|done]. apply elem_of_app. by right. Qed.

Lemma grows_trans ls1 ls2 a b c :
  grows ls1 a b → grows ls2 b c → grows (ls1 ++ ls2) a c.
Proof.
  intros [] []. split.
  - lia.
  - lia.
  - by etrans.
  - auto.
  - intros part Hc. destruct (grows_among1 part Hc) as [Hb|?];
      [|right; by apply among_app_r].
    destruct (grows_among0 part Hb) as [?|?]; [by left|right; by apply among_app_l].
  - auto.
  - intros leaf [H1|H2]%elem_of_app Hatt.
    + eapply elem_of_prefix; [by apply grows_attachments0|done].
    + by apply grows_attachments1.
Qed.

Lemma eligible_inlineAt i multipartType part :
  inlineAt i multipartType part = true → eligible part.
Proof.
  unfold inlineAt, eligible. rewrite !andb_true_iff, !negb_true_iff.
  intros [[[? ?%bool_decide_eq_false] ?%bool_decide_eq_false] _]. done.
Qed.

Lemma eligible_setInline part : eligible part → eligible (setInline part).
Proof. by destruct part. Qed.

Lemma among_self part : among [part] part.
Proof. exists part. split; [left|by left]. Qed.

Lemma among_setInline part : among [part] (setInline part).
Proof. exists part. split; [left|by right]. Qed.

Lemma last_removelast {A} (l : list A) x :
  l ≠ [] → x ∈ removelast l ++ [x] ∧ (∀ y, y ∈ removelast l → y ∈ l) ∧
  is_Some (last l) ∧ (∀ y, last l = Some y → y ∈ l) ∧
  length (removelast l ++ [x]) = length l.
Proof.
  intros Hl. destruct (exists_last Hl) as (l' & z & ->).
  rewrite removelast_last, last_snoc, !length_app. cbn.
  split; [apply elem_of_app; right; left|].
  split; [intros y Hy; apply elem_of_app; by left|].
  split; [by eexists|]. split; [|done].
  intros y [= ->]. apply elem_of_app. right. left.
Qed.

Lemma grows_push part part' (html text file : bool) lists :
  eligible part → eligible part' → among [part] part' →
  grows [part] lists
    {| htmlParts := if html then htmlParts lists ++ [part'] else htmlParts lists;
       textParts := if text then textParts lists ++ [part'] else textParts lists;
       fileParts := if file then fileParts lists ++ [Some part']
                    else fileParts lists |}.
Proof.
  intros Hpart Heligible Hamong. split; cbn [htmlParts textParts fileParts].
  - destruct text; rewrite ?length_app; lia.
  - destruct html; rewrite ?length_app; lia.
  - destruct file; [by apply prefix_app_r|done].
  - intros [Hh Ht]. split.
    + destruct html; [|done]. apply Forall_app. split; [done|by constructor].
    + destruct text; [|done]. apply Forall_app. split; [done|by constructor].
  - intros p [Hp|[Hp|Hp]]; cbn [htmlParts textParts fileParts] in Hp.
    + destruct html; [|left; by left].
      apply elem_of_app in Hp as [Hp | ->%list_elem_of_singleton];
        [left; by left|by right].
    + destruct text; [|left; right; by left].
      apply elem_of_app in Hp as [Hp | ->%list_elem_of_singleton];
        [left; right; by left|by right].
    + destruct file; [|left; right; by right].
      apply elem_of_app in Hp as [Hp | Hp%list_elem_of_singleton];
        [left; right; by right|injection Hp as ->; by right].
  - intros Hfiles. destruct file; [|done].
    apply Forall_app. split; [done|]. constructor; [by eexists|constructor].
  - by intros leaf ->%list_elem_of_singleton Hd.
Qed.

Lemma grows_file part lists :
  grows [part] lists
    {| htmlParts := htmlParts lists; textParts := textParts lists;
       fileParts := fileParts lists ++ [Some part] |}.
Proof.
  split; cbn [htmlParts textParts fileParts]; try done.
  - by apply prefix_app_r.
  - intros p [Hp|[Hp|Hp]]; cbn [htmlParts textParts fileParts] in Hp.
    + left. by left.
    + left. right. by left.
    + apply elem_of_app in Hp as [Hp | Hp%list_elem_of_singleton];
        [left; right; by right|injection Hp as ->; right; apply among_self].
  - intros Hfiles. apply Forall_app. split; [done|].
    constructor; [by eexists|constructor].
  - intros leaf ->%list_elem_of_singleton _. apply elem_of_app. right. left.
Qed.

Lemma grows_swap part lists :
  eligible part → textParts lists ≠ [] →
  grows [part] lists
    {| htmlParts := htmlParts lists;
       textParts := removelast (textParts lists) ++ [part];
       fileParts := fileParts lists ++ [last (textParts lists)] |}.
Proof.
  intros Heligible Hne.
  destruct (last_removelast (textParts lists) part Hne)
    as (_ & Hsub & Hsome & Hlast & Hlen).
  split; cbn [htmlParts textParts fileParts]; try done.
  - by rewrite Hlen.
  - by apply prefix_app_r.
  - intros [Hh Ht]. split; [done|]. apply Forall_app. split; [|by constructor].
    rewrite Forall_forall in Ht |- *. auto.
  - intros p [Hp|[Hp|Hp]]; cbn [htmlParts textParts fileParts] in Hp.
    + left. by left.
    + apply elem_of_app in Hp as [Hp | ->%list_elem_of_singleton];
        [left; right; left; auto|right; apply among_self].
    + apply elem_of_app in Hp as [Hp | Hp%list_elem_of_singleton];
        [left; right; by right|left; right; left; auto].
  - intros Hfiles. apply Forall_app. split; [done|]. by constructor.
  - by intros leaf ->%list_elem_of_singleton Hd.
Qed.

Lemma leafStep_grows part i multipartType inAlternative textLength vars lists
    vars' lists' :
  (∀ n, textLength = Some n → n ≤ length (textParts lists)) →
  (hasText vars = true → is_Some textLength) →
  leafStep part i multipartType inAlternative textLength vars lists =
    Some (vars', lists') →
  grows [part] lists lists'.
Proof.
  intros Hlength Hknown. unfold leafStep.
  destruct (inlineAt i multipartType part) eqn:Hinline;
    [|intros [= <- <-]; apply grows_file].
  pose proof (eligible_inlineAt _ _ _ Hinline) as Heligible.
  case_bool_decide as Halt.
  - case_bool_decide as Hhtml.
    { destruct (hasHtml vars); [|done]. intros [= <- <-].
      by apply (grows_push part part true false false); [| |apply among_self]. }
    destruct (isText part); [|intros [= <- <-]; apply grows_file].
    destruct (hasText vars) eqn:Htext; [|done].
    case_bool_decide as Hsame.
    { intros [= <- <-].
      by apply (grows_push part part false true false); [| |apply among_self]. }
    case_bool_decide as Hplain; intros [= <- <-]; [|apply grows_file].
    apply grows_swap; [done|]. intros Hnil.
    destruct (Hknown eq_refl) as [n ->].
    specialize (Hlength n eq_refl). rewrite Hnil in *. cbn in *.
    apply Hsame. f_equal. lia.
  - cbn zeta. intros [= <- <-].
    apply grows_push; [done| |].
    + destruct (isImage part); [by apply eligible_setInline|done].
    + destruct (isImage part); [apply among_setInline|apply among_self].
Qed.

Lemma leafStep_locals part i multipartType inAlternative textLength vars lists
    vars' lists' :
  leafStep part i multipartType inAlternative textLength vars lists =
    Some (vars', lists') →
  (hasText vars' = true → hasText vars = true) ∧
  (hasHtml vars' = true → hasHtml vars = true).
Proof.
  unfold leafStep. intros Hstep.
  repeat (case_match || case_bool_decide); simplify_eq/=; split; congruence.
Qed.

Lemma grows_merge_text lists n :
  grows [] lists
    {| htmlParts := htmlParts lists;
       textParts := textParts lists ++ drop n (htmlParts lists);
       fileParts := fileParts lists |}.
Proof.
  split; cbn [htmlParts textParts fileParts]; try done.
  - rewrite length_app. lia.
  - intros [Hh Ht]. split; [done|]. apply Forall_app. split; [done|].
    by apply Forall_drop.
  - intros p [Hp|[Hp|Hp]]; cbn [htmlParts textParts fileParts] in Hp.
    + left. by left.
    + apply elem_of_app in Hp as [Hp | Hp]; [left; right; by left|].
      left. left. apply list_elem_of_lookup in Hp as [j Hj].
      rewrite lookup_drop in Hj. by eapply list_elem_of_lookup_2.
    + left. right. by right.
  - by intros ? []%elem_of_nil.
Qed.

Lemma grows_merge_html lists n :
  grows [] lists
    {| htmlParts := htmlParts lists ++ drop n (textParts lists);
       textParts := textParts lists;
       fileParts := fileParts lists |}.
Proof.
  split; cbn [htmlParts textParts fileParts]; try done.
  - rewrite length_app. lia.
  - intros [Hh Ht]. split; [|done]. apply Forall_app. split; [done|].
    by apply Forall_drop.
  - intros p [Hp|[Hp|Hp]]; cbn [htmlParts textParts fileParts] in Hp.
    + apply elem_of_app in Hp as [Hp | Hp]; [left; by left|].
      left. right. left. apply list_elem_of_lookup in Hp as [j Hj].
      rewrite lookup_drop in Hj. by eapply list_elem_of_lookup_2.
    + left. right. by left.
    + left. right. by right.
  - by intros ? []%elem_of_nil.
Qed.

(** What the loop of [parseStructure] needs of its body for one part. *)
Definition bodyGrows
    (body : bodyPart → nat → option string → bool → option nat → option nat →
            locals * arrays → option (locals * arrays))
    (part : bodyPart) : Prop :=
  ∀ i multipartType inAlternative textLength htmlLength vars lists vars' lists',
    (∀ n, textLength = Some n → n ≤ length (textParts lists)) →
    (hasText vars = true → is_Some textLength) →
    body part i multipartType inAlternative textLength htmlLength (vars, lists) =
      Some (vars', lists') →
    grows (leaves part) lists lists' ∧
    (hasText vars' = true → hasText vars = true) ∧
    (hasHtml vars' = true → hasHtml vars = true).

Lemma parseParts_loop body multipartType inAlternative textLength htmlLength
    parts :
  Forall (bodyGrows body) parts →
  ∀ i vars lists result,
    (∀ n, textLength = Some n → n ≤ length (textParts lists)) →
    (hasText vars = true → is_Some textLength) →
    foldl (λ acc part,
        '(i, state) ← acc;
        state ← body part i multipartType inAlternative textLength htmlLength state;
        Some (S i, state))
      (Some (i, (vars, lists))) parts = Some result →
    grows (concat (map leaves parts)) lists result.2.2 ∧
    (hasText result.2.1 = true → hasText vars = true) ∧
    (hasHtml result.2.1 = true → hasHtml vars = true).
Proof.
  induction 1 as [|part parts Hpart _ IH]; intros i vars lists result Hlength Hknown.
  - intros [= <-]. split; [apply grows_nil|done].
  - cbn [foldl mbind option_bind].
    destruct (body part i multipartType inAlternative textLength htmlLength
                (vars, lists)) as [[vars1 lists1]|] eqn:Hbody.
    + apply Hpart in Hbody as (Hg & Ht & Hh); [|done..].
      intros Hrest.
      assert (∀ n, textLength = Some n → n ≤ length (textParts lists1)) as Hlength1.
      { intros n Hn. specialize (Hlength n Hn). destruct Hg. lia. }
      destruct (IH (S i) vars1 lists1 result Hlength1 ltac:(auto) Hrest)
        as (Hg' & Ht' & Hh').
      split; [by eapply grows_trans|]. auto.
    + intros Hrest. exfalso. clear -Hrest.
      induction parts as [|p ps IHps]; [done|]. by apply IHps.
Qed.

Lemma grows_merge lists (merge : bool) textLength htmlLength :
  grows [] lists
    (if merge then
       let lists :=
         if bool_decide (textLength = length (textParts lists)) &&
            negb (bool_decide (htmlLength = length (htmlParts lists)))
         then {| htmlParts := htmlParts lists;
                 textParts := textParts lists ++ drop htmlLength (htmlParts lists);
                 fileParts := fileParts lists |}
         else lists in
       if bool_decide (htmlLength = length (htmlParts lists)) &&
          negb (bool_decide (textLength = length (textParts lists)))
       then {| htmlParts := htmlParts lists ++ drop textLength (textParts lists);
               textParts := textParts lists;
               fileParts := fileParts lists |}
       else lists
     else lists).
Proof.
  destruct merge; [|apply grows_nil]. cbn zeta.
  change (@nil bodyPart) with (@nil bodyPart ++ []).
  eapply grows_trans; [|destruct (_ && _); [apply grows_merge_html|apply grows_nil]].
  destruct (_ && _); [apply grows_merge_text|apply grows_nil].
Qed.

Lemma parseParts_grows body parts multipartType inAlternative vars lists lists' :
  Forall (bodyGrows body) parts →
  parseParts body parts multipartType inAlternative vars lists = Some lists' →
  grows (concat (map leaves parts)) lists lists'.
Proof.
  intros Hbody. unfold parseParts. cbn zeta.
  set (loop := foldl _ _ _).
  destruct loop as [[i [vars1 lists1]]|] eqn:Hloop; [|done]. subst loop.
  apply (parseParts_loop _ _ _ _ _ _ Hbody) in Hloop as (Hg & Ht & Hh).
  - cbn [mbind option_bind]. cbn [snd fst] in Hg, Ht, Hh.
    rewrite <- (right_id_L [] (++) (concat _)).
    intros Hresult. eapply grows_trans; [exact Hg|].
    destruct (bool_decide (multipartType = Some "alternative") && hasText vars1 &&
              hasHtml vars1) eqn:Hmerge.
    + apply andb_true_iff in Hmerge as [[_ H1]%andb_true_iff H2].
      rewrite (Ht H1), (Hh H2) in Hresult. injection Hresult as <-.
      apply (grows_merge lists1 true).
    + injection Hresult as <-. apply grows_nil.
  - intros n Hn. destruct (hasText vars); [|done]. injection Hn as <-. done.
  - intros ->. by eexists.
Qed.

Lemma parsePart_grows part : bodyGrows parsePart part.
Proof.
  induction part as [part IH] using bodyPart_subParts_ind.
  intros i multipartType inAlternative textLength htmlLength vars lists vars' lists'
    Hlength Hknown.
  rewrite parsePart_unfold, leaves_unfold.
  destruct (isMultipart part).
  - destruct (parseParts _ _ _ _ _ _) as [lists1|] eqn:Hparts; [|done].
    intros [= <- <-]. split; [|done]. by eapply parseParts_grows.
  - intros Hstep. split; [by eapply leafStep_grows|by eapply leafStep_locals].
Qed.

(** A container of [part], or [part] itself, is a multipart/alternative. *)
Fixpoint hasAlternative (part : bodyPart) : bool :=
  isMultipart part &&
  (bool_decide (secondPiece (type part) = Some "alternative") ||
   match part with
   | BodyPart _ _ _ _ _ subParts => existsb hasAlternative subParts
   end).

(** No multipart/alternative of [part] is inside another one. *)
Fixpoint noNestedAlternative (part : bodyPart) : bool :=
  match part with
  | BodyPart _ _ _ _ _ subParts =>
      if bool_decide (secondPiece (type part) = Some "alternative")
      then negb (existsb hasAlternative subParts)
      else forallb noNestedAlternative subParts
  end || negb (isMultipart part).

Lemma hasAlternative_unfold part :
  hasAlternative part =
  isMultipart part &&
  (bool_decide (secondPiece (type part) = Some "alternative") ||
   existsb hasAlternative (subParts part)).
Proof. by destruct part. Qed.

Lemma noNestedAlternative_unfold part :
  noNestedAlternative part =
  (if bool_decide (secondPiece (type part) = Some "alternative")
   then negb (existsb hasAlternative (subParts part))
   else forallb noNestedAlternative (subParts part)) || negb (isMultipart part).
Proof. by destruct part. Qed.

(** The loop of [parseStructure] keeps what its body keeps, and fails only
    where its body does. *)
Lemma parseParts_loop_inv
    (body : bodyPart → nat → option string → bool → option nat → option nat →
            locals * arrays → option (locals * arrays))
    multipartType inAlternative textLength htmlLength
    (I : locals * arrays → Prop) parts :
  Forall (λ part, ∀ i state, I state →
            ∃ state', body part i multipartType inAlternative textLength
                        htmlLength state = Some state' ∧ I state') parts →
  ∀ i state, I state →
    ∃ i' state',
      foldl (λ acc part,
          '(i, state) ← acc;
          state ← body part i multipartType inAlternative textLength htmlLength
                    state;
          Some (S i, state))
        (Some (i, state)) parts = Some (i', state') ∧ I state'.
Proof.
  induction 1 as [|part parts Hpart _ IH]; intros i state Hstate.
  - by exists i, state.
  - cbn [foldl mbind option_bind].
    destruct (Hpart i state Hstate) as (state1 & -> & Hstate1).
    by apply IH.
Qed.

Lemma parseParts_inv
    (body : bodyPart → nat → option string → bool → option nat → option nat →
            locals * arrays → option (locals * arrays))
    multipartType inAlternative
    (I : locals * arrays → Prop) parts vars lists :
  (∀ textLength htmlLength,
     Forall (λ part, ∀ i state, I state →
               ∃ state', body part i multipartType inAlternative textLength
                           htmlLength state = Some state' ∧ I state') parts) →
  I (vars, lists) →
  ∃ vars' lists' result,
    I (vars', lists') ∧
    parseParts body parts multipartType inAlternative vars lists = Some result ∧
    (multipartType ≠ Some "alternative" → result = lists').
Proof.
  intros Hbody Hstate. unfold parseParts. cbn zeta.
  edestruct (parseParts_loop_inv body multipartType inAlternative)
    as (i' & [vars' lists'] & -> & Hstate'); [apply Hbody|exact Hstate|].
  exists vars', lists'. cbn [mbind option_bind].
  case_bool_decide as Halt; cbn [andb].
  - destruct (hasText vars' && hasHtml vars');
      repeat case_match; eexists; split_and!; done.
  - eexists. split_and!; done.
Qed.

Lemma existsb_false {A} (f : A → bool) l :
  existsb f l = false → Forall (λ x, f x = false) l.
Proof.
  induction l as [|x l IH]; [constructor|]. cbn.
  intros [? ?]%orb_false_iff. constructor; auto.
Qed.

Lemma forallb_Forall {A} (f : A → bool) l :
  forallb f l = true → Forall (λ x, f x = true) l.
Proof.
  induction l as [|x l IH]; [constructor|]. cbn.
  intros [? ?]%andb_true_iff. constructor; auto.
Qed.

(** Both arrays are there. *)
Definition both : locals := {| hasHtml := true; hasText := true |}.

Lemma leafStep_both part i inAlternative textLength lists :
  ∃ lists',
    leafStep part i (Some "alternative") inAlternative textLength both lists =
      Some (both, lists').
Proof.
  unfold leafStep. rewrite bool_decide_eq_true_2 by done. cbn [both hasHtml hasText].
  repeat case_match; by eexists.
Qed.

Lemma leafStep_plain part i multipartType inAlternative textLength vars lists :
  multipartType ≠ Some "alternative" →
  ∃ vars' lists',
    leafStep part i multipartType inAlternative textLength vars lists =
      Some (vars', lists') ∧
    (inAlternative = false →
       vars' = vars ∧
       (vars = both → htmlParts lists = textParts lists →
          htmlParts lists' = textParts lists')).
Proof.
  intros Halt. unfold leafStep. rewrite (bool_decide_eq_false_2 _ Halt).
  destruct (inlineAt i multipartType part).
  - cbn zeta. eexists _, _. split; [done|]. intros ->. cbn [andb].
    split; [done|]. intros -> Hsame. cbn. by rewrite Hsame.
  - eexists _, _. split; [done|]. by intros ->.
Qed.

Lemma parsePart_inside part :
  hasAlternative part = false →
  ∀ i multipartType textLength htmlLength vars lists,
    (multipartType = Some "alternative" → vars = both) →
    ∃ vars' lists',
      parsePart part i multipartType true textLength htmlLength (vars, lists) =
        Some (vars', lists') ∧
      (multipartType = Some "alternative" → vars' = vars).
Proof.
  induction part as [part IH] using bodyPart_subParts_ind.
  rewrite hasAlternative_unfold.
  intros Hno i multipartType textLength htmlLength vars lists Hvars.
  rewrite parsePart_unfold. destruct (isMultipart part).
  - cbn [andb] in Hno. apply orb_false_iff in Hno as [Halt%bool_decide_eq_false Hsub].
    apply existsb_false in Hsub. cbn [orb].
    destruct (parseParts_inv parsePart (secondPiece (type part)) true
                (λ _, True) (subParts part) vars lists)
      as (_ & _ & result & _ & -> & _); [|done|by eexists _, _].
    intros tl hl. rewrite Forall_forall in IH, Hsub. apply Forall_forall.
    intros sub Hin j [vars1 lists1] _.
    destruct (IH sub Hin (Hsub sub Hin) j (secondPiece (type part)) tl hl
                vars1 lists1) as (? & ? & -> & _); [done|by eexists].
  - destruct (decide (multipartType = Some "alternative")) as [->|Halt].
    + rewrite (Hvars eq_refl).
      destruct (leafStep_both part i true textLength lists) as (lists' & ->).
      by eexists _, _.
    + destruct (leafStep_plain part i multipartType true textLength vars lists Halt)
        as (vars' & lists' & -> & _).
      by eexists _, _.
Qed.

Lemma parsePart_outside part :
  noNestedAlternative part = true →
  ∀ i multipartType textLength htmlLength lists,
    multipartType ≠ Some "alternative" →
    ∃ lists',
      parsePart part i multipartType false textLength htmlLength (both, lists) =
        Some (both, lists').
Proof.
  induction part as [part IH] using bodyPart_subParts_ind.
  rewrite noNestedAlternative_unfold.
  intros Hno i multipartType textLength htmlLength lists Halt.
  rewrite parsePart_unfold. destruct (isMultipart part).
  - cbn [negb] in Hno. rewrite orb_false_r in Hno. cbn [orb].
    destruct (parseParts_inv parsePart (secondPiece (type part))
                (bool_decide (secondPiece (type part) = Some "alternative"))
                (λ state, state.1 = both) (subParts part) both lists)
      as (_ & _ & result & _ & -> & _); [|done|by eexists].
    intros tl hl. apply Forall_forall. intros sub Hin j [vars1 lists1] Hv.
    cbn [fst] in Hv. subst vars1.
    case_bool_decide as Hsub.
    + apply negb_true_iff, existsb_false in Hno. rewrite Forall_forall in Hno.
      destruct (parsePart_inside sub (Hno sub Hin) j (secondPiece (type part)) tl hl
                  both lists1) as (vars' & lists' & -> & Hsame); [done|].
      rewrite (Hsame Hsub). by eexists.
    + apply forallb_Forall in Hno. rewrite Forall_forall in IH, Hno.
      destruct (IH sub Hin (Hno sub Hin) j (secondPiece (type part)) tl hl lists1
                  Hsub) as (lists' & ->).
      by eexists.
  - destruct (leafStep_plain part i multipartType false textLength both lists Halt)
      as (vars' & lists' & -> & Hsame).
    destruct (Hsame eq_refl) as [-> _]. by eexists.
Qed.

Lemma parsePart_same part :
  hasAlternative part = false →
  ∀ i multipartType textLength htmlLength lists,
    multipartType ≠ Some "alternative" →
    htmlParts lists = textParts lists →
    ∃ lists',
      parsePart part i multipartType false textLength htmlLength (both, lists) =
        Some (both, lists') ∧
      htmlParts lists' = textParts lists'.
Proof.
  induction part as [part IH] using bodyPart_subParts_ind.
  rewrite hasAlternative_unfold.
  intros Hno i multipartType textLength htmlLength lists Halt Hsame.
  rewrite parsePart_unfold. destruct (isMultipart part).
  - cbn [andb] in Hno. apply orb_false_iff in Hno as [Hsub%bool_decide_eq_false Hno].
    apply existsb_false in Hno. rewrite (bool_decide_eq_false_2 _ Hsub). cbn [orb].
    destruct (parseParts_inv parsePart (secondPiece (type part)) false
                (λ state, state.1 = both ∧ htmlParts state.2 = textParts state.2)
                (subParts part) both lists)
      as (vars' & lists' & result & [_ Hresult] & -> & Heq); [|done|].
    + intros tl hl. rewrite Forall_forall in IH, Hno. apply Forall_forall.
      intros sub Hin j [vars1 lists1] [Hv Hsame1]. cbn [fst snd] in Hv, Hsame1. subst vars1.
      destruct (IH sub Hin (Hno sub Hin) j (secondPiece (type part)) tl hl lists1
                  Hsub Hsame1) as (lists2 & -> & ?).
      by eexists.
    + rewrite (Heq Hsub). by eexists.
  - destruct (leafStep_plain part i multipartType false textLength both lists Halt)
      as (vars' & lists' & -> & Hkeeps).
    destruct (Hkeeps eq_refl) as [-> Hlists]. eexists. split; [done|]. by apply Hlists.
Qed.

(** X18. Where [bodyParts] returns, it has sorted the leaves of the structure:
    each entry of the three arrays is a leaf of the structure (an image
    perhaps marked inline), the html and text arrays hold only parts that
    may be shown in the body, no [undefined] is pushed to the files, and
    every leaf that may not be shown in the body is among the files. *)
Theorem bodyParts_sorts_leaves structure :
  ∀ parts, bodyParts (Some structure) = Some parts →
    (∀ part, listed parts part → among (leaves structure) part) ∧
    Forall eligible (htmlParts parts) ∧ Forall eligible (textParts parts) ∧
    Forall is_Some (fileParts parts) ∧
    (∀ leaf, leaf ∈ leaves structure → ¬ eligible leaf →
       Some leaf ∈ fileParts parts).
Proof.
  intros parts Hparts. unfold bodyParts, parseStructure in Hparts.
  apply parseParts_grows in Hparts;
    [|constructor; [apply parsePart_grows|constructor]].
  cbn [map concat] in Hparts. rewrite (right_id_L [] (++)) in Hparts.
  destruct Hparts as [_ _ _ Heligible Hamong Hdefined Hfiles].
  cbn [htmlParts textParts fileParts] in *.
  destruct Heligible as [? ?]; [by split|].
  split_and!; try done.
  - intros part Hlisted. destruct (Hamong part Hlisted) as [Hempty|?]; [|done].
    destruct Hempty as [Hp|[Hp|Hp]]; cbn in Hp; by apply elem_of_nil in Hp.
  - by apply Hdefined.
Qed.

(** A message in two forms, with a picture and a document attached. *)
Definition plainPart : bodyPart :=
  BodyPart (Some "1") "text/plain" None None false [].
Definition htmlPart : bodyPart :=
  BodyPart (Some "2") "text/html" None None false [].
Definition picture : bodyPart :=
  BodyPart (Some "3") "image/png" (Some "inline") (Some "a.png") false [].
Definition document : bodyPart :=
  BodyPart (Some "4") "application/pdf" (Some "attachment") (Some "a.pdf") false [].

Definition twoForms : bodyPart :=
  BodyPart None "multipart/mixed" None None false
    [ BodyPart None "multipart/alternative" None None false [plainPart; htmlPart];
      picture; document ].

Definition twoFormsParts : arrays :=
  {| htmlParts := [htmlPart; setInline picture];
     textParts := [plainPart; setInline picture];
     fileParts := [Some (setInline picture); Some document] |}.

Lemma bodyParts_sorts_leaves_witness :
  (∀ part, listed twoFormsParts part → among (leaves twoForms) part) ∧
  Forall eligible (htmlParts twoFormsParts) ∧
  Forall eligible (textParts twoFormsParts) ∧
  Forall is_Some (fileParts twoFormsParts) ∧
  (∀ leaf, leaf ∈ leaves twoForms → ¬ eligible leaf →
     Some leaf ∈ fileParts twoFormsParts).
Proof.
  apply (bodyParts_sorts_leaves twoForms twoFormsParts). vm_compute. reflexivity.
Defined.

(** X19. [bodyParts] ends without a [TypeError] where no multipart/alternative
    of the structure is inside another one. *)
Theorem bodyParts_returns structure :
  noNestedAlternative structure = true →
  is_Some (bodyParts (Some structure)).
Proof.
  intros Hno. unfold bodyParts, parseStructure.
  destruct (parseParts_inv parsePart (Some "mixed") false
              (λ state, state.1 = both) [structure] both
              {| htmlParts := []; textParts := []; fileParts := [] |})
    as (_ & _ & result & _ & Hresult & _); [|done|exists result; exact Hresult].
  intros tl hl. constructor; [|constructor]. intros i [vars lists] Hv. cbn [fst] in Hv. subst vars.
  destruct (parsePart_outside structure Hno i (Some "mixed") tl hl lists)
    as (lists' & ->); [done|by eexists].
Qed.

Lemma bodyParts_returns_witness : is_Some (bodyParts (Some twoForms)).
Proof. apply (bodyParts_returns twoForms). reflexivity. Defined.

(** The hypothesis is needed: with a multipart/alternative inside a
    multipart/mixed inside a multipart/alternative, a text part of the inner
    one is pushed to an array that the part before it has set to [null]. *)
Example bodyParts_nested_alternative :
  bodyParts (Some
    (BodyPart None "multipart/alternative" None None false
       [ plainPart;
         BodyPart None "multipart/mixed" None None false
           [ htmlPart;
             BodyPart None "multipart/alternative" None None false
               [plainPart; htmlPart] ] ])) = None.
Proof. vm_compute. reflexivity. Qed.

(** X20. A structure with no multipart/alternative gives the same parts as
    the html body and as the text body. *)
Theorem bodyParts_without_alternative structure :
  hasAlternative structure = false →
  ∃ parts, bodyParts (Some structure) = Some parts ∧
    htmlParts parts = textParts parts.
Proof.
  intros Hno. unfold bodyParts, parseStructure.
  destruct (parseParts_inv parsePart (Some "mixed") false
              (λ state, state.1 = both ∧ htmlParts state.2 = textParts state.2)
              [structure] both
              {| htmlParts := []; textParts := []; fileParts := [] |})
    as (vars' & lists' & result & [_ Hsame] & Hresult & Heq); [|done|].
  - intros tl hl. constructor; [|constructor].
    intros i [vars lists] [Hv Hsame]. cbn [fst snd] in Hv, Hsame. subst vars.
    destruct (parsePart_same structure Hno i (Some "mixed") tl hl lists)
      as (lists' & -> & ?); [done..|by eexists].
  - exists result. split; [exact Hresult|]. by rewrite Heq.
Qed.

Lemma bodyParts_without_alternative_witness :
  let structure :=
    BodyPart None "multipart/mixed" None None false [plainPart; picture; document] in
  ∃ parts, bodyParts (Some structure) = Some parts ∧
    htmlParts parts = textParts parts.
Proof.
  apply (bodyParts_without_alternative
           (BodyPart None "multipart/mixed" None None false
              [plainPart; picture; document])).
  reflexivity.
Defined.

End BodyPartsFacts.

Section ThreadFacts.

Import Thread.

Lemma foldl_or (key : message → bool) l b :
  foldl (λ isProperty m, isProperty || key m) b l = b || existsb key l.
Proof.
  revert b. induction l as [|m l IH]; intros b; cbn; [by rewrite orb_false_r|].
  by rewrite IH, orb_assoc.
Qed.

Lemma foldl_sumSize l z :
  foldl sumSize z l = (z + foldl sumSize 0 l)%Z.
Proof.
  revert z. induction l as [|m l IH]; intros z; cbn; [lia|].
  rewrite IH, (IH (sumSize 0 m)). unfold sumSize. lia.
Qed.

(** X21. The messages of a thread are split between those in the trash and
    the others: the two totals add up to the number of messages and the two
    sizes to the size of all of them.  Of the aggregates, [isUnread],
    [isFlagged], [isDraft] and [hasAttachment] are set exactly when a
    message out of the trash has the flag; those for the trash are never
    set, as each asks the messages for a property by its own name, such as
    [isUnreadInTrash], which no message has. *)
Theorem thread_aggregates_split messages :
  total messages + totalInTrash messages = length messages ∧
  (size_ messages + sizeInTrash messages)%Z = foldl sumSize 0%Z messages ∧
  ∀ name, name ∈ flagNames →
    aggregate name messages =
      Some (existsb (λ m, negb (isInTrash m) && flag m name) messages) ∧
    aggregate (name +:+ "InTrash") messages = Some false.
Proof.
  split; [|split].
  - unfold total, totalInTrash, messagesNotInTrash, messagesInTrash.
    induction messages as [|m messages IH]; [done|].
    cbn [List.filter]. destruct (isIn "trash" m); cbn [negb length]; lia.
  - unfold size_, sizeInTrash, messagesNotInTrash, messagesInTrash.
    induction messages as [|m messages IH]; [done|].
    cbn [List.filter foldl]. rewrite (foldl_sumSize messages (sumSize 0 m)).
    rewrite <- IH.
    destruct (isIn "trash" m); cbn [negb foldl];
      rewrite (foldl_sumSize (List.filter _ _) (sumSize 0 m)); lia.
  - intros name Hname. split.
    + unfold aggregate. rewrite bool_decide_eq_true_2 by done. f_equal.
      unfold aggregateBoolean, messagesNotInTrash, isInTrash.
      rewrite (foldl_or (λ m, message_get m name)). cbn [orb].
      assert (∀ m, message_get m name = flag m name) as Hget.
      { intros m. unfold message_get. by rewrite bool_decide_eq_true_2. }
      induction messages as [|m messages IH]; [done|].
      cbn [List.filter existsb].
      destruct (isIn "trash" m); cbn [negb andb orb existsb];
        by rewrite ?Hget, IH.
    + assert (name +:+ "InTrash" ∉ flagNames) as Hnot.
      { unfold flagNames in *.
        repeat (apply elem_of_cons in Hname as [->|Hname];
                [apply (bool_decide_eq_false _); by vm_compute|]).
        by apply elem_of_nil in Hname. }
      unfold aggregate. rewrite bool_decide_eq_false_2 by done.
      rewrite bool_decide_eq_true_2
        by (apply list_elem_of_fmap; by exists name).
      f_equal. unfold aggregateBooleanInTrash.
      rewrite (foldl_or (λ m, message_get m (name +:+ "InTrash"))). cbn [orb].
      induction (messagesInTrash messages) as [|m l IH]; [done|].
      cbn [existsb]. rewrite IH. unfold message_get.
      by rewrite bool_decide_eq_false_2.
Qed.

(** Whether [mailboxCounts] counts the message for the mailbox. *)
Definition counted (m : message) (mb : mailbox) : bool :=
  negb (isInTrash m) || bool_decide (role mb = Some "trash").

(** How often [mailboxCounts] counts mailbox [id]. *)
Definition occurrences (id : string) (messages : list message) : nat :=
  list_sum (map (λ m,
    length (List.filter (λ mb, counted m mb && bool_decide (mb_id mb = id))
              (mailboxes m))) messages).

Lemma mailboxCounts_inner m id mbs counts :
  let n := length (List.filter (λ mb, counted m mb && bool_decide (mb_id mb = id))
                     mbs) in
  foldl (countMailbox m) counts mbs !! id =
  if decide (n = 0) then counts !! id else Some (default 0 (counts !! id) + n).
Proof.
  revert counts. induction mbs as [|mb mbs IH]; intros counts; [done|].
  cbn [foldl List.filter]. cbn zeta in IH |- *. rewrite IH.
  unfold counted, countMailbox.
  destruct (isInTrash m); cbn [negb andb orb].
  - case_bool_decide as Hrole; cbn [negb andb].
    + case_bool_decide as Hid; cbn [length].
      * rewrite <- Hid, lookup_insert_eq. simpl default.
        repeat case_decide; try lia; f_equal; lia.
      * by rewrite lookup_insert_ne.
    + done.
  - case_bool_decide as Hid; cbn [length].
    + rewrite <- Hid, lookup_insert_eq. simpl default.
      repeat case_decide; try lia; f_equal; lia.
    + by rewrite lookup_insert_ne.
Qed.

Lemma mailboxCounts_outer id messages counts :
  foldl (λ counts m, foldl (countMailbox m) counts (mailboxes m))
    counts messages !! id =
  if decide (occurrences id messages = 0) then counts !! id
  else Some (default 0 (counts !! id) + occurrences id messages).
Proof.
  revert counts. induction messages as [|m messages IH]; intros counts; [done|].
  cbn [foldl]. rewrite IH.
  pose proof (mailboxCounts_inner m id (mailboxes m) counts) as Hinner.
  cbn zeta in Hinner. rewrite Hinner. clear Hinner IH.
  change (occurrences id (m :: messages)) with
    (length (List.filter (λ mb, counted m mb && bool_decide (mb_id mb = id))
               (mailboxes m)) + occurrences id messages).
  generalize (length (List.filter
    (λ mb, counted m mb && bool_decide (mb_id mb = id)) (mailboxes m))).
  generalize (occurrences id messages). intros k n.
  destruct (counts !! id) as [c|]; simpl default;
    destruct k, n; cbn; try done; repeat (case_decide; try lia);
    simpl default; try done; f_equal; lia.
Qed.

(** X22. [mailboxCounts] has, for each mailbox, how many times the messages of
    the thread list it, leaving out the other mailboxes of a message that is
    in the trash; a mailbox that would count nothing has no entry.  The ids
    of the mailboxes are not names that objects inherit, for which
    [counts[ id ] || 0] would not begin at [0]. *)
Theorem mailboxCounts_spec messages id :
  (∀ m mb, m ∈ messages → mb ∈ mailboxes m → inherited (mb_id mb) = false) →
  mailboxCounts messages !! id =
  if decide (occurrences id messages = 0) then None
  else Some (occurrences id messages).
Proof.
  intros _. unfold mailboxCounts. rewrite mailboxCounts_outer, lookup_empty.
  by case_decide.
Qed.

Lemma mailboxCounts_spec_witness :
  let inbox := {| mb_id := "mb1"; role := Some "inbox" |} in
  let trash := {| mb_id := "mb2"; role := Some "trash" |} in
  let kept := {| mailboxes := [inbox]; size := 10; flag := λ _, false |} in
  let binned := {| mailboxes := [inbox; trash]; size := 20; flag := λ _, true |} in
  mailboxCounts [kept; binned] !! "mb1" =
  if decide (occurrences "mb1" [kept; binned] = 0) then None
  else Some (occurrences "mb1" [kept; binned]).
Proof.
  intros inbox trash kept binned.
  apply (mailboxCounts_spec [kept; binned] "mb1").
  intros m mb Hm Hmb.
  repeat (apply elem_of_cons in Hm as [->|Hm]);
    [| |by apply elem_of_nil in Hm];
    repeat (apply elem_of_cons in Hmb as [->|Hmb]);
    try done; by apply elem_of_nil in Hmb.
Defined.

End ThreadFacts.
